(** * Atlas daemon: the sync-and-review core, embedded and verified

    A shallow embedding of [tools/atlas-daemon/atlas_daemon]:
    - [review.py]: the diff splitter and filter, the oracle-response parser,
      and the single-pass / chunked review driver;
    - [db.py]: the [games] and [issues] tables with the error throttle, the
      dedup query and issue resolution;
    - [daemon.py]: auto-resolve and the review-and-persist step of the loop,
      a turn of the sync loop with its error handler, and the registry of
      the loops' tasks;
    - [security.py]: the choice of the encryption key;
    - [db.py], the rest: the whitelist, the admins, the games with their
      cascading deletes, and the lookup of an issue by its message;
    - [discord_fmt.py]: the embeds, the reply of the context button and the
      line counts of a diff;
    - [atlas_cli.py]: the subprocess runner and the atlas and git commands;
    - [bot.py]: the slash commands, as steps between their awaits.

    Python [str] values are sequences of Unicode code points, [bytes] values
    sequences of octets; tables are finite maps keyed by their primary key. *)

From Stdlib Require Import ZArith NArith List Bool Lia String Ascii.
From Stdlib Require Import DecimalString.
From stdpp Require Import gmap list.
Import ListNotations.

Local Open Scope N_scope.

(** ** Python strings *)

Module PyStr.

(** A code point. *)
Definition char := N.

(** A Python [str]: its code points in order. *)
Definition str := list char.

(** A literal: the code points of an ASCII string. *)
Definition py (s : string) : str :=
  List.map N_of_ascii (list_ascii_of_string s).
Arguments py s%_string : simpl never.

(** [len(s)] *)
Definition len (s : str) : Z := Z.of_nat (length s).

(** The line boundaries of [str.splitlines]: LF, VT, FF, CR, FS, GS, RS,
    NEL, LINE SEPARATOR and PARAGRAPH SEPARATOR (CR LF counts as one). *)
Definition is_linebreak (c : char) : bool :=
  (c =? 10) || (c =? 11) || (c =? 12) || (c =? 13) || (c =? 28) || (c =? 29)
  || (c =? 30) || (c =? 133) || (c =? 8232) || (c =? 8233).

(** The characters [str.strip()] removes: those with the Unicode
    White_Space property or bidirectional type WS, B or S. *)
Definition is_space (c : char) : bool :=
  ((9 <=? c) && (c <=? 13)) || ((28 <=? c) && (c <=? 32)) || (c =? 133)
  || (c =? 160) || (c =? 5760) || ((8192 <=? c) && (c <=? 8202))
  || (c =? 8232) || (c =? 8233) || (c =? 8239) || (c =? 8287) || (c =? 12288).

(** The lines of [s] as [str.splitlines] cuts them: each line's text and
    its terminator (empty for a last line that has none). *)
Fixpoint split_raw (s : str) : list (str * str) :=
  match s with
  | [] => []
  | c :: rest =>
      if is_linebreak c then
        if c =? 13 then
          match rest with
          | d :: rest' =>
              if d =? 10 then ([], [c; d]) :: split_raw rest'
              else ([], [c]) :: split_raw rest
          | [] => [([], [c])]
          end
        else ([], [c]) :: split_raw rest
      else
        match split_raw rest with
        | [] => [([c], [])]
        | (body, term) :: ls => (c :: body, term) :: ls
        end
  end.

(** [s.splitlines()] *)
Definition splitlines (s : str) : list str := List.map fst (split_raw s).

(** [s.splitlines(keepends=True)] *)
Definition splitlines_keepends (s : str) : list str :=
  List.map (fun l => fst l ++ snd l) (split_raw s).

(** [s.startswith(p)] *)
Fixpoint startswith (p s : str) : bool :=
  match p, s with
  | [], _ => true
  | _ :: _, [] => false
  | a :: p', b :: s' => (a =? b) && startswith p' s'
  end.

(** [s.endswith(p)] *)
Definition endswith (p s : str) : bool := startswith (rev p) (rev s).

(** [s.lstrip()], [s.rstrip()], [s.strip()] *)
Fixpoint lstrip (s : str) : str :=
  match s with
  | c :: s' => if is_space c then lstrip s' else s
  | [] => []
  end.

Definition rstrip (s : str) : str := rev (lstrip (rev s)).

Definition strip (s : str) : str := rstrip (lstrip s).

(** [sep.join(parts)] *)
Fixpoint join (sep : str) (parts : list str) : str :=
  match parts with
  | [] => []
  | [p] => p
  | p :: ps => p ++ sep ++ join sep ps
  end.

(** [a == b] on strings. *)
Fixpoint str_eqb (a b : str) : bool :=
  match a, b with
  | [], [] => true
  | x :: a', y :: b' => (x =? y) && str_eqb a' b'
  | _, _ => false
  end.

(** [x in xs] for a list of strings. *)
Definition str_in (x : str) (xs : list str) : bool := existsb (str_eqb x) xs.

End PyStr.
Import PyStr.

(** ** Python values, exceptions and results *)

Module PyVal.

(** A [float]: [FFinite m e] is m * 2^e. *)
Inductive pyfloat : Type :=
| FFinite (m e : Z)
| FInf (negative : bool)
| FNaN.

(** The values [json.loads] builds. A [dict] is its items in insertion
    order, keys distinct. *)
#[warnings="-register-all"]
Inductive pyobj : Type :=
| PyNone
| PyBool (b : bool)
| PyInt (z : Z)
| PyFloat (f : pyfloat)
| PyStr (s : str)
| PyList (items : list pyobj)
| PyDict (entries : list (str * pyobj)).

Inductive pyexc : Type :=
| ValueError
| TypeError
| OverflowError
| IntegrityError
| RuntimeError
| UnicodeEncodeError
| UnicodeDecodeError
| InvalidToken
| APIError
| HTTPException.

(** The outcome of a call: a value, or an exception on its way up. *)
Inductive result (A : Type) : Type :=
| Ok (a : A)
| Raise (e : pyexc).
Arguments Ok {A} a.
Arguments Raise {A} e.

(** Sequencing: the first exception ends the computation. *)
#[global] Instance result_bind : MBind result :=
  fun A B (k : A -> result B) (r : result A) =>
    match r with
    | Ok a => k a
    | Raise e => Raise e
    end.

#[global] Instance result_ret : MRet result := fun A a => Ok a.

(** [d.get(key, default)] *)
Definition dict_get (d : list (str * pyobj)) (key : str) (default : pyobj)
  : pyobj :=
  match List.find (fun kv => str_eqb (fst kv) key) d with
  | Some kv => snd kv
  | None => default
  end.

(** [int(x)] of a finite float: truncation toward zero. *)
Definition float_trunc (m e : Z) : Z :=
  if (0 <=? e)%Z then (m * 2 ^ e)%Z else Z.quot m (2 ^ (- e)).

(** [str(n)] of an integer. *)
Definition str_of_Z (z : Z) : str :=
  py (NilZero.string_of_int (Z.to_int z)).

End PyVal.
Import PyVal.

(** ** db.py: the state store

    A table is a finite map from its [INTEGER PRIMARY KEY AUTOINCREMENT] to
    the other columns of the row; the dataclasses [Game] and [DBIssue] pair
    a key with its row, as the constructor calls on a fetched row do. [INTEGER]
    columns hold Python integers. The clock readings ([datetime.now], the
    [datetime('now')] column defaults) are arguments. *)

Module Db.

Record GameRow : Type := {
  discord_server_id : str;
  place_id : Z;
  channel_id : str;
  api_key_encrypted : list N;
  added_by : str;
  working_dir : str;
  last_sync_at : option str;
  last_error : option str;
  last_error_at : option str;
  error_count : option Z;
  game_created_at : str
}.

Record Game : Type := { game_key : Z; game_row :> GameRow }.

Record IssueRow : Type := {
  game_id : Z;
  discord_message_id : option str;
  file_path : str;
  line_start : option Z;
  line_end : option Z;
  severity : str;
  title : str;
  explanation : option str;
  suggestion : option str;
  resolved : bool;
  resolved_by : option str;
  resolved_reason : option str;
  resolved_at : option str;
  created_at : str
}.

Record DBIssue : Type := { id : Z; issue_row :> IssueRow }.

Record Database : Type := {
  games : gmap Z GameRow;
  issues : gmap Z IssueRow;
  (** [sqlite_sequence]: the largest key [issues] ever held. *)
  issues_seq : Z
}.

Definition with_games (db : Database) (g : gmap Z GameRow) : Database :=
  {| games := g; issues := issues db; issues_seq := issues_seq db |}.

Definition with_issues (db : Database) (i : gmap Z IssueRow) : Database :=
  {| games := games db; issues := i; issues_seq := issues_seq db |}.

(** The [UPDATE games SET ...] statements. *)
Definition set_synced (now : str) (g : GameRow) : GameRow :=
  {| discord_server_id := discord_server_id g; place_id := place_id g;
     channel_id := channel_id g; api_key_encrypted := api_key_encrypted g;
     added_by := added_by g; working_dir := working_dir g;
     last_sync_at := Some now; last_error := None; last_error_at := None;
     error_count := Some 0%Z; game_created_at := game_created_at g |}.

Definition set_error_count (n : Z) (g : GameRow) : GameRow :=
  {| discord_server_id := discord_server_id g; place_id := place_id g;
     channel_id := channel_id g; api_key_encrypted := api_key_encrypted g;
     added_by := added_by g; working_dir := working_dir g;
     last_sync_at := last_sync_at g; last_error := last_error g;
     last_error_at := last_error_at g;
     error_count := Some n; game_created_at := game_created_at g |}.

Definition set_new_error (error now : str) (g : GameRow) : GameRow :=
  {| discord_server_id := discord_server_id g; place_id := place_id g;
     channel_id := channel_id g; api_key_encrypted := api_key_encrypted g;
     added_by := added_by g; working_dir := working_dir g;
     last_sync_at := last_sync_at g; last_error := Some error;
     last_error_at := Some now;
     error_count := Some 1%Z; game_created_at := game_created_at g |}.

Definition update_last_sync (db : Database) (game_id : Z) (now : str)
  : Database :=
  with_games db (alter (set_synced now) game_id (games db)).

(** [row[0] == error] for the nullable column [last_error]. *)
Definition same_error (stored : option str) (error : str) : bool :=
  match stored with
  | Some e => str_eqb e error
  | None => false
  end.

(** [row[1] or 0] *)
Definition or_zero (n : option Z) : Z :=
  match n with
  | Some z => z
  | None => 0%Z
  end.

(** [update_last_error]: the new state and whether to notify. An [UPDATE]
    of a missing row changes nothing. *)
Definition update_last_error (db : Database) (game_id : Z) (error now : str)
  : Database * bool :=
  match games db !! game_id with
  | Some row =>
      if same_error (last_error row) error then
        let new_count := (or_zero (error_count row) + 1)%Z in
        (with_games db (alter (set_error_count new_count) game_id (games db)),
         (new_count =? 1)%Z || (new_count mod 12 =? 0)%Z)
      else
        (with_games db (alter (set_new_error error now) game_id (games db)),
         true)
  | None =>
      (with_games db (alter (set_new_error error now) game_id (games db)),
       true)
  end.

(** [SELECT * FROM issues WHERE game_id = ? AND resolved = 0] *)
Definition get_unresolved_issues (db : Database) (game : Z) : list DBIssue :=
  List.map (fun kv => {| id := fst kv; issue_row := snd kv |})
    (List.filter
       (fun kv => (game_id (snd kv) =? game)%Z && negb (resolved (snd kv)))
       (map_to_list (issues db))).

(** [add_issue]: the row gets the next key; the foreign key must name a
    game. *)
Definition add_issue (db : Database) (game : Z)
    (message_id : option str) (file : str) (l_start l_end : option Z)
    (sev ttl : str) (expl sugg : option str) (now : str)
  : result (Database * Z) :=
  match games db !! game with
  | None => Raise IntegrityError
  | Some _ =>
      let key := (issues_seq db + 1)%Z in
      let row :=
        {| game_id := game; discord_message_id := message_id;
           file_path := file; line_start := l_start; line_end := l_end;
           severity := sev; title := ttl; explanation := expl;
           suggestion := sugg; resolved := false; resolved_by := None;
           resolved_reason := None; resolved_at := None;
           created_at := now |} in
      Ok ({| games := games db; issues := <[key := row]> (issues db);
             issues_seq := key |}, key)
  end.

Definition set_resolved (by_ reason now : str) (r : IssueRow) : IssueRow :=
  {| game_id := game_id r; discord_message_id := discord_message_id r;
     file_path := file_path r; line_start := line_start r;
     line_end := line_end r; severity := severity r; title := title r;
     explanation := explanation r; suggestion := suggestion r;
     resolved := true; resolved_by := Some by_;
     resolved_reason := Some reason; resolved_at := Some now;
     created_at := created_at r |}.

Definition resolve_issue (db : Database) (issue_id : Z)
    (resolved_by reason now : str) : Database :=
  with_issues db (alter (set_resolved resolved_by reason now) issue_id (issues db)).

Definition set_message_id (message_id : str) (r : IssueRow) : IssueRow :=
  {| game_id := game_id r; discord_message_id := Some message_id;
     file_path := file_path r; line_start := line_start r;
     line_end := line_end r; severity := severity r; title := title r;
     explanation := explanation r; suggestion := suggestion r;
     resolved := resolved r; resolved_by := resolved_by r;
     resolved_reason := resolved_reason r; resolved_at := resolved_at r;
     created_at := created_at r |}.

Definition update_issue_message_id (db : Database) (issue_id : Z)
    (message_id : str) : Database :=
  with_issues db (alter (set_message_id message_id) issue_id (issues db)).

(** The row test of [final_dedup]'s query. *)
Definition open_duplicate (game : Z) (file ttl : str) (r : IssueRow) : bool :=
  (game_id r =? game)%Z && str_eqb (file_path r) file
  && str_eqb (title r) ttl && negb (resolved r).

Definition final_dedup (db : Database) (game : Z) (file ttl : str) : bool :=
  existsb (fun kv => open_duplicate game file ttl (snd kv))
    (map_to_list (issues db)).

End Db.

(** ** review.py: splitting and filtering a diff *)

Module Review.

Definition REVIEWABLE_EXTENSIONS : list str := [py ".luau"; py ".lua"].
Definition TOKEN_ESTIMATE_DIVISOR : Z := 4.
Definition MAX_SINGLE_PASS_TOKENS : Z := 150000.

(** The boundary marker of [split_diff_by_file]. *)
Definition DIFF_GIT : str := py "diff --git ".
Arguments DIFF_GIT : simpl never.

(** The separator of [filter_script_changes]: one line feed. *)
Definition NL : str := [10].

(** [chunks.append("".join(current))] under [if current:]. *)
Definition flush (chunks : list str) (current : list str) : list str :=
  match current with
  | [] => chunks
  | _ :: _ => chunks ++ [List.concat current]
  end.

(** The loop of [split_diff_by_file] over the remaining lines, with its two
    accumulators, and the final flush. *)
Fixpoint split_loop (lines : list str) (chunks : list str) (current : list str)
  : list str :=
  match lines with
  | [] => flush chunks current
  | line :: rest =>
      if startswith DIFF_GIT line
      then split_loop rest (flush chunks current) [line]
      else split_loop rest chunks (current ++ [line])
  end.

Definition split_diff_by_file (raw_diff : str) : list str :=
  split_loop (splitlines_keepends raw_diff) [] [].

(** The loop of [extract_file_path]: the first header line decides. *)
Fixpoint extract_loop (lines : list str) : str :=
  match lines with
  | [] => []
  | line :: rest =>
      if startswith (py "+++ b/") line then strip (skipn 6 line)
      else if startswith (py "+++ ") line then strip (skipn 4 line)
      else extract_loop rest
  end.

Definition extract_file_path (file_diff : str) : str :=
  extract_loop (splitlines file_diff).

(** [any(path.endswith(ext) for ext in REVIEWABLE_EXTENSIONS)] *)
Definition reviewable_path (path : str) : bool :=
  existsb (fun ext => endswith ext path) REVIEWABLE_EXTENSIONS.

Definition reviewable_chunk (chunk : str) : bool :=
  reviewable_path (extract_file_path chunk).

(** The list [filtered] that [filter_script_changes] builds. *)
Definition script_chunks (raw_diff : str) : list str :=
  List.filter reviewable_chunk (split_diff_by_file raw_diff).

Definition filter_script_changes (raw_diff : str) : str :=
  join NL (script_chunks raw_diff).

(** *** Findings and the oracle's response *)

Record Issue : Type := {
  file : str;
  line_start : Z;
  line_end : Z;
  severity : str;
  title : str;
  explanation : str;
  suggestion : str
}.

(** [str(e.line_start)] for a nullable column. *)
Definition str_of_nullable (n : option Z) : str :=
  match n with
  | Some z => str_of_Z z
  | None => py "None"
  end.

Definition format_existing_issues (existing : list Db.DBIssue) : str :=
  match existing with
  | [] => []
  | _ :: _ =>
      join NL
        (py "Already-reported unresolved issues (do NOT re-report these):"
         :: List.map
              (fun e : Db.DBIssue =>
                 let r := Db.issue_row e in
                 py "- [" ++ Db.severity r ++ py "] " ++ Db.file_path r
                 ++ py ":" ++ str_of_nullable (Db.line_start r)
                 ++ py " -- " ++ Db.title r)
              existing)
  end.

(** The opening and closing marker of a code fence. *)
Definition FENCE : str := py "```".

Definition drop_one_nl (s : str) : str :=
  match s with
  | c :: s' => if c =? 10 then s' else s
  | [] => []
  end.

(** The first [c] of [s] and what follows it. *)
Fixpoint from_first (c : char) (s : str) : option str :=
  match s with
  | [] => None
  | x :: s' => if x =? c then Some s else from_first c s'
  end.

(** [re.search(r"\[.*\]", text, re.DOTALL)]: from the first opening
    bracket to the last closing bracket after it. *)
Definition bracket_span (text : str) : option str :=
  match from_first 91 text with
  | None => None
  | Some s =>
      match from_first 93 (rev (tail s)) with
      | None => None
      | Some r => Some (91 :: rev r)
      end
  end.

(** [re.sub(r"\n?```$", "", text)]: the fence at the end of the text (or
    before a final line feed, where [$] also matches), with the line feed
    before it. *)
Definition sub_fence_close (text : str) : str :=
  let r := rev text in
  if startswith (rev FENCE) r then rev (drop_one_nl (skipn 3 r))
  else if startswith (10 :: rev FENCE) r
       then rev (drop_one_nl (skipn 4 r)) ++ [10]
       else text.

Section Runtime.

(** What the Python runtime and the review service contribute. *)

(** [json.loads]: the decoded value, or [None] for [JSONDecodeError]. *)
Variable json_loads : str -> option pyobj.

(** The class [\w] of [re] on [str] patterns. *)
Variable re_word : char -> bool.

(** [int(s)] of a string: the integer, or [None] for [ValueError]. *)
Variable int_of_str : str -> option Z.

(** [str(v)] of a value that is not a string. *)
Variable py_repr : pyobj -> str.

(** [client.messages.create(...)] followed by [response.content[0].text]:
    the text the service answers to a request, given the requests made
    before it, or [None] when the call raises. *)
Variable oracle : list str -> str -> option str.

Definition py_str (v : pyobj) : str :=
  match v with
  | PyStr s => s
  | _ => py_repr v
  end.

Definition py_int (v : pyobj) : result Z :=
  match v with
  | PyInt z => Ok z
  | PyBool b => Ok (if b then 1 else 0)%Z
  | PyFloat (FFinite m e) => Ok (float_trunc m e)
  | PyFloat (FInf _) => Raise OverflowError
  | PyFloat FNaN => Raise ValueError
  | PyStr s =>
      match int_of_str s with
      | Some z => Ok z
      | None => Raise ValueError
      end
  | PyNone | PyList _ | PyDict _ => Raise TypeError
  end.

Fixpoint drop_word (s : str) : str :=
  match s with
  | c :: s' => if re_word c then drop_word s' else s
  | [] => []
  end.

(** [re.sub(r"^```\w*\n?", "", text)] *)
Definition sub_fence_open (text : str) : str :=
  if startswith FENCE text then drop_one_nl (drop_word (skipn 3 text))
  else text.

(** The call [Issue(file=..., ...)]: its arguments are evaluated in order. *)
Definition make_issue (item : list (str * pyobj)) : result Issue :=
  let f := py_str (dict_get item (py "file") (PyStr [])) in
  ls ← py_int (dict_get item (py "line_start") (PyInt 0));
  le ← py_int (dict_get item (py "line_end") (PyInt 0));
  Ok {| file := f; line_start := ls; line_end := le;
        severity := py_str (dict_get item (py "severity") (PyStr (py "Medium")));
        title := py_str (dict_get item (py "title") (PyStr []));
        explanation := py_str (dict_get item (py "explanation") (PyStr []));
        suggestion := py_str (dict_get item (py "suggestion") (PyStr [])) |}.

(** The loop over [data]: [ValueError] and [TypeError] skip the item. *)
Fixpoint collect_issues (data : list pyobj) (issues : list Issue)
  : result (list Issue) :=
  match data with
  | [] => Ok issues
  | item :: rest =>
      match item with
      | PyDict d =>
          match make_issue d with
          | Ok i => collect_issues rest (issues ++ [i])
          | Raise ValueError | Raise TypeError => collect_issues rest issues
          | Raise e => Raise e
          end
      | _ => collect_issues rest issues
      end
  end.

(** The text that is decoded: stripped, and without its code fence. *)
Definition unfenced (text : str) : str :=
  let text := strip text in
  if startswith FENCE text
  then strip (sub_fence_close (sub_fence_open text))
  else text.

(** The two decoding attempts; [None] where [parse_issues] gives up. *)
Definition decode (text : str) : option pyobj :=
  match json_loads text with
  | Some data => Some data
  | None =>
      match bracket_span text with
      | Some m => json_loads m
      | None => None
      end
  end.

Definition issues_of_data (data : pyobj) : result (list Issue) :=
  match data with
  | PyList items => collect_issues items []
  | _ => Ok []
  end.

Definition parse_issues (text : str) : result (list Issue) :=
  match decode (unfenced text) with
  | None => Ok []
  | Some data => issues_of_data data
  end.

(** *** The review driver

    Each function takes the requests made so far and returns them with its
    own appended. *)

Definition user_content (existing_context chunk : str) : str :=
  match existing_context with
  | [] => py "Review this diff:" ++ NL ++ NL ++ chunk
  | _ :: _ =>
      existing_context ++ NL ++ NL ++ py "Review this diff:" ++ NL ++ NL ++ chunk
  end.

Definition call_oracle (content : str) (log : list str)
  : option str * list str :=
  (oracle log content, log ++ [content]).

(** [review_one]: any exception of the call or of the parser gives []. *)
Definition review_one (existing_context file_diff : str) (log : list str)
  : list Issue * list str :=
  let (reply, log') := call_oracle (user_content existing_context file_diff) log in
  match reply with
  | Some text =>
      match parse_issues text with
      | Ok issues => (issues, log')
      | Raise _ => ([], log')
      end
  | None => ([], log')
  end.

(** [asyncio.gather] over [review_one]: the calls are issued in list order
    and the results gathered in list order. *)
Fixpoint gather (existing_context : str) (file_diffs : list str)
    (log : list str) : list (list Issue) * list str :=
  match file_diffs with
  | [] => ([], log)
  | fd :: rest =>
      let (r, log1) := review_one existing_context fd log in
      let (rs, log2) := gather existing_context rest log1 in
      (r :: rs, log2)
  end.

Definition _review_chunked (diff existing_context : str) (log : list str)
  : list Issue * list str :=
  let file_diffs := List.filter reviewable_chunk (split_diff_by_file diff) in
  let (results, log') := gather existing_context file_diffs log in
  (List.concat results, log').

Definition review_diff (diff : str) (existing_issues : list Db.DBIssue)
    (log : list str) : result (list Issue) * list str :=
  let script_diff := filter_script_changes diff in
  match script_diff with
  | [] => (Ok [], log)
  | _ :: _ =>
      let existing_context := format_existing_issues existing_issues in
      let token_estimate := (len script_diff / TOKEN_ESTIMATE_DIVISOR)%Z in
      if (token_estimate >? MAX_SINGLE_PASS_TOKENS)%Z then
        let (issues, log') := _review_chunked script_diff existing_context log in
        (Ok issues, log')
      else
        let (reply, log') :=
          call_oracle (user_content existing_context script_diff) log in
        match reply with
        | Some text => (parse_issues text, log')
        | None => (Raise APIError, log')
        end
  end.

End Runtime.

End Review.

(** ** discord_fmt.py: the severities the renderer knows *)

Module DiscordFmt.

(** The colour table; any other severity is rendered in the fallback
    colour. *)
Definition SEVERITY_COLORS : list (str * Z) :=
  [(py "Low", 3066993%Z); (py "Medium", 15844367%Z);
   (py "High", 15105570%Z); (py "Critical", 15158332%Z)].

Definition FALLBACK_COLOR : Z := 9807270%Z.

(** [SEVERITY_COLORS.get(issue.severity, 0x95A5A6)] *)
Definition severity_color (sev : str) : Z :=
  match List.find (fun kv => str_eqb (fst kv) sev) SEVERITY_COLORS with
  | Some kv => snd kv
  | None => FALLBACK_COLOR
  end.


End DiscordFmt.

(** ** daemon.py: one iteration of the sync loop, after the diff

    The loop's state is the store, the clock, the requests made to the
    review service and the messages posted to the channel. *)

Module Daemon.

(** What is handed to the notification sink. *)
Inductive Message : Type :=
| SummaryEmbed (content : option str) (new_issues : list Review.Issue)
| IssueEmbed (issue : Review.Issue) (issue_db_id : Z)
| ErrorEmbed (error error_type : str).

Record World : Type := {
  db : Db.Database;
  tick : nat;
  requests : list str;
  sent : list Message
}.

Definition with_db (w : World) (d : Db.Database) : World :=
  {| db := d; tick := tick w; requests := requests w; sent := sent w |}.

Definition with_requests (w : World) (r : list str) : World :=
  {| db := db w; tick := tick w; requests := r; sent := sent w |}.

Definition CRITICAL : str := py "Critical".
Definition AT_HERE : str := py "@here".

Section Environment.

Variable json_loads : str -> option pyobj.
Variable re_word : char -> bool.
Variable int_of_str : str -> option Z.
Variable py_repr : pyobj -> str.
Variable oracle : list str -> str -> option str.

(** The wall clock: the n-th reading. *)
Variable clock : nat -> str.

(** [bot.get_channel(...)] gives a text channel. *)
Variable channel_found : bool.

(** [channel.send(...)]: the id of the posted message given the messages
    posted before, or [None] when the call raises. *)
Variable send : list Message -> Message -> option str.

(** [str(exc)] *)
Variable exc_message : pyexc -> str.

(** Read the clock. *)
Definition now (w : World) : str * World :=
  (clock (tick w),
   {| db := db w; tick := S (tick w); requests := requests w; sent := sent w |}).

Definition channel_send (m : Message) (w : World) : option str * World :=
  (send (sent w) m,
   {| db := db w; tick := tick w; requests := requests w;
      sent := sent w ++ [m] |}).

(** The loop of [_auto_resolve] over the snapshot of unresolved issues. *)
Fixpoint auto_resolve_loop (unresolved : list Db.DBIssue)
    (changed_files : list str) (resolved_ids : list Z) (w : World)
  : list Z * World :=
  match unresolved with
  | [] => (resolved_ids, w)
  | issue :: rest =>
      if str_in (Db.file_path (Db.issue_row issue)) changed_files then
        let (t, w1) := now w in
        let w2 :=
          with_db w1
            (Db.resolve_issue (db w1) (Db.id issue) (py "auto")
               (py "file modified") t) in
        auto_resolve_loop rest changed_files (resolved_ids ++ [Db.id issue]) w2
      else auto_resolve_loop rest changed_files resolved_ids w
  end.

Definition _auto_resolve (game_id : Z) (changed_files : list str) (w : World)
  : list Z * World :=
  auto_resolve_loop (Db.get_unresolved_issues (db w) game_id)
    changed_files [] w.

(** The button [Mark Fixed]: [resolve_issue] with the default reason. *)
Definition mark_fixed (issue_db_id : Z) (user : str) (w : World) : World :=
  let (t, w1) := now w in
  with_db w1 (Db.resolve_issue (db w1) issue_db_id user (py "manual") t).

(** [_handle_error]: record the error and, when the throttle says so,
    schedule the error notification ([_send_error] posts it when the
    channel is there). *)
Definition _handle_error (game : Db.Game) (error error_type : str) (w : World)
  : World :=
  let (t, w1) := now w in
  let (d, should_report) :=
    Db.update_last_error (db w1) (Db.game_key game) error t in
  let w2 := with_db w1 d in
  if should_report && channel_found
  then snd (channel_send (ErrorEmbed error error_type) w2)
  else w2.

(** The loop of [_post_issues]: store the finding, post it, record the id
    of the message. *)
Fixpoint post_loop (game : Db.Game) (issues : list Review.Issue) (w : World)
  : result unit * World :=
  match issues with
  | [] => (Ok tt, w)
  | issue :: rest =>
      let (t, w1) := now w in
      match
        Db.add_issue (db w1) (Db.game_key game) None (Review.file issue)
          (Some (Review.line_start issue)) (Some (Review.line_end issue))
          (Review.severity issue) (Review.title issue)
          (Some (Review.explanation issue)) (Some (Review.suggestion issue)) t
      with
      | Raise e => (Raise e, w1)
      | Ok (d, issue_db_id) =>
          let w2 := with_db w1 d in
          let (msg, w3) := channel_send (IssueEmbed issue issue_db_id) w2 in
          match msg with
          | None => (Raise HTTPException, w3)
          | Some msg_id =>
              post_loop game rest
                (with_db w3 (Db.update_issue_message_id (db w3) issue_db_id msg_id))
          end
      end
  end.

Definition _post_issues (game : Db.Game) (issues : list Review.Issue)
    (w : World) : result unit * World :=
  if negb channel_found then (Ok tt, w)
  else
    let has_critical :=
      existsb (fun i => str_eqb (Review.severity i) CRITICAL) issues in
    let content := if has_critical then Some AT_HERE else None in
    let (msg, w1) := channel_send (SummaryEmbed content issues) w in
    match msg with
    | None => (Raise HTTPException, w1)
    | Some _ => post_loop game issues w1
    end.

(** The dedup filter and the persist step: [new_issues] is computed against
    the store as it is before anything is added. *)
Definition persist_new (game : Db.Game) (issues : list Review.Issue)
    (w : World) : result unit * World :=
  let new_issues :=
    List.filter
      (fun i =>
         negb (Db.final_dedup (db w) (Db.game_key game)
                 (Review.file i) (Review.title i)))
      issues in
  match new_issues with
  | [] => (Ok tt, w)
  | _ :: _ => _post_issues game new_issues w
  end.

(** The block under [if script_files:]. *)
Definition review_step (game : Db.Game) (diff : str)
    (changed_files : list str) (w : World) : result unit * World :=
  match List.filter Review.reviewable_path changed_files with
  | [] => (Ok tt, w)
  | _ :: _ =>
      let existing := Db.get_unresolved_issues (db w) (Db.game_key game) in
      let (r, reqs) :=
        Review.review_diff json_loads re_word int_of_str py_repr oracle
          diff existing (requests w) in
      let w1 := with_requests w reqs in
      let (issues, w2) :=
        match r with
        | Ok issues => (issues, w1)
        | Raise e =>
            ([], _handle_error game (exc_message e) (py "Claude API error") w1)
        end in
      persist_new game issues w2
  end.

(** The body of [if diff:] up to the commit: auto-resolve, then review. *)
Definition process_diff (game : Db.Game) (diff : str)
    (changed_files : list str) (w : World) : result unit * World :=
  match diff with
  | [] => (Ok tt, w)
  | _ :: _ =>
      let (_, w1) := _auto_resolve (Db.game_key game) changed_files w in
      review_step game diff changed_files w1
  end.

End Environment.

End Daemon.

(** ** security.py: the credential codec

    [bytes] values are lists of octets. SHA-256 (FIPS 180-4), the URL-safe
    Base64 alphabet (RFC 4648) with the decoder of [binascii.a2b_base64],
    UTF-8 encoding and the key check of [Fernet] are written out; the
    cipher itself is left to the section below. *)

Module Security.

Definition bytes := list N.

(** *** [str.encode()] *)

Definition utf8_char (c : char) : result bytes :=
  if c <? 128 then Ok [c]
  else if c <? 2048 then Ok [192 + c / 64; 128 + c mod 64]
  else if (55296 <=? c) && (c <=? 57343) then Raise UnicodeEncodeError
  else if c <? 65536 then
    Ok [224 + c / 4096; 128 + (c / 64) mod 64; 128 + c mod 64]
  else if c <? 1114112 then
    Ok [240 + c / 262144; 128 + (c / 4096) mod 64; 128 + (c / 64) mod 64;
        128 + c mod 64]
  else Raise UnicodeEncodeError.

Fixpoint utf8_encode (s : str) : result bytes :=
  match s with
  | [] => Ok []
  | c :: s' =>
      match utf8_char c with
      | Raise e => Raise e
      | Ok b =>
          match utf8_encode s' with
          | Raise e => Raise e
          | Ok bs => Ok (b ++ bs)
          end
      end
  end.

(** *** [hashlib.sha256] *)

Definition add32 (a b : N) : N := (a + b) mod 4294967296.

Definition rotr (n x : N) : N :=
  N.lor (N.shiftr x n) ((N.shiftl x (32 - n)) mod 4294967296).

Definition ch (x y z : N) : N :=
  N.lxor (N.land x y) (N.land (N.lxor x 4294967295) z).

Definition maj (x y z : N) : N :=
  N.lxor (N.lxor (N.land x y) (N.land x z)) (N.land y z).

Definition bsig0 (x : N) : N := N.lxor (N.lxor (rotr 2 x) (rotr 13 x)) (rotr 22 x).
Definition bsig1 (x : N) : N := N.lxor (N.lxor (rotr 6 x) (rotr 11 x)) (rotr 25 x).
Definition ssig0 (x : N) : N :=
  N.lxor (N.lxor (rotr 7 x) (rotr 18 x)) (N.shiftr x 3).
Definition ssig1 (x : N) : N :=
  N.lxor (N.lxor (rotr 17 x) (rotr 19 x)) (N.shiftr x 10).

Definition K256 : list N :=
  [
   1116352408; 1899447441; 3049323471; 3921009573; 961987163; 1508970993;
   2453635748; 2870763221; 3624381080; 310598401; 607225278; 1426881987;
   1925078388; 2162078206; 2614888103; 3248222580; 3835390401; 4022224774;
   264347078; 604807628; 770255983; 1249150122; 1555081692; 1996064986;
   2554220882; 2821834349; 2952996808; 3210313671; 3336571891; 3584528711;
   113926993; 338241895; 666307205; 773529912; 1294757372; 1396182291;
   1695183700; 1986661051; 2177026350; 2456956037; 2730485921; 2820302411;
   3259730800; 3345764771; 3516065817; 3600352804; 4094571909; 275423344;
   430227734; 506948616; 659060556; 883997877; 958139571; 1322822218;
   1537002063; 1747873779; 1955562222; 2024104815; 2227730452; 2361852424;
   2428436474; 2756734187; 3204031479; 3329325298
  ].

(** The eight working variables. *)
Record hash_state : Type := {
  ha : N; hb : N; hc : N; hd : N; he : N; hf : N; hg : N; hh : N
}.

Definition H256 : hash_state :=
  {| ha := 1779033703; hb := 3144134277; hc := 1013904242; hd := 2773480762;
     he := 1359893119; hf := 2600822924; hg := 528734635; hh := 1541459225 |}.

(** Big-endian words of a block. *)
Fixpoint be_words (b : bytes) : list N :=
  match b with
  | b0 :: b1 :: b2 :: b3 :: rest =>
      (b0 * 16777216 + b1 * 65536 + b2 * 256 + b3) :: be_words rest
  | _ => []
  end.

(** The message schedule, extended by [n] words. *)
Fixpoint extend (n : nat) (w : list N) : list N :=
  match n with
  | O => w
  | S n' =>
      let t := length w in
      let x :=
        add32 (add32 (ssig1 (nth (t - 2) w 0)) (nth (t - 7) w 0))
              (add32 (ssig0 (nth (t - 15) w 0)) (nth (t - 16) w 0)) in
      extend n' (w ++ [x])
  end.

Definition round (s : hash_state) (kw : N * N) : hash_state :=
  let t1 :=
    add32 (add32 (add32 (hh s) (bsig1 (he s))) (ch (he s) (hf s) (hg s)))
          (add32 (fst kw) (snd kw)) in
  let t2 := add32 (bsig0 (ha s)) (maj (ha s) (hb s) (hc s)) in
  {| ha := add32 t1 t2; hb := ha s; hc := hb s; hd := hc s;
     he := add32 (hd s) t1; hf := he s; hg := hf s; hh := hg s |}.

Definition compress (block : bytes) (h : hash_state) : hash_state :=
  let w := extend 48 (be_words block) in
  let s := fold_left round (combine K256 w) h in
  {| ha := add32 (ha h) (ha s); hb := add32 (hb h) (hb s);
     hc := add32 (hc h) (hc s); hd := add32 (hd h) (hd s);
     he := add32 (he h) (he s); hf := add32 (hf h) (hf s);
     hg := add32 (hg h) (hg s); hh := add32 (hh h) (hh s) |}.

Fixpoint process (fuel : nat) (b : bytes) (h : hash_state) : hash_state :=
  match fuel with
  | O => h
  | S fuel' =>
      match b with
      | [] => h
      | _ :: _ => process fuel' (skipn 64 b) (compress (firstn 64 b) h)
      end
  end.

(** The big-endian octets of a number, [n] of them. *)
Fixpoint be_bytes (n : nat) (x : N) : bytes :=
  match n with
  | O => []
  | S n' => (x / 256 ^ N.of_nat n') mod 256 :: be_bytes n' x
  end.

Definition sha256_pad (m : bytes) : bytes :=
  let l := N.of_nat (length m) in
  m ++ [128] ++ repeat 0 (N.to_nat ((55 + 64 - l mod 64) mod 64))
    ++ be_bytes 8 (8 * l).

Definition digest_of (h : hash_state) : bytes :=
  be_bytes 4 (ha h) ++ be_bytes 4 (hb h) ++ be_bytes 4 (hc h)
  ++ be_bytes 4 (hd h) ++ be_bytes 4 (he h) ++ be_bytes 4 (hf h)
  ++ be_bytes 4 (hg h) ++ be_bytes 4 (hh h).

(** [hashlib.sha256(m).digest()] *)
Definition sha256 (m : bytes) : bytes :=
  let p := sha256_pad m in
  digest_of (process (length p) p H256).

(** *** [base64.urlsafe_b64encode] and [base64.urlsafe_b64decode] *)

Definition PAD : N := 61.

(** The character of a 6-bit value. *)
Definition b64_char (v : N) : N :=
  if v <? 26 then 65 + v
  else if v <? 52 then 97 + (v - 26)
  else if v <? 62 then 48 + (v - 52)
  else if v =? 62 then 45
  else 95.

(** The 6-bit value of a character: the URL-safe alphabet, and [+] and [/],
    which the decoder's translation leaves in place. *)
Definition b64_value (c : N) : option N :=
  if (65 <=? c) && (c <=? 90) then Some (c - 65)
  else if (97 <=? c) && (c <=? 122) then Some (c - 97 + 26)
  else if (48 <=? c) && (c <=? 57) then Some (c - 48 + 52)
  else if (c =? 45) || (c =? 43) then Some 62
  else if (c =? 95) || (c =? 47) then Some 63
  else None.

Fixpoint urlsafe_b64encode (data : bytes) : bytes :=
  match data with
  | [] => []
  | [a] => [b64_char (a / 4); b64_char (a mod 4 * 16); PAD; PAD]
  | [a; b] =>
      [b64_char (a / 4); b64_char (a mod 4 * 16 + b / 16);
       b64_char (b mod 16 * 4); PAD]
  | a :: b :: c :: rest =>
      b64_char (a / 4) :: b64_char (a mod 4 * 16 + b / 16)
      :: b64_char (b mod 16 * 4 + c / 64) :: b64_char (c mod 64)
      :: urlsafe_b64encode rest
  end.

(** The loop of [binascii.a2b_base64] (not strict): characters outside the
    alphabet are skipped, padding ends the data once a quad is complete,
    and data that stops inside a quad is an error ([None]). *)
Fixpoint a2b_base64 (data : bytes) (quad_pos leftchar pads : N)
  : option bytes :=
  match data with
  | [] => if quad_pos =? 0 then Some [] else None
  | this_ch :: rest =>
      if this_ch =? PAD then
        if 2 <=? quad_pos then
          if 4 <=? quad_pos + (pads + 1) then Some []
          else a2b_base64 rest quad_pos leftchar (pads + 1)
        else a2b_base64 rest quad_pos leftchar pads
      else
        match b64_value this_ch with
        | None => a2b_base64 rest quad_pos leftchar pads
        | Some v =>
            if quad_pos =? 0 then a2b_base64 rest 1 v 0
            else if quad_pos =? 1 then
              cons (leftchar * 4 + v / 16) <$> a2b_base64 rest 2 (v mod 16) 0
            else if quad_pos =? 2 then
              cons (leftchar * 16 + v / 4) <$> a2b_base64 rest 3 (v mod 4) 0
            else cons (leftchar * 64 + v) <$> a2b_base64 rest 0 0 0
        end
  end.

Definition urlsafe_b64decode (data : bytes) : option bytes :=
  a2b_base64 data 0 0 0.

(** *** [Fernet] *)

Record Fernet : Type := { signing_key : bytes; encryption_key : bytes }.

(** [Fernet(key)]: the key must decode to 32 octets. *)
Definition Fernet_new (key : bytes) : result Fernet :=
  match urlsafe_b64decode key with
  | None => Raise ValueError
  | Some k =>
      if (length k =? 32)%nat
      then Ok {| signing_key := firstn 16 k; encryption_key := skipn 16 k |}
      else Raise ValueError
  end.

(** [Fernet.generate_key()] from the 32 octets of [os.urandom]. *)
Definition generate_key (entropy : bytes) : bytes := urlsafe_b64encode entropy.

(** The secrets [init_encryption] takes for a ready-made key. *)
Definition looks_like_key (key : str) : bool :=
  (len key =? 44)%Z && endswith (py "=") key.

(** [init_encryption]: the object bound to [_fernet], or the exception that
    leaves [_fernet] as it was. *)
Definition init_encryption (key : str) (entropy : bytes) : result Fernet :=
  match key with
  | [] => Fernet_new (generate_key entropy)
  | _ :: _ =>
      if looks_like_key key then
        k ← utf8_encode key; Fernet_new k
      else
        k ← utf8_encode key;
        let derived := sha256 k in
        Fernet_new (urlsafe_b64encode derived)
  end.

Section Cipher.

(** [Fernet.encrypt] with the octets it draws (IV and time stamp), and
    [Fernet.decrypt], [None] for [InvalidToken]. *)
Variable fernet_encrypt : Fernet -> bytes -> bytes -> bytes.
Variable fernet_decrypt : Fernet -> bytes -> option bytes.

(** [bytes.decode()], [None] for [UnicodeDecodeError]. *)
Variable utf8_decode : bytes -> option str.

Definition encrypt_api_key (_fernet : option Fernet) (random : bytes)
    (plaintext : str) : result bytes :=
  match _fernet with
  | None => Raise RuntimeError
  | Some f => p ← utf8_encode plaintext; Ok (fernet_encrypt f random p)
  end.

Definition decrypt_api_key (_fernet : option Fernet) (ciphertext : bytes)
  : result str :=
  match _fernet with
  | None => Raise RuntimeError
  | Some f =>
      match fernet_decrypt f ciphertext with
      | None => Raise InvalidToken
      | Some p =>
          match utf8_decode p with
          | None => Raise UnicodeDecodeError
          | Some s => Ok s
          end
      end
  end.

End Cipher.

End Security.

(** ** db.py: the whitelist, the admins and the rows of [games]

    The rest of the schema, around the tables above. The connection runs
    with [PRAGMA foreign_keys=ON], so the [REFERENCES ... ON DELETE CASCADE]
    clauses are in force: a game needs its server in [allowed_servers], an
    issue its game, and deleting a parent row deletes its children. *)

Module Store.
Import Db.

Record ServerRow : Type := {
  server_name : option str;
  approved_by : str;
  approved_at : str
}.

(** The four tables: [allowed_servers] and [admins] are keyed by their
    [TEXT PRIMARY KEY]. *)
Record Tables : Type := {
  core : Database;
  allowed_servers : gmap str ServerRow;
  (** [discord_user_id] to [added_at] *)
  admins : gmap str str;
  (** [sqlite_sequence]: the largest key [games] ever held. *)
  games_seq : Z
}.

Definition with_core (t : Tables) (d : Database) : Tables :=
  {| core := d; allowed_servers := allowed_servers t; admins := admins t;
     games_seq := games_seq t |}.

Definition with_servers (t : Tables) (d : Database) (s : gmap str ServerRow)
  : Tables :=
  {| core := d; allowed_servers := s; admins := admins t;
     games_seq := games_seq t |}.

Definition GLOBAL_ADMIN_IDS : list str :=
  [py "176643682689089545"; py "1010301288946339920"].

(** A database file that does not exist yet: the schema creates empty
    tables. *)
Definition empty : Tables :=
  {| core := {| games := ∅; issues := ∅; issues_seq := 0 |};
     allowed_servers := ∅; admins := ∅; games_seq := 0 |}.

(** [INSERT OR IGNORE INTO admins]: a user already there keeps its row. *)
Definition seed_admin (now : str) (a : gmap str str) (uid : str)
  : gmap str str :=
  match a !! uid with
  | Some _ => a
  | None => <[uid := now]> a
  end.

Definition _seed_admins (t : Tables) (now : str) : Tables :=
  {| core := core t; allowed_servers := allowed_servers t;
     admins := foldl (seed_admin now) (admins t) GLOBAL_ADMIN_IDS;
     games_seq := games_seq t |}.

(** [Database(db_path)] on the tables the file holds. *)
Definition connect (file : Tables) (now : str) : Tables := _seed_admins file now.

Definition is_admin (t : Tables) (user_id : str) : bool :=
  bool_decide (is_Some (admins t !! user_id)).

Definition is_server_allowed (t : Tables) (server_id : str) : bool :=
  bool_decide (is_Some (allowed_servers t !! server_id)).

(** [DELETE FROM games WHERE ...]: the issues of a deleted game are deleted
    with it. *)
Definition delete_games (dead : Z * GameRow -> bool) (db : Database)
  : Database :=
  let gone := filter (fun kv => Is_true (dead kv)) (games db) in
  {| games := filter (fun kv => Is_true (negb (dead kv))) (games db);
     issues := filter (fun kv => gone !! game_id kv.2 = None) (issues db);
     issues_seq := issues_seq db |}.

Definition of_server (server_id : str) (kv : Z * GameRow) : bool :=
  str_eqb (discord_server_id kv.2) server_id.

(** [WHERE discord_server_id = ? AND place_id = ?] *)
Definition game_at (server_id : str) (place : Z) (kv : Z * GameRow) : bool :=
  str_eqb (discord_server_id kv.2) server_id && (place_id kv.2 =? place)%Z.

(** [approve_server]: [INSERT OR REPLACE] deletes the row that holds the
    key before it inserts, and that delete cascades to the server's games. *)
Definition approve_server (t : Tables) (server_id : str)
    (name : option str) (by_ now : str) : Tables :=
  let row := {| server_name := name; approved_by := by_; approved_at := now |} in
  match allowed_servers t !! server_id with
  | Some _ =>
      with_servers t (delete_games (of_server server_id) (core t))
        (<[server_id := row]> (allowed_servers t))
  | None => with_servers t (core t) (<[server_id := row]> (allowed_servers t))
  end.

Definition revoke_server (t : Tables) (server_id : str) : Tables :=
  match allowed_servers t !! server_id with
  | Some _ =>
      with_servers t (delete_games (of_server server_id) (core t))
        (delete server_id (allowed_servers t))
  | None => t
  end.

(** [add_game]: the foreign key and [UNIQUE(discord_server_id, place_id)]
    are checked; the other columns take their defaults. *)
Definition add_game (t : Tables) (server_id : str) (place : Z)
    (channel : str) (api_key : list N) (by_ dir now : str)
  : result (Tables * Z) :=
  match allowed_servers t !! server_id with
  | None => Raise IntegrityError
  | Some _ =>
      if existsb (game_at server_id place) (map_to_list (games (core t)))
      then Raise IntegrityError
      else
        let key := (games_seq t + 1)%Z in
        let row :=
          {| discord_server_id := server_id; place_id := place;
             channel_id := channel; api_key_encrypted := api_key;
             added_by := by_; working_dir := dir; last_sync_at := None;
             last_error := None; last_error_at := None;
             error_count := Some 0%Z; game_created_at := now |} in
        Ok ({| core := with_games (core t) (<[key := row]> (games (core t)));
               allowed_servers := allowed_servers t; admins := admins t;
               games_seq := key |}, key)
  end.

(** [remove_game]: whether a row was deleted ([cur.rowcount > 0]). *)
Definition remove_game (t : Tables) (server_id : str) (place : Z)
  : Tables * bool :=
  (with_core t (delete_games (game_at server_id place) (core t)),
   existsb (game_at server_id place) (map_to_list (games (core t)))).

Definition to_game (kv : Z * GameRow) : Game :=
  {| game_key := kv.1; game_row := kv.2 |}.

Definition get_game (t : Tables) (server_id : str) (place : Z) : option Game :=
  to_game <$> List.find (game_at server_id place) (map_to_list (games (core t))).

Definition get_games_for_server (t : Tables) (server_id : str) : list Game :=
  List.map to_game
    (List.filter (of_server server_id) (map_to_list (games (core t)))).

Definition get_all_games (t : Tables) : list Game :=
  List.map to_game (map_to_list (games (core t))).

Definition count_games_for_server (t : Tables) (server_id : str) : Z :=
  Z.of_nat
    (length (List.filter (of_server server_id) (map_to_list (games (core t))))).

(** [WHERE discord_message_id = ?]: a [NULL] column matches nothing. *)
Definition has_message (message_id : str) (kv : Z * IssueRow) : bool :=
  match discord_message_id kv.2 with
  | Some m => str_eqb m message_id
  | None => false
  end.

Definition get_issue_by_message_id (db : Database) (message_id : str)
  : option DBIssue :=
  (fun kv => {| id := kv.1; issue_row := kv.2 |})
    <$> List.find (has_message message_id) (map_to_list (issues db)).

(** The methods that write, as one type of calls. *)
Inductive Call : Type :=
| SeedAdmins (now : str)
| ApproveServer (server_id : str) (name : option str) (by_ now : str)
| RevokeServer (server_id : str)
| AddGame (server_id : str) (place : Z) (channel : str) (api_key : list N)
    (by_ dir now : str)
| RemoveGame (server_id : str) (place : Z)
| UpdateLastSync (game : Z) (now : str)
| UpdateLastError (game : Z) (error now : str)
| AddIssue (game : Z) (message_id : option str) (file : str)
    (l_start l_end : option Z) (sev ttl : str) (expl sugg : option str)
    (now : str)
| ResolveIssue (issue_id : Z) (by_ reason now : str)
| UpdateIssueMessageId (issue_id : Z) (message_id : str).

(** The tables after a call; a call that raises leaves them as they were. *)
Definition run (c : Call) (t : Tables) : Tables :=
  match c with
  | SeedAdmins now => _seed_admins t now
  | ApproveServer s n b now => approve_server t s n b now
  | RevokeServer s => revoke_server t s
  | AddGame s p ch k b d now =>
      match add_game t s p ch k b d now with
      | Ok (t', _) => t'
      | Raise _ => t
      end
  | RemoveGame s p => (remove_game t s p).1
  | UpdateLastSync g now => with_core t (update_last_sync (core t) g now)
  | UpdateLastError g e now => with_core t (update_last_error (core t) g e now).1
  | AddIssue g m f ls le sev ttl ex su now =>
      match add_issue (core t) g m f ls le sev ttl ex su now with
      | Ok (d, _) => with_core t d
      | Raise _ => t
      end
  | ResolveIssue i b r now => with_core t (resolve_issue (core t) i b r now)
  | UpdateIssueMessageId i m => with_core t (update_issue_message_id (core t) i m)
  end.

End Store.

(** ** discord_fmt.py: what is rendered

    An embed is its title, description, colour, fields and footer; lengths
    are [len] of the Python strings. *)

Module Render.

Record Embed : Type := {
  embed_title : str;
  embed_description : str;
  embed_color : Z;
  (** name, value, inline *)
  embed_fields : list (str * str * bool);
  embed_footer : option str
}.

(** [s[:n]] for a string. *)
Definition upto (n : nat) (s : str) : str := firstn n s.

Definition ELLIPSIS : str := py "...".

Definition issue_title (issue : Review.Issue) : str :=
  let title :=
    py "[" ++ Review.severity issue ++ py "] " ++ Review.title issue in
  if (len title >? 256)%Z then upto 253 title ++ ELLIPSIS else title.

(** The list [description_parts] of [make_issue_embed]. *)
Definition issue_description_parts (issue : Review.Issue) : list str :=
  let parts := [py "**File:** `" ++ Review.file issue ++ py "`"] in
  let parts :=
    if (Review.line_start issue =? 0)%Z then parts
    else if negb (Review.line_end issue =? 0)%Z
            && negb (Review.line_end issue =? Review.line_start issue)%Z
    then parts ++ [py "**Lines:** " ++ str_of_Z (Review.line_start issue)
                   ++ py "-" ++ str_of_Z (Review.line_end issue)]
    else parts ++ [py "**Line:** " ++ str_of_Z (Review.line_start issue)] in
  let parts := parts ++ [[]] in
  let parts := parts ++ [Review.explanation issue] in
  match Review.suggestion issue with
  | [] => parts
  | _ :: _ =>
      let parts := parts ++ [[]] in
      let suggestion_text := Review.suggestion issue in
      let suggestion_text :=
        if (len suggestion_text >? 800)%Z
        then upto 797 suggestion_text ++ ELLIPSIS else suggestion_text in
      parts ++ [py "**Suggested fix:**" ++ Review.NL ++ py "```lua"
                ++ Review.NL ++ suggestion_text ++ Review.NL ++ py "```"]
  end.

Definition make_issue_embed (issue : Review.Issue) : Embed :=
  let color := DiscordFmt.severity_color (Review.severity issue) in
  let title := issue_title issue in
  let description := join Review.NL (issue_description_parts issue) in
  let description :=
    if (len description >? 4096)%Z
    then upto 4093 description ++ ELLIPSIS else description in
  {| embed_title := title; embed_description := description;
     embed_color := color; embed_fields := []; embed_footer := None |}.

(** A [dict] from severities to counts: its items in insertion order.
    [d[k] = v] keeps the place of a key that is there and appends a new
    one. *)
Fixpoint dict_set (d : list (str * Z)) (k : str) (v : Z) : list (str * Z) :=
  match d with
  | [] => [(k, v)]
  | (k', v') :: d' =>
      if str_eqb k' k then (k', v) :: d' else (k', v') :: dict_set d' k v
  end.

(** [d.get(k, default)] *)
Definition dict_get_int (d : list (str * Z)) (k : str) (default : Z) : Z :=
  match List.find (fun kv => str_eqb (fst kv) k) d with
  | Some kv => snd kv
  | None => default
  end.

(** The loop of [make_summary_embed] over [new_issues]. *)
Definition severity_counts (new_issues : list Review.Issue) : list (str * Z) :=
  fold_left
    (fun counts issue =>
       dict_set counts (Review.severity issue)
         (dict_get_int counts (Review.severity issue) 0 + 1)%Z)
    new_issues
    [(py "Critical", 0%Z); (py "High", 0%Z); (py "Medium", 0%Z);
     (py "Low", 0%Z)].

(** ['s' if n != 1 else ''] *)
Definition plural (n : Z) : str := if (n =? 1)%Z then [] else py "s".

Definition make_summary_embed (place_id : Z) (new_issues : list Review.Issue)
    (auto_resolved_count : Z) (changed_files : list str)
    (lines_added lines_removed : Z) : Embed :=
  let counts_str :=
    join (py "  |  ")
      (List.map (fun sc => str_of_Z (snd sc) ++ py " " ++ fst sc)
         (severity_counts new_issues)) in
  let n := Z.of_nat (length new_issues) in
  let first := py "**" ++ str_of_Z n ++ py " new issue" ++ plural n
               ++ py " found**" in
  let first :=
    if (auto_resolved_count =? 0)%Z then first
    else first ++ py " | " ++ str_of_Z auto_resolved_count
         ++ py " auto-resolved" in
  let m := Z.of_nat (length changed_files) in
  let description_parts :=
    [first; Review.NL ++ counts_str;
     Review.NL ++ py "Reviewed " ++ str_of_Z m ++ py " changed script"
     ++ plural m ++ py " (" ++ str_of_Z lines_added ++ py " lines added, "
     ++ str_of_Z lines_removed ++ py " removed)"] in
  {| embed_title := py "Sync Review -- PlaceId " ++ str_of_Z place_id;
     embed_description := join Review.NL description_parts;
     embed_color := 3447003%Z; embed_fields := []; embed_footer := None |}.

(** [last_sync or "Never"]: [None] and the empty string give the default. *)
Definition or_never (last_sync : option str) : str :=
  match last_sync with
  | Some (c :: s) => c :: s
  | Some [] | None => py "Never"
  end.

Definition make_error_embed (place_id : Z) (error error_type : str)
    (last_sync : option str) : Embed :=
  let description := error in
  let description :=
    if (len description >? 1500)%Z
    then upto 1497 description ++ ELLIPSIS else description in
  {| embed_title := py "Sync Error -- PlaceId " ++ str_of_Z place_id;
     embed_description := py "```" ++ Review.NL ++ description ++ Review.NL
                          ++ py "```";
     embed_color := 15158332%Z;
     embed_fields := [(py "Error Type", error_type, true);
                      (py "Last Successful Sync", or_never last_sync, true)];
     embed_footer := Some (py "Will retry next cycle") |}.

(** [str(x)] of a nullable text column inside an f-string. *)
Definition str_of_text (x : option str) : str :=
  match x with
  | Some s => s
  | None => py "None"
  end.

(** The button [Copy Context]: the reply, given [_bot_ref.db] and the id of
    the message the button sits on. *)
Definition copy_context (db : option Db.Database) (message_id : option str)
  : str :=
  match db with
  | None => py "Database not available."
  | Some d =>
      match
        match message_id with
        | Some m => Store.get_issue_by_message_id d m
        | None => None
        end
      with
      | None => py "Issue not found."
      | Some issue =>
          let r := Db.issue_row issue in
          let context :=
            py "File: " ++ Db.file_path r ++ Review.NL
            ++ py "Lines: " ++ Review.str_of_nullable (Db.line_start r)
            ++ py "-" ++ Review.str_of_nullable (Db.line_end r) ++ Review.NL
            ++ py "Severity: " ++ Db.severity r ++ Review.NL
            ++ py "Title: " ++ Db.title r ++ Review.NL ++ Review.NL
            ++ py "Explanation: " ++ str_of_text (Db.explanation r)
            ++ Review.NL ++ Review.NL
            ++ py "Suggestion: " ++ str_of_text (Db.suggestion r) in
          let context :=
            if (len context >? 1900)%Z
            then upto 1897 context ++ ELLIPSIS else context in
          py "```" ++ Review.NL ++ context ++ Review.NL ++ py "```"
      end
  end.

(** The loop of [count_diff_lines]. *)
Fixpoint count_loop (lines : list str) (added removed : Z) : Z * Z :=
  match lines with
  | [] => (added, removed)
  | line :: rest =>
      if startswith (py "+") line && negb (startswith (py "+++") line)
      then count_loop rest (added + 1)%Z removed
      else if startswith (py "-") line && negb (startswith (py "---") line)
      then count_loop rest added (removed + 1)%Z
      else count_loop rest added removed
  end.

Definition count_diff_lines (diff : str) : Z * Z :=
  count_loop (splitlines diff) 0%Z 0%Z.

End Render.

(** ** atlas_cli.py: the commands

    A process is run by the operating system: [exec] tells how it ends,
    given the commands run before. Paths are strings. *)

Module AtlasCli.

(** A command line and the directory it runs in. *)
Record Command : Type := { argv : list str; cwd : option str }.

(** How a process ends: with an exit code and its decoded output, or with
    an exception of [create_subprocess_exec] or [wait_for] (a binary that is
    not there, the timeout) whose [str()] is [message]. *)
Inductive Exit : Type :=
| Exited (returncode : Z) (stdout stderr : str)
| Broke (message : str).

(** How [_run] ends when it raises: with its own [RuntimeError], or with
    the exception of the process. *)
Inductive RunError : Type :=
| CommandFailed (message : str)
| OtherError (message : str).

(** [str(exc)] *)
Definition error_message (e : RunError) : str :=
  match e with
  | CommandFailed m => m
  | OtherError m => m
  end.

Inductive outcome (A : Type) : Type :=
| Done (a : A)
| Fail (e : RunError).
Arguments Done {A} a.
Arguments Fail {A} e.

Section Processes.

Variable exec : list Command -> Command -> Exit.

(** [_run]: the output, and the commands run so far with this one added. *)
Definition _run (cmd : list str) (dir : option str) (ran : list Command)
  : outcome (str * str) * list Command :=
  let c := {| argv := cmd; cwd := dir |} in
  (match exec ran c with
   | Broke m => Fail (OtherError m)
   | Exited returncode stdout stderr =>
       if (returncode =? 0)%Z then Done (stdout, stderr)
       else
         Fail (CommandFailed
                 (py "Command failed (exit " ++ str_of_Z returncode ++ py "): "
                  ++ join (py " ") cmd ++ Review.NL ++ stderr))
   end,
   ran ++ [c]).

Definition atlas_clone (atlas_binary : str) (place_id : Z) (path : str)
    (opencloud_key : str) (ran : list Command)
  : outcome unit * list Command :=
  let (r, ran') :=
    _run [atlas_binary; py "--opencloud"; opencloud_key; py "clone";
          str_of_Z place_id; py "--path"; path; py "--skip-git";
          py "--skip-rules"] None ran in
  (match r with Done _ => Done tt | Fail e => Fail e end, ran').

Definition atlas_syncback (atlas_binary working_dir : str) (place_id : Z)
    (opencloud_key : str) (ran : list Command)
  : outcome str * list Command :=
  let (r, ran') :=
    _run [atlas_binary; py "--opencloud"; opencloud_key; py "syncback";
          py "--download"; str_of_Z place_id; py "--working-dir"; working_dir;
          py "--incremental"; py "--list"] None ran in
  (match r with
   | Done (stdout, _) => Done stdout
   | Fail e => Fail e
   end, ran').

Definition git_init (dir : str) (ran : list Command)
  : outcome unit * list Command :=
  let (r, ran') := _run [py "git"; py "init"] (Some dir) ran in
  (match r with Done _ => Done tt | Fail e => Fail e end, ran').

Definition git_add_all (dir : str) (ran : list Command)
  : outcome unit * list Command :=
  let (r, ran') := _run [py "git"; py "add"; py "."] (Some dir) ran in
  (match r with Done _ => Done tt | Fail e => Fail e end, ran').

Definition git_commit (dir message : str) (ran : list Command)
  : outcome unit * list Command :=
  let (r, ran') :=
    _run [py "git"; py "commit"; py "-m"; message; py "--allow-empty"]
      (Some dir) ran in
  (match r with Done _ => Done tt | Fail e => Fail e end, ran').

(** [git_diff]: a command that fails counts as an empty diff. *)
Definition git_diff (dir : str) (ran : list Command)
  : outcome str * list Command :=
  let (r, ran') := _run [py "git"; py "diff"; py "HEAD"] (Some dir) ran in
  (match r with
   | Done (stdout, _) => Done stdout
   | Fail (CommandFailed _) => Done []
   | Fail (OtherError m) => Fail (OtherError m)
   end, ran').

(** The names in the output of [git diff --name-only]. *)
Definition names_of (stdout : str) : list str :=
  List.map strip
    (List.filter (fun line => negb (str_eqb (strip line) []))
       (splitlines stdout)).

Definition git_diff_name_only (dir : str) (ran : list Command)
  : outcome (list str) * list Command :=
  let (r, ran') :=
    _run [py "git"; py "diff"; py "HEAD"; py "--name-only"] (Some dir) ran in
  (match r with
   | Done (stdout, _) => Done (names_of stdout)
   | Fail (CommandFailed _) => Done []
   | Fail (OtherError m) => Fail (OtherError m)
   end, ran').

End Processes.

End AtlasCli.

(** ** daemon.py: one turn of the loop of a game

    A loop is started with a [Game] object and keeps it: the row as it was
    when the loop was started. One turn of [while True] is the [try] block
    and, when an exception leaves it, the handler; cancellation, which may
    strike at any [await], is left to the table of loops below. *)

Module SyncLoop.
Import Db Daemon AtlasCli.

(** [needle in hay] for strings. *)
Fixpoint contains (needle hay : str) : bool :=
  startswith needle hay
  || match hay with
     | [] => false
     | _ :: rest => contains needle rest
     end.

Record Loop : Type := {
  world : World;
  ran : list Command;
  (** the issues whose posted embed [_update_resolved_embed] goes to mark *)
  embed_updates : list Z
}.

Definition with_ran (st : Loop) (r : list Command) : Loop :=
  {| world := world st; ran := r; embed_updates := embed_updates st |}.

(** What can leave the [try] block. *)
Inductive Failure : Type :=
| Exc (e : pyexc)
| Cmd (e : RunError).

(** How a turn ends: at [asyncio.sleep], or with an exception that leaves
    the coroutine and ends the task. *)
Inductive Turn : Type :=
| Sleeps (st : Loop)
| Ends (st : Loop).

Section Iteration.

Variable json_loads : str -> option pyobj.
Variable re_word : char -> bool.
Variable int_of_str : str -> option Z.
Variable py_repr : pyobj -> str.
Variable oracle : list str -> str -> option str.
Variable clock : nat -> str.
Variable channel_found : bool.
Variable send : list Message -> Message -> option str.
Variable exc_message : pyexc -> str.

Variable fernet_decrypt : Security.Fernet -> Security.bytes -> option Security.bytes.
Variable utf8_decode : Security.bytes -> option str.

(** The module variable [_fernet] of security.py. *)
Variable _fernet : option Security.Fernet.

Variable exec : list Command -> Command -> Exit.

(** [config.atlas_binary] *)
Variable atlas_binary : str.

(** [str(Path(s))] *)
Variable path_str : str -> str.

(** The n-th reading of the clock as [strftime('%Y-%m-%d %H:%M:%S UTC')]
    prints it. *)
Variable stamp : nat -> str.

(** [str.lower] *)
Variable lower : str -> str.

Definition failure_message (f : Failure) : str :=
  match f with
  | Exc e => exc_message e
  | Cmd e => error_message e
  end.

(** The early returns of [_update_resolved_embed]: no row, or no message
    id. *)
Definition has_embed (d : Database) (issue_id : Z) : bool :=
  match issues d !! issue_id with
  | Some row =>
      match discord_message_id row with
      | Some (_ :: _) => true
      | Some [] | None => false
      end
  | None => false
  end.

(** The [try] block: the exception that leaves it, if any. *)
Definition try_block (game : Game) (st : Loop) : option Failure * Loop :=
  match
    Security.decrypt_api_key fernet_decrypt utf8_decode _fernet
      (api_key_encrypted game)
  with
  | Raise e => (Some (Exc e), st)
  | Ok api_key =>
      let dir := path_str (working_dir game) in
      let (r1, ran1) :=
        atlas_syncback exec atlas_binary dir (place_id game) api_key (ran st) in
      match r1 with
      | Fail e => (Some (Cmd e), with_ran st ran1)
      | Done _ =>
          let (r2, ran2) := git_diff exec dir ran1 in
          match r2 with
          | Fail e => (Some (Cmd e), with_ran st ran2)
          | Done [] => (None, with_ran st ran2)
          | Done (c :: diff') =>
              let diff := c :: diff' in
              let (r3, ran3) := git_diff_name_only exec dir ran2 in
              match r3 with
              | Fail e => (Some (Cmd e), with_ran st ran3)
              | Done changed_files =>
                  let (ids, w1) :=
                    _auto_resolve clock (game_key game) changed_files
                      (world st) in
                  let updates := List.filter (has_embed (db w1)) ids in
                  let (r4, w2) :=
                    review_step json_loads re_word int_of_str py_repr oracle
                      clock channel_found send exc_message game diff
                      changed_files w1 in
                  let st4 :=
                    {| world := w2; ran := ran3;
                       embed_updates := embed_updates st ++ updates |} in
                  match r4 with
                  | Raise e => (Some (Exc e), st4)
                  | Ok _ =>
                      let (r5, ran5) := git_add_all exec dir ran3 in
                      match r5 with
                      | Fail e => (Some (Cmd e), with_ran st4 ran5)
                      | Done _ =>
                          let message := py "Sync " ++ stamp (tick w2) in
                          let w3 := snd (now clock w2) in
                          let (r6, ran6) := git_commit exec dir message ran5 in
                          match r6 with
                          | Fail e =>
                              (Some (Cmd e),
                               {| world := w3; ran := ran6;
                                  embed_updates := embed_updates st4 |})
                          | Done _ =>
                              let (t, w4) := now clock w3 in
                              (None,
                               {| world :=
                                    with_db w4
                                      (update_last_sync (db w4) (game_key game) t);
                                  ran := ran6;
                                  embed_updates := embed_updates st4 |})
                          end
                      end
                  end
              end
          end
      end
  end.

(** The label the handler gives an error text. *)
Definition error_type (error_str : str) : str :=
  if contains (py "HTTP 403") error_str || contains (py "HTTP 401") error_str
  then py "Download failure (auth)"
  else if contains (py "Failed to download") error_str
  then py "Download failure"
  else if contains (py "atlas syncback failed") error_str
  then py "Syncback crash"
  else if contains (py "git") (lower error_str) then py "Git error"
  else py "Syncback error".

(** The handler [except Exception as exc]: the throttle decides whether the
    error is posted; an exception of the post leaves the coroutine. *)
Definition handler (game : Game) (f : Failure) (st : Loop) : Turn :=
  let error_str := failure_message f in
  let (t, w1) := now clock (world st) in
  let (d, should_report) :=
    update_last_error (db w1) (game_key game) error_str t in
  let w2 := with_db w1 d in
  let st2 := {| world := w2; ran := ran st; embed_updates := embed_updates st |} in
  if should_report && channel_found then
    let (msg, w3) :=
      channel_send send (ErrorEmbed error_str (error_type error_str)) w2 in
    let st3 :=
      {| world := w3; ran := ran st; embed_updates := embed_updates st |} in
    match msg with
    | Some _ => Sleeps st3
    | None => Ends st3
    end
  else Sleeps st2.

(** One turn of the loop that is not cancelled. *)
Definition turn (game : Game) (st : Loop) : Turn :=
  match try_block game st with
  | (None, st') => Sleeps st'
  | (Some f, st') => handler game f st'
  end.

End Iteration.

End SyncLoop.

(** ** daemon.py: the table of loops

    [_sync_tasks] maps the id of a game to the task of its loop. A task is
    known by its place in the list of all tasks created; it runs until it is
    done, and [cancel()] asks it to stop. *)

Module Tasks.
Import Db.

Inductive TaskState : Type :=
| Running
| Cancelling
| Finished.

Record Task : Type := { task_game : Game; task_state : TaskState }.

Record Registry : Type := {
  tasks : list Task;
  _sync_tasks : gmap Z nat
}.

Definition no_tasks : Registry := {| tasks := []; _sync_tasks := ∅ |}.

(** [task.done()] *)
Definition done (r : Registry) (h : nat) : bool :=
  match tasks r !! h with
  | Some {| task_state := Finished |} => true
  | _ => false
  end.

Definition start_sync_loop (game : Game) (r : Registry) : Registry :=
  let create :=
    {| tasks := tasks r ++ [{| task_game := game; task_state := Running |}];
       _sync_tasks := <[game_key game := length (tasks r)]> (_sync_tasks r) |} in
  match _sync_tasks r !! game_key game with
  | Some h => if negb (done r h) then r else create
  | None => create
  end.

(** [task.cancel()] on a task that is not done. *)
Definition cancel (t : Task) : Task :=
  {| task_game := task_game t;
     task_state :=
       match task_state t with
       | Running | Cancelling => Cancelling
       | Finished => Finished
       end |}.

Definition stop_sync_loop (game_id : Z) (r : Registry) : Registry :=
  match _sync_tasks r !! game_id with
  | None => r
  | Some h =>
      {| tasks := if negb (done r h) then alter cancel h (tasks r) else tasks r;
         _sync_tasks := delete game_id (_sync_tasks r) |}
  end.

Definition stop_all_for_server (t : Store.Tables) (server_id : str)
    (r : Registry) : Registry :=
  foldl (fun r game => stop_sync_loop (game_key game) r) r
    (Store.get_games_for_server t server_id).

(** The coroutine of a task returns or raises: the task is done. *)
Definition finish (h : nat) (r : Registry) : Registry :=
  {| tasks :=
       alter (fun t => {| task_game := task_game t; task_state := Finished |})
         h (tasks r);
     _sync_tasks := _sync_tasks r |}.

(** What happens to the table: the three functions are called, and tasks
    end. *)
Inductive Event : Type :=
| Start (game : Game)
| Stop (game_id : Z)
| StopAll (t : Store.Tables) (server_id : str)
| TaskDone (h : nat).

Definition apply (r : Registry) (e : Event) : Registry :=
  match e with
  | Start game => start_sync_loop game r
  | Stop game_id => stop_sync_loop game_id r
  | StopAll t server_id => stop_all_for_server t server_id r
  | TaskDone h => finish h r
  end.

End Tasks.

(** ** bot.py: the slash commands

    A command handler runs until it awaits the network or a subprocess;
    there other handlers and the loops of the games take their turns. A
    handler is therefore a sequence of steps: the first is taken when the
    command arrives, and a handler that waits (for [defer], for
    [init_game]) is kept in [pending] until the answer resumes it. The
    checks that only reply, [status] and [list-games] change no state and
    are left out. *)

Module Bot.
Import Db Store Tasks.

Record Channel : Type := { channel_key : Z; is_text : bool }.

(** What a handler reads off its [discord.Interaction]. *)
Record Interaction : Type := {
  (** [str(interaction.user.id)] *)
  user : str;
  guild_id : option Z;
  (** [interaction.guild.name], when [interaction.guild] is there *)
  guild_name : option str;
  channel : option Channel
}.

(** [str(interaction.guild_id)] *)
Definition guild_str (i : Interaction) : str :=
  match guild_id i with
  | Some g => str_of_Z g
  | None => py "None"
  end.

(** [not interaction.guild_id] *)
Definition no_guild (i : Interaction) : bool :=
  match guild_id i with
  | Some g => (g =? 0)%Z
  | None => true
  end.

(** A handler that waits. *)
Inductive Pending : Type :=
| AddGameDeferred (i : Interaction) (place : Z) (chan : option Channel)
| AddGameInit (i : Interaction) (place : Z) (target : Channel)
    (api_key_encrypted : list N)
| ResetDeferred (i : Interaction) (place : Z) (game : Game)
| ResetInit (i : Interaction) (place : Z) (game : Game).

(** What a handler is resumed with: the value of the call it awaited, or
    the text of the exception the call raised. *)
Inductive Answer : Type :=
| Returned (value : str)
| Raised (message : str).

Record State : Type := {
  tables : Tables;
  loops : Registry;
  pending : list (option Pending);
  replies : list str
}.

Definition reply (text : str) (s : State) : State :=
  {| tables := tables s; loops := loops s; pending := pending s;
     replies := replies s ++ [text] |}.

Definition wait (p : Pending) (s : State) : State :=
  {| tables := tables s; loops := loops s; pending := pending s ++ [Some p];
     replies := replies s |}.

Definition with_tables (s : State) (t : Tables) : State :=
  {| tables := t; loops := loops s; pending := pending s;
     replies := replies s |}.

Definition with_loops (s : State) (r : Registry) : State :=
  {| tables := tables s; loops := r; pending := pending s;
     replies := replies s |}.

(** The statements the handlers run on the connection themselves. *)
Definition set_key (key : list N) (g : GameRow) : GameRow :=
  {| discord_server_id := discord_server_id g; place_id := place_id g;
     channel_id := channel_id g; api_key_encrypted := key;
     added_by := added_by g; working_dir := working_dir g;
     last_sync_at := last_sync_at g; last_error := last_error g;
     last_error_at := last_error_at g; error_count := error_count g;
     game_created_at := game_created_at g |}.

(** [UPDATE games SET last_sync_at = NULL, last_error = NULL,
    error_count = 0]: [last_error_at] stays. *)
Definition set_reset (g : GameRow) : GameRow :=
  {| discord_server_id := discord_server_id g; place_id := place_id g;
     channel_id := channel_id g; api_key_encrypted := api_key_encrypted g;
     added_by := added_by g; working_dir := working_dir g;
     last_sync_at := None; last_error := None;
     last_error_at := last_error_at g; error_count := Some 0%Z;
     game_created_at := game_created_at g |}.

(** [DELETE FROM issues WHERE game_id = ?] *)
Definition delete_issues_of (game : Z) (d : Database) : Database :=
  with_issues d (filter (fun kv => game_id kv.2 <> game) (issues d)).

Section Commands.

(** [self.config] *)
Variable max_games_per_server : Z.
Variable sync_interval : Z.

(** The cipher behind [security.encrypt_api_key] and
    [security.decrypt_api_key], and the module variable [_fernet]. *)
Variable fernet_encrypt : Security.Fernet -> Security.bytes -> Security.bytes -> Security.bytes.
Variable fernet_decrypt : Security.Fernet -> Security.bytes -> option Security.bytes.
Variable utf8_decode : Security.bytes -> option str.
Variable _fernet : option Security.Fernet.

(** [str(exc)] *)
Variable exc_message : pyexc -> str.

(** [_check_server_async]: the reply that ends the command, if any. *)
Definition check_server_async (i : Interaction) (s : State) : option str :=
  if no_guild i
  then Some (py "This command can only be used in a server.")
  else if negb (is_server_allowed (tables s) (guild_str i))
  then Some (py "This server is not authorized. Ask a bot admin to run `/approve-server`.")
  else None.

Definition approve_server (i : Interaction) (server_id : option str)
    (now : str) (s : State) : State :=
  if negb (is_admin (tables s) (user i))
  then reply (py "Only bot admins can approve servers.") s
  else
    let given :=
      match server_id with
      | Some (c :: rest) => Some (c :: rest)
      | Some [] | None => None
      end in
    let target_id :=
      match given with
      | Some sid => sid
      | None => guild_str i
      end in
    let server_name :=
      match given with
      | Some _ => None
      | None => guild_name i
      end in
    reply (py "Server `" ++ target_id ++ py "` approved.")
      (with_tables s
         (Store.approve_server (tables s) target_id server_name (user i) now)).

Definition revoke_server (i : Interaction) (server_id : str) (s : State)
  : State :=
  if negb (is_admin (tables s) (user i))
  then reply (py "Only bot admins can revoke servers.") s
  else
    let r := stop_all_for_server (tables s) server_id (loops s) in
    reply (py "Server `" ++ server_id ++ py "` revoked.")
      (with_loops (with_tables s (Store.revoke_server (tables s) server_id)) r).

(** The loop of [set_api_key] over the games of the server. *)
Definition update_keys (encrypted : list N) (who : str) (games_ : list Game)
    (d : Database) : Database :=
  foldl
    (fun (d : Database) (game : Game) =>
       if str_eqb (added_by game) who
       then with_games d (alter (set_key encrypted) (game_key game) (games d))
       else d)
    d games_.

(** [set_api_key]: a server that fails [_check_server] gets no reply; an
    exception of the cipher leaves the handler. *)
Definition set_api_key (i : Interaction) (key : str) (random : Security.bytes)
    (s : State) : State :=
  if no_guild i || negb (is_server_allowed (tables s) (guild_str i)) then s
  else
    match Security.encrypt_api_key fernet_encrypt _fernet random key with
    | Raise _ => s
    | Ok encrypted =>
        let d :=
          update_keys encrypted (user i)
            (get_games_for_server (tables s) (guild_str i))
            (core (tables s)) in
        reply (py "API key updated for all your games in this server.")
          (with_tables s (with_core (tables s) d))
    end.

(** [add_game], up to [defer]. *)
Definition add_game (i : Interaction) (place : Z) (chan : option Channel)
    (s : State) : State :=
  match check_server_async i s with
  | Some text => reply text s
  | None =>
      let server_id := guild_str i in
      if (count_games_for_server (tables s) server_id >=? max_games_per_server)%Z
      then reply (py "This server has reached the maximum of "
                  ++ str_of_Z max_games_per_server ++ py " monitored games.") s
      else
        match get_game (tables s) server_id place with
        | Some _ =>
            reply (py "PlaceId " ++ str_of_Z place
                   ++ py " is already being monitored in this server.") s
        | None => wait (AddGameDeferred i place chan) s
        end
  end.

(** [add_game] after [defer], up to [init_game]. *)
Definition add_game_deferred (i : Interaction) (place : Z)
    (chan : option Channel) (s : State) : State :=
  let target_channel :=
    match chan with
    | Some c => Some c
    | None => channel i
    end in
  match target_channel with
  | Some {| channel_key := ck; is_text := true |} =>
      let games_ := get_games_for_server (tables s) (guild_str i) in
      let user_games :=
        List.filter (fun g : Game => str_eqb (added_by g) (user i)) games_ in
      match user_games with
      | [] =>
          reply (py "No API key found. Please run `/set-api-key` first, then try again.") s
      | g :: _ =>
          let api_key_encrypted := Db.api_key_encrypted g in
          match
            Security.decrypt_api_key fernet_decrypt utf8_decode _fernet
              api_key_encrypted
          with
          | Raise e =>
              reply (py "Failed to initialize game: ```"
                     ++ firstn 1500 (exc_message e) ++ py "```") s
          | Ok _ =>
              wait (AddGameInit i place {| channel_key := ck; is_text := true |}
                      api_key_encrypted) s
          end
      end
  | _ => reply (py "Please specify a text channel.") s
  end.

(** [add_game] after [init_game]. An [IntegrityError] of [db.add_game]
    leaves the handler. *)
Definition add_game_init (i : Interaction) (place : Z) (target : Channel)
    (api_key_encrypted : list N) (a : Answer) (now : str) (s : State)
  : State :=
  match a with
  | Raised message =>
      reply (py "Failed to initialize game: ```" ++ firstn 1500 message
             ++ py "```") s
  | Returned game_dir =>
      match
        Store.add_game (tables s) (guild_str i) place
          (str_of_Z (channel_key target)) api_key_encrypted (user i)
          game_dir now
      with
      | Raise _ => s
      | Ok (t, _) =>
          let s1 := with_tables s t in
          let s2 :=
            match get_game t (guild_str i) place with
            | Some game => with_loops s1 (start_sync_loop game (loops s1))
            | None => s1
            end in
          reply (py "Now monitoring PlaceId " ++ str_of_Z place ++ py " in <#"
                 ++ str_of_Z (channel_key target) ++ py ">. Syncing every "
                 ++ str_of_Z sync_interval ++ py "s.") s2
      end
  end.

(** The checks [remove_game] and [reset_game] share: the game, or the
    reply that ends the command. *)
Definition owned_game (i : Interaction) (place : Z) (verb : str) (s : State)
  : str + Game :=
  match check_server_async i s with
  | Some text => inl text
  | None =>
      match get_game (tables s) (guild_str i) place with
      | None => inl (py "PlaceId " ++ str_of_Z place
                     ++ py " is not being monitored.")
      | Some game =>
          if negb (str_eqb (added_by game) (user i))
             && negb (is_admin (tables s) (user i))
          then inl (py "You can only " ++ verb ++ py " games you added.")
          else inr game
      end
  end.

Definition remove_game (i : Interaction) (place : Z) (s : State) : State :=
  match owned_game i place (py "remove") s with
  | inl text => reply text s
  | inr game =>
      let r := stop_sync_loop (game_key game) (loops s) in
      let t := (Store.remove_game (tables s) (guild_str i) place).1 in
      reply (py "Stopped monitoring PlaceId " ++ str_of_Z place ++ py ".")
        (with_loops (with_tables s t) r)
  end.

(** [reset_game], up to [defer]. *)
Definition reset_game (i : Interaction) (place : Z) (s : State) : State :=
  match owned_game i place (py "reset") s with
  | inl text => reply text s
  | inr game => wait (ResetDeferred i place game) s
  end.

(** [reset_game] after [defer], up to [init_game]: the loop is stopped
    before anything can fail. *)
Definition reset_game_deferred (i : Interaction) (place : Z) (game : Game)
    (s : State) : State :=
  let s1 := with_loops s (stop_sync_loop (game_key game) (loops s)) in
  match
    Security.decrypt_api_key fernet_decrypt utf8_decode _fernet
      (Db.api_key_encrypted game)
  with
  | Raise e =>
      reply (py "Failed to re-initialize: ```" ++ firstn 1500 (exc_message e)
             ++ py "```") s1
  | Ok _ => wait (ResetInit i place game) s1
  end.

(** [reset_game] after [init_game]. *)
Definition reset_game_init (i : Interaction) (place : Z) (game : Game)
    (a : Answer) (s : State) : State :=
  match a with
  | Raised message =>
      reply (py "Failed to re-initialize: ```" ++ firstn 1500 message
             ++ py "```") s
  | Returned _ =>
      let d := delete_issues_of (game_key game) (core (tables s)) in
      let d := with_games d (alter set_reset (game_key game) (games d)) in
      let t := with_core (tables s) d in
      let s1 := with_tables s t in
      let s2 :=
        match get_game t (guild_str i) place with
        | Some game' => with_loops s1 (start_sync_loop game' (loops s1))
        | None => s1
        end in
      reply (py "PlaceId " ++ str_of_Z place
             ++ py " has been reset and re-synced.") s2
  end.

(** [on_ready]: a loop for every game of a whitelisted server. *)
Definition on_ready (s : State) : State :=
  with_loops s
    (foldl
       (fun (r : Registry) (game : Game) =>
          if is_server_allowed (tables s) (discord_server_id game)
          then start_sync_loop game r else r)
       (loops s) (get_all_games (tables s))).

(** What the loops of the games and the buttons write. *)
Inductive LoopCall : Type :=
| LoopSynced (game : Z) (now : str)
| LoopError (game : Z) (error now : str)
| LoopAddIssue (game : Z) (file : str) (l_start l_end : Z) (sev ttl : str)
    (expl sugg : str) (now : str)
| LoopResolve (issue_id : Z) (by_ reason now : str)
| LoopMessageId (issue_id : Z) (message_id : str).

Definition loop_call (c : LoopCall) : Store.Call :=
  match c with
  | LoopSynced g now => UpdateLastSync g now
  | LoopError g e now => UpdateLastError g e now
  | LoopAddIssue g f ls le sev ttl ex su now =>
      AddIssue g None f (Some ls) (Some le) sev ttl (Some ex) (Some su) now
  | LoopResolve k b r now => ResolveIssue k b r now
  | LoopMessageId k m => UpdateIssueMessageId k m
  end.

(** Everything that can happen to the bot. *)
Inductive Event : Type :=
| CmdApproveServer (i : Interaction) (server_id : option str) (now : str)
| CmdRevokeServer (i : Interaction) (server_id : str)
| CmdSetApiKey (i : Interaction) (key : str) (random : Security.bytes)
| CmdAddGame (i : Interaction) (place : Z) (chan : option Channel)
| CmdRemoveGame (i : Interaction) (place : Z)
| CmdResetGame (i : Interaction) (place : Z)
| Resume (n : nat) (a : Answer) (now : str)
| Ready
| LoopWrites (c : LoopCall)
| TaskEnds (h : nat).

(** The n-th waiting handler goes on with the answer it waited for; an
    exception of [defer] ends it. *)
Definition resume (n : nat) (a : Answer) (now : str) (s : State) : State :=
  match pending s !! n with
  | Some (Some p) =>
      let s0 :=
        {| tables := tables s; loops := loops s;
           pending := <[n := None]> (pending s); replies := replies s |} in
      match p, a with
      | AddGameDeferred i place chan, Returned _ =>
          add_game_deferred i place chan s0
      | AddGameDeferred _ _ _, Raised _ => s0
      | AddGameInit i place target key, _ =>
          add_game_init i place target key a now s0
      | ResetDeferred i place game, Returned _ =>
          reset_game_deferred i place game s0
      | ResetDeferred _ _ _, Raised _ => s0
      | ResetInit i place game, _ => reset_game_init i place game a s0
      end
  | _ => s
  end.

Definition step (s : State) (e : Event) : State :=
  match e with
  | CmdApproveServer i sid now => approve_server i sid now s
  | CmdRevokeServer i sid => revoke_server i sid s
  | CmdSetApiKey i key random => set_api_key i key random s
  | CmdAddGame i place chan => add_game i place chan s
  | CmdRemoveGame i place => remove_game i place s
  | CmdResetGame i place => reset_game i place s
  | Resume n a now => resume n a now s
  | Ready => on_ready s
  | LoopWrites c => with_tables s (Store.run (loop_call c) (tables s))
  | TaskEnds h => with_loops s (finish h (loops s))
  end.

(** The bot on a database file that did not exist. *)
Definition fresh (now : str) : State :=
  {| tables := connect empty now; loops := no_tasks; pending := [];
     replies := [] |}.

End Commands.

End Bot.

(** * Properties *)

(** ** Facts about strings *)

Module PyStrFacts.

(** Induction following [split_raw]: the step may use the property of the
    tail and of the tail's tail. *)
Lemma str_ind2 (P : str -> Prop) :
  P [] ->
  (forall c rest,
      P rest -> (forall d rest', rest = d :: rest' -> P rest') -> P (c :: rest)) ->
  forall s, P s.
Proof.
  intros Hnil Hstep s.
  enough (H : P s /\ (forall d s', s = d :: s' -> P s')) by apply H.
  induction s as [|c rest [IH1 IH2]].
  - split; [exact Hnil | discriminate].
  - split.
    + apply Hstep; assumption.
    + intros d s' [= -> ->]. exact IH1.
Qed.

Lemma splitlines_keepends_concat (s : str) :
  List.concat (splitlines_keepends s) = s.
Proof.
  unfold splitlines_keepends.
  induction s as [|c rest IH IH2] using str_ind2; [reflexivity|].
  cbn [split_raw].
  destruct (is_linebreak c).
  - destruct (c =? 13).
    + destruct rest as [|d rest']; [reflexivity|].
      destruct (d =? 10); cbn.
      * f_equal. f_equal. exact (IH2 d rest' eq_refl).
      * f_equal. exact IH.
    + cbn. f_equal. exact IH.
  - destruct (split_raw rest) as [|[body term] ls] eqn:E.
    + cbn in IH. subst rest. reflexivity.
    + cbn in *. f_equal. exact IH.
Qed.

Lemma str_eqb_eq (a b : str) : str_eqb a b = true <-> a = b.
Proof.
  revert b; induction a as [|x a IH]; intros [|y b]; cbn; try easy.
  rewrite andb_true_iff, N.eqb_eq, IH. split; [by intros [-> ->] | by intros [= -> ->]].
Qed.

Lemma startswith_app (p a b : str) :
  startswith p a = true -> startswith p (a ++ b) = true.
Proof.
  revert a; induction p as [|x p IH]; intros [|y a]; cbn; try easy.
  intros [-> H]%andb_prop. cbn. auto.
Qed.

Lemma startswith_snoc (p a : str) (c : char) :
  ~ In c p -> startswith p (a ++ [c]) = true -> startswith p a = true.
Proof.
  revert a; induction p as [|x p IH]; intros a Hc; [reflexivity|].
  destruct a as [|y a]; cbn.
  - intros [Hx _]%andb_prop. apply N.eqb_eq in Hx. subst. destruct Hc. by left.
  - intros [-> H]%andb_prop. cbn. apply IH; [|exact H].
    intros Hin. apply Hc. by right.
Qed.

Lemma split_raw_nil (s : str) : split_raw s = [] -> s = [].
Proof.
  destruct s as [|c rest]; [reflexivity|]. cbn.
  destruct (is_linebreak c).
  - destruct (c =? 13); [|discriminate].
    destruct rest as [|d rest']; [discriminate|]. destruct (d =? 10); discriminate.
  - destruct (split_raw rest) as [|[??]?]; discriminate.
Qed.

(** Text after a line feed is split on its own. *)
Lemma split_raw_after_lf (a z : str) :
  split_raw (a ++ 10 :: z) = split_raw (a ++ [10]) ++ split_raw z.
Proof.
  induction a as [|c rest IH IH2] using str_ind2; [reflexivity|].
  cbn [app split_raw].
  destruct (is_linebreak c).
  - destruct (c =? 13).
    + destruct rest as [|d rest']; [reflexivity|]. cbn [app].
      destruct (d =? 10).
      * by rewrite (IH2 d rest' eq_refl).
      * cbn [app] in IH. by rewrite IH.
    + by rewrite IH.
  - rewrite IH.
    destruct (split_raw (rest ++ [10])) as [|[body term] ls] eqn:E.
    + apply split_raw_nil in E. by destruct rest.
    + reflexivity.
Qed.

Lemma splitlines_keepends_after_lf (a z : str) :
  splitlines_keepends (a ++ 10 :: z)
  = splitlines_keepends (a ++ [10]) ++ splitlines_keepends z.
Proof.
  unfold splitlines_keepends. by rewrite split_raw_after_lf, List.map_app.
Qed.

(** The lines of [s] followed by one line feed: the feed ends an open last
    line, completes a final carriage return, or is a line of its own. *)
Fixpoint add_lf (lines : list (str * str)) : list (str * str) :=
  match lines with
  | [] => [([], [10])]
  | (b, t) :: ls =>
      match ls with
      | _ :: _ => (b, t) :: add_lf ls
      | [] =>
          match t with
          | [] => [(b, [10])]
          | [c] => if c =? 13 then [(b, [13; 10])] else [(b, t); ([], [10])]
          | _ => [(b, t); ([], [10])]
          end
      end
  end.

Lemma add_lf_not_nil (lines : list (str * str)) : add_lf lines <> [].
Proof.
  induction lines as [|[b t] ls IH]; [discriminate|]. cbn [add_lf].
  destruct ls; [|discriminate].
  destruct t as [|t0 [|t1 t]]; try discriminate. by destruct (t0 =? 13).
Qed.

Lemma split_raw_snoc_lf (s : str) :
  split_raw (s ++ [10]) = add_lf (split_raw s).
Proof.
  induction s as [|c rest IH IH2] using str_ind2; [reflexivity|].
  cbn [app split_raw].
  destruct (is_linebreak c) eqn:Hc.
  - destruct (c =? 13) eqn:Hcr.
    + apply N.eqb_eq in Hcr. subst c.
      destruct rest as [|d rest']; [reflexivity|]. cbn [app].
      destruct (d =? 10) eqn:Hd.
      * rewrite (IH2 d rest' eq_refl). cbn [add_lf].
        destruct (split_raw rest'); reflexivity.
      * cbn [app] in IH. rewrite IH. cbn [add_lf].
        destruct (split_raw (d :: rest')) eqn:E; [|reflexivity].
        by apply split_raw_nil in E.
    + rewrite IH. cbn [add_lf].
      destruct (split_raw rest) eqn:E; [|reflexivity].
      cbn [add_lf]. by rewrite Hcr.
  - rewrite IH.
    destruct (split_raw rest) as [|[body term] ls] eqn:E; [reflexivity|].
    cbn [add_lf]. destruct ls as [|l ls].
    + destruct term as [|t0 [|t1 term]]; try reflexivity.
      by destruct (t0 =? 13).
    + destruct (add_lf (l :: ls)) eqn:E2; [|reflexivity].
      by apply add_lf_not_nil in E2.
Qed.

(** *** Well-formed line lists

    What [split_raw] produces: line texts hold no line boundary, only the
    last line may lack a terminator, no line is empty, and a lone carriage
    return is never followed by a bare line feed (the two would have been
    one terminator). Any run of consecutive lines of such a list is again
    what [split_raw] makes of its text. *)

Definition glue (l : str * str) : str := fst l ++ snd l.

Definition plain (body : str) : Prop :=
  Forall (fun c => is_linebreak c = false) body.

Definition terminator (t : str) : Prop :=
  t = [13; 10] \/ exists c, t = [c] /\ is_linebreak c = true.

Fixpoint raw_wf (lines : list (str * str)) : Prop :=
  match lines with
  | [] => True
  | (b, t) :: ls =>
      plain b
      /\ ((t = [] /\ b <> [] /\ ls = [])
          \/ (terminator t /\ (t = [13] -> head ls <> Some ([], [10]))))
      /\ raw_wf ls
  end.

Lemma text_of_lines (s : str) : List.concat (List.map glue (split_raw s)) = s.
Proof. apply splitlines_keepends_concat. Qed.

Lemma split_raw_plain (b : str) : plain b -> b <> [] -> split_raw b = [(b, [])].
Proof.
  induction b as [|c b IH]; [done|]. intros Hp _.
  inversion Hp as [|? ? Hc Hb]; subst. cbn [split_raw]. rewrite Hc.
  destruct b as [|c' b]; [reflexivity|]. by rewrite IH.
Qed.

(** A complete line in front of [z] is split off as it stands. *)
Lemma split_raw_line (b t z : str) :
  plain b -> terminator t -> (t = [13] -> forall z', z <> 10 :: z') ->
  split_raw (b ++ t ++ z) = (b, t) :: split_raw z.
Proof.
  intros Hp Ht Hz. induction Hp as [|c b Hc Hb IH]; cbn [app].
  - destruct Ht as [->|(c & -> & Hc)]; [reflexivity|]. cbn [app split_raw].
    rewrite Hc. destruct (c =? 13) eqn:Hcr; [|reflexivity].
    apply N.eqb_eq in Hcr. subst c. destruct z as [|d z']; [reflexivity|].
    destruct (d =? 10) eqn:Hd; [|reflexivity].
    apply N.eqb_eq in Hd. subst d. by destruct (Hz eq_refl z').
  - cbn [split_raw]. by rewrite Hc, IH.
Qed.

Lemma raw_wf_first_char (ls : list (str * str)) (z' : str) :
  raw_wf ls -> head ls <> Some ([], [10]) ->
  List.concat (List.map glue ls) <> 10 :: z'.
Proof.
  destruct ls as [|[b t] ls]; [done|]. cbn [raw_wf head List.map List.concat glue fst snd].
  intros (Hp & Ht & _) Hne.
  destruct b as [|c b].
  - destruct Ht as [(_ & ? & _)|[[->|(c & -> & _)] _]]; [done|done|].
    cbn. intros [= ->]. by apply Hne.
  - inversion Hp; subst. cbn. intros [= ->]. done.
Qed.

(** Splitting the text of a well-formed line list gives the list back. *)
Lemma split_raw_resplit (lines : list (str * str)) :
  raw_wf lines -> split_raw (List.concat (List.map glue lines)) = lines.
Proof.
  induction lines as [|[b t] ls IH]; [reflexivity|].
  cbn [raw_wf List.map List.concat glue fst snd].
  intros (Hp & [(-> & Hb & ->)|[Ht Hcr]] & Hwf).
  - unfold glue. cbn. rewrite !app_nil_r. by apply split_raw_plain.
  - unfold glue at 1. cbn [fst snd].
    rewrite <- List.app_assoc, split_raw_line, IH; try done.
    intros E z'. by apply raw_wf_first_char; [|apply Hcr].
Qed.

Lemma split_raw_wf (s : str) : raw_wf (split_raw s).
Proof.
  induction s as [|c rest IH IH2] using str_ind2; [exact I|].
  cbn [split_raw]. destruct (is_linebreak c) eqn:Hc.
  - destruct (c =? 13) eqn:Hcr.
    + apply N.eqb_eq in Hcr. subst c. destruct rest as [|d rest'].
      * cbn. repeat split; [constructor|]. right. split; [|done].
        right. by exists 13.
      * destruct (d =? 10) eqn:Hd.
        -- apply N.eqb_eq in Hd. subst d.
           cbn [raw_wf]. repeat split; [constructor| |by eapply IH2].
           right. split; [by left | done].
        -- apply N.eqb_neq in Hd.
           cbn [raw_wf]. repeat split; [constructor| |exact IH].
           right. split; [right; by exists 13|]. intros _.
           cbn [split_raw]. destruct (is_linebreak d) eqn:Hdl.
           ++ destruct (d =? 13) eqn:Hd13.
              ** destruct rest' as [|e rest'']; [cbn; congruence|].
                 destruct (e =? 10); cbn; congruence.
              ** cbn. congruence.
           ++ destruct (split_raw rest') as [|[??]?]; cbn; congruence.
    + cbn [raw_wf]. repeat split; [constructor| |exact IH].
      right. split; [right; by exists c|]. intros [= ->]. done.
  - destruct (split_raw rest) as [|[body term] ls] eqn:E.
    + cbn. repeat split; [by repeat constructor|]. left. done.
    + cbn [raw_wf] in *. destruct IH as (Hp & Ht & Hwf).
      repeat split; [by constructor| |exact Hwf].
      destruct Ht as [(-> & _ & ->)|Ht]; [left | right]; done.
Qed.

Lemma raw_wf_app_r (l1 l2 : list (str * str)) : raw_wf (l1 ++ l2) -> raw_wf l2.
Proof.
  induction l1 as [|[b t] l1 IH]; [done|]. cbn [app raw_wf]. intros (_ & _ & H).
  by apply IH.
Qed.

Lemma raw_wf_app_l (l1 l2 : list (str * str)) : raw_wf (l1 ++ l2) -> raw_wf l1.
Proof.
  induction l1 as [|[b t] l1 IH]; [done|]. cbn [app raw_wf].
  intros (Hp & Ht & H). repeat split; [done| |by apply IH].
  destruct Ht as [(-> & Hb & E)|[Ht Hcr]].
  - apply app_eq_nil in E as [-> _]. by left.
  - right. split; [done|]. intros E. specialize (Hcr E).
    destruct l1; [done|exact Hcr].
Qed.

Lemma raw_wf_glue_not_nil (lines : list (str * str)) :
  raw_wf lines -> lines <> [] -> List.concat (List.map glue lines) <> [].
Proof.
  destruct lines as [|[b t] ls]; [done|].
  cbn [raw_wf List.map List.concat glue fst snd]. intros (_ & Ht & _) _ E.
  apply app_eq_nil in E as [E _]. unfold glue in E. cbn [fst snd] in E.
  apply app_eq_nil in E as [-> ->].
  destruct Ht as [(_ & ? & _)|[[?|(c & ? & _)] _]]; done.
Qed.

(** The first line of a text that begins with a break-free prefix begins
    with that prefix. *)
Lemma startswith_first_line (p y : str) :
  plain p -> p <> [] -> startswith p y = true ->
  exists b t ls, split_raw y = (b, t) :: ls /\ startswith p b = true.
Proof.
  intros Hp. revert y. induction Hp as [|c p Hc Hp IH]; [done|].
  intros [|d y] _; [done|]. cbn [startswith].
  intros [Hcd H]%andb_prop. apply N.eqb_eq in Hcd. subst d.
  cbn [split_raw]. rewrite Hc.
  destruct p as [|c' p].
  - destruct (split_raw y) as [|[b t] ls]; eexists _, _, _; split; try done;
      cbn; by rewrite N.eqb_refl.
  - destruct (IH y) as (b & t & ls & -> & Hb); [done|done|].
    eexists _, _, _; split; [done|].
    change ((c =? c) && startswith (c' :: p) b = true).
    by rewrite N.eqb_refl, Hb.
Qed.

End PyStrFacts.

(** ** Facts about the diff splitter *)

Module SplitFacts.
Import Review PyStrFacts.

Definition starts_file (chunk : str) : Prop := startswith DIFF_GIT chunk = true.

Lemma flush_app (chunks current : list str) :
  flush chunks current = chunks ++ flush [] current.
Proof. destruct current; cbn; [by rewrite app_nil_r | reflexivity]. Qed.

Lemma concat_flush (current : list str) :
  List.concat (flush [] current) = List.concat current.
Proof. destruct current; cbn; [reflexivity | by rewrite app_nil_r]. Qed.

(** The chunks emitted so far are never touched again. *)
Lemma split_loop_chunks (lines chunks current : list str) :
  split_loop lines chunks current = chunks ++ split_loop lines [] current.
Proof.
  revert chunks current.
  induction lines as [|line rest IH]; intros chunks current; cbn [split_loop].
  - apply flush_app.
  - destruct (startswith DIFF_GIT line).
    + rewrite IH, (IH (flush [] current)), flush_app, <- List.app_assoc.
      reflexivity.
    + apply IH.
Qed.

Lemma split_loop_concat (lines current : list str) :
  List.concat (split_loop lines [] current)
  = List.concat current ++ List.concat lines.
Proof.
  revert current.
  induction lines as [|line rest IH]; intros current; cbn [split_loop].
  - by rewrite concat_flush, app_nil_r.
  - destruct (startswith DIFF_GIT line).
    + rewrite split_loop_chunks, concat_app, concat_flush, IH.
      cbn [List.concat]. by rewrite app_nil_r.
    + rewrite IH, concat_app. cbn [List.concat].
      by rewrite app_nil_r, <- List.app_assoc.
Qed.

(** Once the current chunk opens with a boundary line, every chunk still to
    be emitted opens with one. *)
Lemma split_loop_started (lines : list str) (l0 : str) (current : list str) :
  starts_file l0 ->
  Forall starts_file (split_loop lines [] (l0 :: current)).
Proof.
  revert l0 current.
  induction lines as [|line rest IH]; intros l0 current H0; cbn [split_loop].
  - constructor; [|constructor]. apply startswith_app, H0.
  - destruct (startswith DIFF_GIT line) eqn:E.
    + rewrite split_loop_chunks. constructor.
      * apply startswith_app, H0.
      * apply IH, E.
    + apply (IH l0 (current ++ [line])), H0.
Qed.

Lemma split_loop_tail (lines current : list str) :
  Forall starts_file (tail (split_loop lines [] current)).
Proof.
  revert current.
  induction lines as [|line rest IH]; intros current; cbn [split_loop].
  - destruct current; cbn [flush tail app]; constructor.
  - destruct (startswith DIFF_GIT line) eqn:E.
    + rewrite split_loop_chunks.
      pose proof (split_loop_started rest line [] E) as H.
      destruct current; cbn [flush tail app]; [|exact H].
      destruct H; cbn [tail]; [constructor | assumption].
    + apply IH.
Qed.

(** C10. The per-file splitter loses nothing and cuts only at file
    boundaries: the segments of [split_diff_by_file d], concatenated in
    order with no separator, are [d] itself, and every segment but possibly
    the first begins with a [diff --git ] line. *)
Theorem split_diff_by_file_partition (d : str) :
  List.concat (split_diff_by_file d) = d
  /\ Forall (fun chunk => startswith DIFF_GIT chunk = true)
       (tail (split_diff_by_file d)).
Proof.
  unfold split_diff_by_file. split.
  - rewrite split_loop_concat. apply splitlines_keepends_concat.
  - apply split_loop_tail.
Qed.

End SplitFacts.

(** ** Facts about the reviewable-file filter *)

Module FilterFacts.
Import Review PyStrFacts SplitFacts.

Definition not_boundary (l : str * str) : Prop :=
  startswith DIFF_GIT (glue l) = false.

(** A segment: a non-empty text none of whose lines after the first is a
    boundary line. The splitter leaves it in one piece. *)
Definition segment (k : str) : Prop :=
  k <> [] /\ Forall not_boundary (tail (split_raw k)).

Lemma DIFF_GIT_plain : plain DIFF_GIT.
Proof. vm_compute. repeat constructor. Qed.

Lemma DIFF_GIT_no_lf : ~ In 10 DIFF_GIT.
Proof. vm_compute. intuition discriminate. Qed.

Lemma group_segment (cur : list (str * str)) :
  raw_wf cur -> cur <> [] -> Forall not_boundary (tail cur) ->
  segment (List.concat (List.map glue cur)).
Proof.
  intros Hwf Hne Ht. split.
  - by apply raw_wf_glue_not_nil.
  - by rewrite split_raw_resplit.
Qed.

Lemma flush_segment (cur : list (str * str)) :
  raw_wf cur -> Forall not_boundary (tail cur) ->
  Forall segment (flush [] (List.map glue cur)).
Proof.
  intros Hwf Ht. destruct cur as [|l cur]; [constructor|].
  change (flush [] (List.map glue (l :: cur)))
    with [List.concat (List.map glue (l :: cur))].
  constructor; [|constructor]. by apply group_segment.
Qed.

(** Every chunk the splitter emits is a segment. *)
Lemma split_loop_segments (lines cur : list (str * str)) :
  raw_wf (cur ++ lines) -> Forall not_boundary (tail cur) ->
  Forall segment (split_loop (List.map glue lines) [] (List.map glue cur)).
Proof.
  revert cur. induction lines as [|l lines IH]; intros cur Hwf Ht.
  - cbn [List.map split_loop]. rewrite app_nil_r in Hwf. by apply flush_segment.
  - cbn [List.map split_loop]. destruct (startswith DIFF_GIT (glue l)) eqn:E.
    + rewrite split_loop_chunks. apply Forall_app. split.
      * apply flush_segment; [|done]. by apply raw_wf_app_l in Hwf.
      * apply (IH [l]); [|constructor]. by apply raw_wf_app_r in Hwf.
    + change [glue l] with (List.map glue [l]).
      rewrite <- List.map_app. apply IH.
      * by rewrite <- List.app_assoc.
      * destruct cur as [|c cur]; [constructor|]. cbn [app tail] in *.
        apply Forall_app. split; [done|]. by constructor.
Qed.

Lemma split_diff_by_file_segments (d : str) :
  Forall segment (split_diff_by_file d).
Proof.
  unfold split_diff_by_file, splitlines_keepends.
  apply (split_loop_segments (split_raw d) []); [|constructor].
  apply split_raw_wf.
Qed.

(** *** A segment followed by the separator *)

Lemma not_boundary_snoc_lf (x : str) :
  startswith DIFF_GIT x = false -> startswith DIFF_GIT (x ++ [10]) = false.
Proof.
  intros H. destruct (startswith DIFF_GIT (x ++ [10])) eqn:E; [|done].
  apply startswith_snoc in E; [congruence | apply DIFF_GIT_no_lf].
Qed.

Lemma add_lf_not_boundary (lines : list (str * str)) :
  Forall not_boundary lines -> Forall not_boundary (add_lf lines).
Proof.
  induction lines as [|[b t] ls IH]; intros H.
  - by repeat constructor.
  - inversion H as [|? ? Hl Hls]; subst. cbn [add_lf].
    destruct ls as [|l ls]; [|constructor; [done | by apply IH]].
    assert (Hlf : not_boundary ([], [10])) by done.
    unfold not_boundary, glue in Hl. cbn [fst snd] in Hl.
    destruct t as [|t0 [|t1 t]]; try (by repeat constructor).
    + constructor; [|constructor]. unfold not_boundary, glue. cbn [fst snd].
      rewrite app_nil_r in Hl. by apply not_boundary_snoc_lf.
    + destruct (t0 =? 13) eqn:E; [|by repeat constructor].
      apply N.eqb_eq in E. subst t0.
      constructor; [|constructor]. unfold not_boundary, glue. cbn [fst snd].
      change [13; 10] with ([13] ++ [10]). rewrite List.app_assoc.
      by apply not_boundary_snoc_lf.
Qed.

Lemma add_lf_tail_not_boundary (lines : list (str * str)) :
  lines <> [] -> Forall not_boundary (tail lines) ->
  Forall not_boundary (tail (add_lf lines)).
Proof.
  destruct lines as [|[b t] ls]; [done|]. intros _. cbn [tail add_lf].
  destruct ls as [|l ls]; [|apply add_lf_not_boundary].
  intros _. destruct t as [|t0 [|t1 t]]; try (by repeat constructor).
  destruct (t0 =? 13); by repeat constructor.
Qed.

Lemma segment_snoc_lf (k : str) : segment k -> segment (k ++ NL).
Proof.
  intros [Hne Ht]. split; [by destruct k|].
  unfold NL. rewrite split_raw_snoc_lf. apply add_lf_tail_not_boundary; [|done].
  intros E. by apply split_raw_nil in E.
Qed.

(** The separator after a chunk adds at most an empty line, which is no
    header: the chunk's path stays what it was. *)
Lemma extract_loop_add_lf (lines : list (str * str)) :
  extract_loop (List.map fst (add_lf lines)) = extract_loop (List.map fst lines).
Proof.
  induction lines as [|[b t] ls IH]; [reflexivity|]. cbn [add_lf].
  destruct ls as [|l ls].
  - destruct t as [|t0 [|t1 t]]; [reflexivity| |].
    + destruct (t0 =? 13); [reflexivity|].
      cbn [List.map fst extract_loop].
      destruct (startswith (py "+++ b/") b); [reflexivity|].
      by destruct (startswith (py "+++ ") b).
    + cbn [List.map fst extract_loop].
      destruct (startswith (py "+++ b/") b); [reflexivity|].
      by destruct (startswith (py "+++ ") b).
  - cbn [List.map fst extract_loop] in *. by rewrite IH.
Qed.

Lemma extract_file_path_snoc_lf (k : str) :
  extract_file_path (k ++ NL) = extract_file_path k.
Proof.
  unfold extract_file_path, splitlines, NL.
  by rewrite split_raw_snoc_lf, extract_loop_add_lf.
Qed.

Lemma reviewable_chunk_snoc_lf (k : str) :
  reviewable_chunk (k ++ NL) = reviewable_chunk k.
Proof. unfold reviewable_chunk. by rewrite extract_file_path_snoc_lf. Qed.

(** *** Splitting a joined text again *)

Definition plain_line (l : str) : Prop := startswith DIFF_GIT l = false.

Lemma split_loop_plain_lines (ls after chunks current : list str) :
  Forall plain_line ls ->
  split_loop (ls ++ after) chunks current
  = split_loop after chunks (current ++ ls).
Proof.
  revert current. induction ls as [|l ls IH]; intros current H.
  - by rewrite app_nil_r.
  - inversion H as [|? ? Hl Hls]; subst. cbn [app split_loop].
    rewrite Hl, IH, <- List.app_assoc; done.
Qed.

Lemma split_loop_first (l : str) (ls : list str) :
  split_loop (l :: ls) [] [] = split_loop ls [] [l].
Proof. cbn [split_loop]. by destruct (startswith DIFF_GIT l). Qed.

Lemma segment_lines (k : str) :
  segment k ->
  exists l ls, splitlines_keepends k = l :: ls /\ Forall plain_line ls.
Proof.
  intros [Hne Ht]. unfold splitlines_keepends.
  destruct (split_raw k) as [|x xs] eqn:E; [by apply split_raw_nil in E|].
  exists (glue x), (List.map glue xs). split; [done|].
  cbn [tail] in Ht. clear E. induction Ht; constructor; done.
Qed.

(** A segment is one chunk. *)
Lemma split_diff_segment (k : str) : segment k -> split_diff_by_file k = [k].
Proof.
  intros Hk. destruct (segment_lines k Hk) as (l & ls & E & Hls).
  unfold split_diff_by_file. rewrite E, split_loop_first.
  rewrite <- (app_nil_r ls), split_loop_plain_lines by done.
  cbn [split_loop flush app]. f_equal. rewrite <- E.
  apply splitlines_keepends_concat.
Qed.

(** A segment that ends in a line feed, followed by a text that opens with
    a boundary line, is the first chunk; the rest is split on its own. *)
Lemma split_diff_segment_then (a y : str) :
  segment (a ++ [10]) -> startswith DIFF_GIT y = true ->
  split_diff_by_file ((a ++ [10]) ++ y)
  = (a ++ [10]) :: split_diff_by_file y.
Proof.
  intros Hk Hy. destruct (segment_lines _ Hk) as (l & ls & E & Hls).
  destruct (startswith_first_line DIFF_GIT y DIFF_GIT_plain) as (b & t & R & Ey & Hb);
    [done | done |].
  assert (Ey' : splitlines_keepends y = (b ++ t) :: List.map glue R)
    by (unfold splitlines_keepends; by rewrite Ey).
  assert (Hg : startswith DIFF_GIT (b ++ t) = true) by (by apply startswith_app).
  unfold split_diff_by_file.
  rewrite <- List.app_assoc. cbn [app].
  rewrite splitlines_keepends_after_lf, E, Ey'. cbn [app].
  rewrite !split_loop_first, split_loop_plain_lines by done.
  cbn [split_loop app]. rewrite Hg.
  rewrite split_loop_chunks. cbn [flush app]. f_equal.
  rewrite <- E. apply (splitlines_keepends_concat (a ++ [10])).
Qed.

(** The parts as they come out when their join is split again: each but the
    last has gained the separator. *)
Fixpoint with_sep (parts : list str) : list str :=
  match parts with
  | [] => []
  | [p] => [p]
  | p :: ps => (p ++ NL) :: with_sep ps
  end.

Lemma join_starts (p : str) (ps : list str) (pre : str) :
  startswith pre p = true -> startswith pre (join NL (p :: ps)) = true.
Proof.
  intros H. cbn [join]. destruct ps; [done|]. by apply startswith_app.
Qed.

Lemma split_diff_join (parts : list str) :
  Forall segment parts -> Forall starts_file (tail parts) ->
  split_diff_by_file (join NL parts) = with_sep parts.
Proof.
  induction parts as [|k parts IH]; intros Hs Hb; [reflexivity|].
  inversion Hs as [|? ? Hk Hparts]; subst.
  destruct parts as [|k2 parts]; [by apply split_diff_segment|].
  cbn [tail] in Hb. inversion Hb as [|? ? Hk2 Hb2]; subst.
  change (join NL (k :: k2 :: parts))
    with (k ++ NL ++ join NL (k2 :: parts)).
  change (with_sep (k :: k2 :: parts))
    with ((k ++ NL) :: with_sep (k2 :: parts)).
  rewrite List.app_assoc. unfold NL at 1 2.
  rewrite split_diff_segment_then.
  - f_equal. apply IH; [done|]. destruct parts; [constructor|].
    cbn [tail]. done.
  - by apply (segment_snoc_lf k).
  - by apply join_starts.
Qed.

Lemma filter_with_sep (parts : list str) :
  Forall (fun k => reviewable_chunk k = true) parts ->
  List.filter reviewable_chunk (with_sep parts) = with_sep parts.
Proof.
  induction parts as [|k parts IH]; intros H; [reflexivity|].
  inversion H as [|? ? Hk Hparts]; subst.
  destruct parts as [|k2 parts].
  - cbn [with_sep List.filter]. by rewrite Hk.
  - change (with_sep (k :: k2 :: parts))
      with ((k ++ NL) :: with_sep (k2 :: parts)).
    cbn [List.filter]. by rewrite reviewable_chunk_snoc_lf, Hk, IH.
Qed.

Lemma join_with_sep (parts : list str) :
  join NL (with_sep parts) = join (NL ++ NL) parts.
Proof.
  induction parts as [|k parts IH]; [reflexivity|].
  destruct parts as [|k2 parts]; [reflexivity|].
  change (with_sep (k :: k2 :: parts))
    with ((k ++ NL) :: with_sep (k2 :: parts)).
  change (join (NL ++ NL) (k :: k2 :: parts))
    with (k ++ (NL ++ NL) ++ join (NL ++ NL) (k2 :: parts)).
  rewrite <- IH.
  destruct (with_sep (k2 :: parts)) as [|w ws] eqn:E; [by destruct parts|].
  cbn [join]. by rewrite <- !List.app_assoc.
Qed.

Lemma script_chunks_segments (d : str) : Forall segment (script_chunks d).
Proof.
  unfold script_chunks. apply List.Forall_forall. intros k [Hk _]%filter_In.
  revert k Hk. apply List.Forall_forall, split_diff_by_file_segments.
Qed.

Lemma filter_tail_boundary (cs : list str) :
  Forall starts_file (tail cs) ->
  Forall starts_file (tail (List.filter reviewable_chunk cs)).
Proof.
  destruct cs as [|c cs]; [done|]. cbn [tail List.filter]. intros H.
  assert (Hf : Forall starts_file (List.filter reviewable_chunk cs)).
  { apply List.Forall_forall. intros k [Hk _]%filter_In.
    revert k Hk. by apply List.Forall_forall. }
  destruct (reviewable_chunk c); [done|].
  destruct Hf; [constructor | done].
Qed.

Lemma script_chunks_reviewable (d : str) :
  Forall (fun k => reviewable_chunk k = true) (script_chunks d).
Proof.
  unfold script_chunks. apply List.Forall_forall. by intros k [_ Hk]%filter_In.
Qed.

(** The kept segments of a filtered diff are those of the diff, each but
    the last followed by the separator. *)
Lemma script_chunks_filtered (d : str) :
  script_chunks (filter_script_changes d) = with_sep (script_chunks d).
Proof.
  unfold script_chunks at 1, filter_script_changes.
  rewrite split_diff_join.
  - apply filter_with_sep, script_chunks_reviewable.
  - apply script_chunks_segments.
  - apply filter_tail_boundary, split_loop_tail.
Qed.

(** C3 (amended). Filtering a filtered diff keeps the same reviewable
    segments in the same order, but joins them with two line feeds where
    filtering once joins them with one: [filter_script_changes d] is
    [join NL (script_chunks d)] by definition, and applying the filter again
    gives the same segments joined by [NL ++ NL]. *)
Theorem filter_script_changes_twice (d : str) :
  filter_script_changes (filter_script_changes d)
  = join (NL ++ NL) (script_chunks d).
Proof.
  unfold filter_script_changes at 1.
  rewrite script_chunks_filtered. apply join_with_sep.
Qed.

(** With at most one reviewable segment no separator is ever written, and
    the filter is idempotent. *)
Corollary filter_script_changes_idempotent_single (d : str) :
  (length (script_chunks d) <= 1)%nat ->
  filter_script_changes (filter_script_changes d) = filter_script_changes d.
Proof.
  intros H. unfold filter_script_changes at 1.
  rewrite script_chunks_filtered, join_with_sep. unfold filter_script_changes.
  destruct (script_chunks d) as [|k [|k2 ks]]; [done | done | cbn in H; lia].
Qed.

Lemma filter_script_changes_idempotent_single_witness :
  filter_script_changes (filter_script_changes (py "+++ b/a.lua"))
  = filter_script_changes (py "+++ b/a.lua").
Proof.
  apply filter_script_changes_idempotent_single. vm_compute. lia.
Defined.

(** A diff that touches two Lua files. *)
Definition two_files : str :=
  py "diff --git a/x.lua b/x.lua" ++ NL ++ py "+++ b/x.lua" ++ NL
  ++ py "diff --git a/y.lua b/y.lua" ++ NL ++ py "+++ b/y.lua" ++ NL.

(** C3 (counterexample). On [two_files] the second application of the
    filter changes the text: one more line feed separates the two files. *)
Lemma filter_script_changes_not_idempotent :
  str_eqb (filter_script_changes (filter_script_changes two_files))
          (filter_script_changes two_files) = false
  /\ len (filter_script_changes two_files) = 79%Z
  /\ len (filter_script_changes (filter_script_changes two_files)) = 80%Z.
Proof. by vm_compute. Qed.

End FilterFacts.

(** ** Facts about the review driver *)

Module ReviewFacts.
Import Review PyStrFacts SplitFacts FilterFacts.

(** A path that ends in [.json] has no reviewable extension. *)
Lemma json_path_not_reviewable (path : str) :
  endswith (py ".json") path = true -> reviewable_path path = false.
Proof.
  unfold reviewable_path, endswith, REVIEWABLE_EXTENSIONS. cbn [existsb].
  destruct (rev path) as [|c r]; [done|].
  change (rev (py ".json")) with (110 :: rev (py ".jso")).
  change (rev (py ".luau")) with (117 :: rev (py ".lua")).
  change (rev (py ".lua")) with (97 :: rev (py ".lu")).
  cbn [startswith]. destruct (110 =? c) eqn:E; [|done].
  apply N.eqb_eq in E. subst c. done.
Qed.

(** A diff all of whose files are [.json] files keeps no segment. *)
Lemma json_only_no_script_chunks (d : str) :
  Forall (fun chunk => endswith (py ".json") (extract_file_path chunk) = true)
    (split_diff_by_file d) ->
  script_chunks d = [].
Proof.
  unfold script_chunks. induction 1 as [|c cs Hc _ IH]; [done|].
  cbn [List.filter]. unfold reviewable_chunk at 1.
  by rewrite json_path_not_reviewable.
Qed.

Lemma join_nil_inv (sep : str) (parts : list str) :
  Forall (fun k => k <> []) parts -> join sep parts = [] -> parts = [].
Proof.
  destruct 1 as [|k ks Hk _]; [done|]. cbn [join].
  destruct ks; [done|]. intros E. by apply app_eq_nil in E as [-> _].
Qed.

(** The filtered diff is empty exactly when no segment is reviewable. *)
Lemma filter_script_changes_nil (d : str) :
  filter_script_changes d = [] <-> script_chunks d = [].
Proof.
  unfold filter_script_changes. split; [|by intros ->].
  apply join_nil_inv. eapply Forall_impl; [apply script_chunks_segments|].
  by intros k [Hk _].
Qed.

Section Runtime.

Variable json_loads : str -> option pyobj.
Variable re_word : char -> bool.
Variable int_of_str : str -> option Z.
Variable py_repr : pyobj -> str.
Variable oracle : list str -> str -> option str.

Abbreviation parse_issues :=
  (parse_issues json_loads re_word int_of_str py_repr).
Abbreviation review_diff :=
  (review_diff json_loads re_word int_of_str py_repr oracle).
Abbreviation gather := (gather json_loads re_word int_of_str py_repr oracle).




(** C6. A diff with no reviewable segment is answered with the empty list
    and no request to the oracle: the requests made are those made
    before. *)
Theorem review_diff_nothing_reviewable
    (diff : str) (existing : list Db.DBIssue) (log : list str) :
  script_chunks diff = [] ->
  review_diff diff existing log = (Ok [], log).
Proof.
  intros H. unfold Review.review_diff, filter_script_changes. by rewrite H.
Qed.


(** *** The parser

    [ValueError] and [TypeError] skip an element; the third exception a
    numeric field can raise, the [OverflowError] of an infinite float, is
    not caught and ends the call. *)

Abbreviation make_issue := (make_issue int_of_str py_repr).
Abbreviation collect_issues := (collect_issues int_of_str py_repr).
Abbreviation issues_of_data := (issues_of_data int_of_str py_repr).

(** An element with no field at all gets every default. *)
Lemma make_issue_defaults :
  make_issue []
  = Ok {| file := []; line_start := 0; line_end := 0;
          severity := py "Medium"; title := []; explanation := [];
          suggestion := [] |}.
Proof. reflexivity. Qed.

Lemma py_int_raise (v : pyobj) (e : pyexc) :
  py_int int_of_str v = Raise e ->
  e = ValueError \/ e = TypeError
  \/ (e = OverflowError /\ exists sign, v = PyFloat (FInf sign)).
Proof.
  destruct v as [| | |[]| | |]; cbn; try (intros [= <-]; auto; fail).
  - intros [= <-]. right. right. eauto.
  - destruct (int_of_str s); intros [= <-]; auto.
Qed.

(** The only exception that leaves [make_issue] uncaught is the overflow of
    an infinite [line_start] or [line_end]. *)
Lemma make_issue_raise (item : list (str * pyobj)) (e : pyexc) :
  make_issue item = Raise e ->
  e = ValueError \/ e = TypeError
  \/ (e = OverflowError
      /\ exists sign,
           dict_get item (py "line_start") (PyInt 0) = PyFloat (FInf sign)
           \/ dict_get item (py "line_end") (PyInt 0) = PyFloat (FInf sign)).
Proof.
  unfold Review.make_issue.
  destruct (py_int int_of_str (dict_get item (py "line_start") (PyInt 0)))
    as [ls|e1] eqn:E1.
  - destruct (py_int int_of_str (dict_get item (py "line_end") (PyInt 0)))
      as [le|e2] eqn:E2; [done|].
    cbn. intros [= <-]. apply py_int_raise in E2 as [?|[?|[? [sign ?]]]]; eauto 6.
  - cbn. intros [= <-]. apply py_int_raise in E1 as [?|[?|[? [sign ?]]]]; eauto 6.
Qed.

Lemma collect_issues_raise (data : list pyobj) (acc : list Issue) (e : pyexc) :
  collect_issues data acc = Raise e -> e = OverflowError.
Proof.
  revert acc. induction data as [|item rest IH]; intros acc; [done|].
  cbn [Review.collect_issues]. destruct item; try apply IH.
  destruct (make_issue entries) as [i|e'] eqn:E; [apply IH|].
  apply make_issue_raise in E as [->|[->|[-> _]]]; try apply IH. by intros [= <-].
Qed.

(** When [parse_issues] raises, it raises [OverflowError]. *)
Lemma parse_issues_raise (text : str) (e : pyexc) :
  parse_issues text = Raise e -> e = OverflowError.
Proof.
  unfold Review.parse_issues.
  destruct (decode json_loads (unfenced re_word text)) as [[]|]; try done.
  apply collect_issues_raise.
Qed.

(** A response whose two decoding attempts both fail gives the empty list. *)
Lemma parse_issues_undecodable (text : str) :
  decode json_loads (unfenced re_word text) = None -> parse_issues text = Ok [].
Proof. unfold Review.parse_issues. by intros ->. Qed.

Lemma collect_issues_app (before after : list pyobj) (acc : list Issue) :
  collect_issues (before ++ after) acc
  = match collect_issues before acc with
    | Ok issues => collect_issues after issues
    | Raise e => Raise e
    end.
Proof.
  revert acc. induction before as [|item rest IH]; intros acc; [done|].
  cbn [app Review.collect_issues]. destruct item; try apply IH.
  destruct (make_issue entries) as [i|[]]; done.
Qed.

Lemma make_issue_infinite (item : list (str * pyobj)) (sign : bool) :
  dict_get item (py "line_start") (PyInt 0) = PyFloat (FInf sign) ->
  make_issue item = Raise OverflowError.
Proof. intros H. unfold Review.make_issue. by rewrite H. Qed.

(** C4 (the code at the failing inputs). Whatever elements come before and
    after it, an element whose [line_start] is an infinite float is not
    skipped: when the elements before it were collected without exception,
    its conversion raises [OverflowError], which the loop does not catch,
    and the call ends with that exception instead of the findings
    collected so far. *)
Theorem issues_of_data_overflow (before after : list pyobj)
    (item : list (str * pyobj)) (sign : bool) (collected : list Issue) :
  issues_of_data (PyList before) = Ok collected ->
  dict_get item (py "line_start") (PyInt 0) = PyFloat (FInf sign) ->
  issues_of_data (PyList (before ++ PyDict item :: after))
  = Raise OverflowError.
Proof.
  intros Hbefore Hinf. cbn [Review.issues_of_data] in *.
  rewrite collect_issues_app, Hbefore. cbn [Review.collect_issues].
  by rewrite (make_issue_infinite item sign).
Qed.

(** An element with an infinite [line_start]. *)
Definition infinite_line : list (str * pyobj) :=
  [(py "file", PyStr (py "b.luau"));
   (py "line_start", PyFloat (FInf false))].

(** A well-formed element. *)
Definition finite_line : pyobj :=
  PyDict [(py "file", PyStr (py "a.luau")); (py "line_start", PyInt 5);
          (py "severity", PyStr (py "High"));
          (py "title", PyStr (py "Unsafe call"))].

(** The same at the level of the response text. *)
Lemma parse_issues_overflow (text : str) :
  json_loads (unfenced re_word text)
  = Some (PyList [finite_line; PyDict infinite_line]) ->
  parse_issues text = Raise OverflowError.
Proof.
  intros H. unfold Review.parse_issues, decode. by rewrite H.
Qed.

(** Without its second element the same response parses to one finding. *)
Lemma issues_of_data_finite :
  issues_of_data (PyList [finite_line])
  = Ok [ {| file := py "a.luau"; line_start := 5; line_end := 0;
            severity := py "High"; title := py "Unsafe call";
            explanation := []; suggestion := [] |} ].
Proof. reflexivity. Qed.

End Runtime.

(** *** Concrete runs *)

(** A runtime in which nothing decodes and the review service is down. *)
Definition no_json : str -> option pyobj := fun _ => None.
Definition ascii_word (c : char) : bool :=
  ((48 <=? c) && (c <=? 57)) || ((65 <=? c) && (c <=? 90)) || (c =? 95)
  || ((97 <=? c) && (c <=? 122)).
Definition no_int : str -> option Z := fun _ => None.
Definition no_repr : pyobj -> str := fun _ => [].
Definition oracle_down : list str -> str -> option str := fun _ _ => None.

(** A diff that touches one JSON file. *)
Definition json_only : str :=
  py "diff --git a/default.project.json b/default.project.json" ++ NL
  ++ py "--- a/default.project.json" ++ NL
  ++ py "+++ b/default.project.json" ++ NL
  ++ py "+  x" ++ NL.

Lemma issues_of_data_overflow_witness :
  issues_of_data no_int no_repr (PyList ([finite_line] ++ [PyDict infinite_line]))
  = Raise OverflowError.
Proof.
  eapply (issues_of_data_overflow no_int no_repr [finite_line] []
            infinite_line false); reflexivity.
Defined.

Lemma review_diff_nothing_reviewable_witness :
  script_chunks json_only = []
  /\ review_diff no_json ascii_word no_int no_repr oracle_down json_only [] []
     = (Ok [], []).
Proof.
  split; [by vm_compute|].
  apply review_diff_nothing_reviewable. by vm_compute.
Defined.



End ReviewFacts.

(** ** Facts about the state store *)

Module DbFacts.
Import Db PyStrFacts.

(** The throttle rule: notify on the first occurrence and on every
    twelfth. *)
Definition notify_rule (count : Z) : bool :=
  (count =? 1)%Z || (count mod 12 =? 0)%Z.

(** A run of [update_last_error] calls for one game with one message, one
    call per clock reading; the answers in order. *)
Fixpoint record_errors (db : Database) (game : Z) (error : str)
    (nows : list str) : Database * list bool :=
  match nows with
  | [] => (db, [])
  | t :: ts =>
      let (db1, notify) := update_last_error db game error t in
      let (db2, notifies) := record_errors db1 game error ts in
      (db2, notify :: notifies)
  end.

(** The attempts [first], [first + 1], ... of a run of [n] calls. *)
Fixpoint attempts (first : Z) (n : nat) : list Z :=
  match n with
  | O => []
  | S n' => first :: attempts (first + 1) n'
  end.

Lemma same_error_true (stored : option str) (error : str) :
  same_error stored error = true <-> stored = Some error.
Proof.
  destruct stored as [e|]; cbn; [|done].
  rewrite str_eqb_eq. split; [by intros -> | by intros [= ->]].
Qed.

Lemma same_error_refl (error : str) : same_error (Some error) error = true.
Proof. by apply same_error_true. Qed.

(** One call on a row that stores the same message. *)
Lemma update_last_error_same (db : Database) (g : Z) (row : GameRow)
    (error now : str) :
  games db !! g = Some row -> last_error row = Some error ->
  update_last_error db g error now
  = (with_games db
       (alter (set_error_count (or_zero (error_count row) + 1)) g (games db)),
     notify_rule (or_zero (error_count row) + 1)).
Proof.
  intros Hrow Herr. unfold update_last_error. rewrite Hrow, Herr.
  by rewrite same_error_refl.
Qed.

(** One call on a row that stores another message, or none. *)
Lemma update_last_error_other (db : Database) (g : Z) (row : GameRow)
    (error now : str) :
  games db !! g = Some row -> last_error row <> Some error ->
  update_last_error db g error now
  = (with_games db (alter (set_new_error error now) g (games db)), true).
Proof.
  intros Hrow Herr. unfold update_last_error. rewrite Hrow.
  destruct (same_error (last_error row) error) eqn:E; [|done].
  by apply same_error_true in E.
Qed.

(** A run on a row that already stores the message with count [n]. *)
Lemma record_errors_same (nows : list str) (db : Database) (g : Z)
    (row : GameRow) (error : str) :
  games db !! g = Some row -> last_error row = Some error ->
  let n := or_zero (error_count row) in
  snd (record_errors db g error nows)
  = List.map notify_rule (attempts (n + 1) (length nows))
  /\ exists row',
      games (fst (record_errors db g error nows)) !! g = Some row'
      /\ last_error row' = Some error
      /\ or_zero (error_count row') = (n + Z.of_nat (length nows))%Z.
Proof.
  revert db row. induction nows as [|t ts IH]; intros db row Hrow Herr n.
  - cbn. split; [done|]. exists row. repeat split; try done. subst n. lia.
  - cbn [record_errors length attempts List.map].
    rewrite (update_last_error_same db g row error t Hrow Herr). fold n.
    set (db1 := with_games db _).
    assert (H1 : games db1 !! g = Some (set_error_count (n + 1) row)).
    { subst db1. cbn. by rewrite lookup_alter_eq, Hrow. }
    destruct (IH db1 _ H1 Herr) as (Hn & row' & Hr' & He' & Hc').
    destruct (record_errors db1 g error ts) as [db2 notifies]. cbn in *.
    split; [by rewrite Hn|]. exists row'. repeat split; try done. lia.
Qed.

(** C1. For every workspace row: a call whose message equals the stored one
    increments the counter and notifies exactly when the new count is 1 or
    a multiple of 12; a call with a different message (or on a cleared
    row) stores the message and the time, sets the counter to 1 and
    notifies. Hence in a run of calls with one message that starts from a
    cleared error state the n-th call notifies exactly when n is 1 or a
    multiple of 12, and leaves the counter at n. *)
Theorem update_last_error_throttle (db : Database) (g : Z) (row : GameRow)
    (error now : str) :
  games db !! g = Some row ->
  (last_error row = Some error ->
     let count := (or_zero (error_count row) + 1)%Z in
     snd (update_last_error db g error now) = notify_rule count
     /\ games (fst (update_last_error db g error now)) !! g
        = Some (set_error_count count row))
  /\ (last_error row <> Some error ->
      snd (update_last_error db g error now) = true
      /\ games (fst (update_last_error db g error now)) !! g
         = Some (set_new_error error now row))
  /\ (last_error row = None ->
      forall nows : list str,
        snd (record_errors db g error nows)
        = List.map notify_rule (attempts 1 (length nows))
        /\ (nows <> [] ->
            exists row',
              games (fst (record_errors db g error nows)) !! g = Some row'
              /\ last_error row' = Some error
              /\ error_count row' = Some (Z.of_nat (length nows)))).
Proof.
  intros Hrow. split; [|split].
  - intros Herr count.
    rewrite (update_last_error_same db g row error now Hrow Herr).
    split; [done|]. cbn. by rewrite lookup_alter_eq, Hrow.
  - intros Herr.
    rewrite (update_last_error_other db g row error now Hrow Herr).
    split; [done|]. cbn. by rewrite lookup_alter_eq, Hrow.
  - intros Herr nows. destruct nows as [|t ts]; [done|].
    cbn [record_errors length attempts List.map].
    rewrite (update_last_error_other db g row error t Hrow) by congruence.
    set (db1 := with_games db _).
    assert (H1 : games db1 !! g = Some (set_new_error error t row))
      by (subst db1; cbn; by rewrite lookup_alter_eq, Hrow).
    destruct (record_errors_same ts db1 g _ error H1 eq_refl)
      as (Hn & row' & Hr' & He' & Hc').
    destruct (record_errors db1 g error ts) as [db2 notifies]. cbn in *.
    split; [by rewrite Hn|]. intros _.
    exists row'. split; [done|]. split; [done|].
    destruct (error_count row') as [c|] eqn:Ec; cbn in Hc'; [f_equal; lia|].
    lia.
Qed.

(** Thirteen attempts: the first and the twelfth notify. *)
Lemma thirteen_attempts :
  List.map notify_rule (attempts 1 13)
  = [true; false; false; false; false; false; false; false; false; false;
     false; true; false].
Proof. reflexivity. Qed.

(** A store with one game, in the state [update_last_sync] leaves. *)
Definition one_game : Database :=
  {| games :=
       {[ 1%Z := {| discord_server_id := py "900"; place_id := 42;
                    channel_id := py "77"; api_key_encrypted := [];
                    added_by := py "5"; working_dir := py "data/900/42";
                    last_sync_at := Some (py "2026-01-01T00:00:00+00:00");
                    last_error := None; last_error_at := None;
                    error_count := Some 0%Z;
                    game_created_at := py "2026-01-01 00:00:00" |} ]};
     issues := ∅;
     issues_seq := 0 |}.

Lemma update_last_error_throttle_witness :
  snd (record_errors one_game 1 (py "HTTP 403") (repeat (py "t") 13))
  = List.map notify_rule (attempts 1 (length (repeat (py "t") 13))).
Proof.
  eapply (proj1 (proj2 (proj2
            (update_last_error_throttle one_game 1 _ (py "HTTP 403") (py "t")
               eq_refl)) eq_refl _)).
Defined.

End DbFacts.

(** ** Facts about the loop body *)

Module DaemonFacts.
Import Db Daemon PyStrFacts.

Definition AUTO : str := py "auto".
Definition FILE_MODIFIED : str := py "file modified".

(** The rows [_auto_resolve] is to resolve: the unresolved findings of the
    workspace whose file is one of the changed paths. *)
Definition auto_resolvable (game : Z) (changed_files : list str)
    (r : IssueRow) : bool :=
  (game_id r =? game)%Z && negb (resolved r)
  && str_in (file_path r) changed_files.

(** The keys the loop resolves among a snapshot. *)
Definition hit_ids (changed_files : list str) (us : list DBIssue) : list Z :=
  List.map id
    (List.filter (fun u => str_in (file_path (issue_row u)) changed_files) us).

Lemma NoDup_map_filter {A B : Type} (f : A -> B) (p : A -> bool) (l : list A) :
  NoDup (List.map f l) -> NoDup (List.map f (List.filter p l)).
Proof.
  induction l as [|x l IH]; [done|]. cbn [List.map List.filter].
  intros [Hx Hl]%NoDup_cons. destruct (p x); [|by apply IH].
  cbn [List.map]. apply NoDup_cons. split; [|by apply IH].
  rewrite list_elem_of_In, in_map_iff in *. intros (y & E & [Hy _]%filter_In).
  apply Hx. by exists y.
Qed.

Section Clock.

Variable clock : nat -> str.

Abbreviation auto_resolve_loop := (auto_resolve_loop clock).
Abbreviation _auto_resolve := (_auto_resolve clock).

(** The loop touches the [issues] table only, at the keys it resolves, once
    each. *)
Lemma auto_resolve_loop_spec (changed : list str) (us : list DBIssue) :
  NoDup (List.map id us) ->
  forall (acc : list Z) (w : World),
  exists stamps : Z -> str,
    let r := auto_resolve_loop us changed acc w in
    (forall k,
        issues (db (snd r)) !! k
        = if bool_decide (k ∈ hit_ids changed us)
          then set_resolved AUTO FILE_MODIFIED (stamps k) <$> issues (db w) !! k
          else issues (db w) !! k)
    /\ fst r = acc ++ hit_ids changed us
    /\ games (db (snd r)) = games (db w)
    /\ requests (snd r) = requests w
    /\ sent (snd r) = sent w.
Proof.
  induction us as [|u us IH]; intros Hnd acc w.
  - exists (fun _ => []). cbn. by rewrite app_nil_r.
  - cbn [List.map] in Hnd. apply NoDup_cons in Hnd as [Hu Hnd].
    cbn [Daemon.auto_resolve_loop]. unfold hit_ids. cbn [List.filter].
    destruct (str_in (file_path u) changed) eqn:Hhit; [|by apply IH].
    cbn [now fst snd].
    set (w2 := with_db _ _).
    destruct (IH Hnd (acc ++ [id u]) w2) as (stamps & Hk & Hids & Hg & Hr & Hs).
    exists (fun k => if decide (k = id u) then clock (tick w) else stamps k).
    cbn zeta in *. split; [|split; [|done]].
    + intros k. rewrite Hk. cbn [List.map]. fold (hit_ids changed us).
      destruct (decide (k = id u)) as [->|Hne].
      * rewrite bool_decide_eq_false_2, bool_decide_eq_true_2;
          [|by left|].
        -- subst w2. cbn. by rewrite lookup_alter_eq.
        -- intros Hin. apply Hu. rewrite list_elem_of_In in *.
           unfold hit_ids in Hin. apply in_map_iff in Hin as (y & Hy & Hin).
           apply filter_In in Hin as [Hin _]. apply in_map_iff. by exists y.
      * assert (E : issues (db w2) !! k = issues (db w) !! k)
          by (subst w2; cbn; by rewrite lookup_alter_ne).
        rewrite E. destruct (bool_decide (k ∈ hit_ids changed us)) eqn:B.
        -- apply bool_decide_eq_true_1 in B.
           rewrite bool_decide_eq_true_2; [done | by right].
        -- apply bool_decide_eq_false_1 in B.
           rewrite bool_decide_eq_false_2; [done|].
           by intros [?|?]%elem_of_cons.
    + rewrite Hids. cbn [List.map]. by rewrite <- List.app_assoc.
Qed.

Lemma get_unresolved_issues_NoDup (d : Database) (g : Z) :
  NoDup (List.map id (get_unresolved_issues d g)).
Proof.
  unfold get_unresolved_issues. rewrite List.map_map. cbn [id].
  apply (NoDup_map_filter fst). apply NoDup_fst_map_to_list.
Qed.

Lemma hit_ids_unresolved (d : Database) (g : Z) (changed : list str) (k : Z) :
  In k (hit_ids changed (get_unresolved_issues d g))
  <-> exists row, issues d !! k = Some row
                  /\ auto_resolvable g changed row = true.
Proof.
  unfold hit_ids, get_unresolved_issues, auto_resolvable.
  rewrite in_map_iff. split.
  - intros (u & <- & [Hu Hhit]%filter_In).
    apply in_map_iff in Hu as ([k row] & <- & [Hin Hc]%filter_In).
    cbn in *. exists row. split.
    + by apply elem_of_map_to_list, list_elem_of_In.
    + by rewrite Hc, Hhit.
  - intros (row & Hrow & [Hc Hhit]%andb_prop).
    exists {| id := k; issue_row := row |}. split; [done|].
    apply filter_In. split; [|done].
    apply in_map_iff. exists (k, row). split; [done|].
    apply filter_In. split; [|done].
    by apply list_elem_of_In, elem_of_map_to_list.
Qed.


End Clock.

(** *** Review and persist *)

Section Persist.

Variable clock : nat -> str.
Variable channel_found : bool.
Variable send : list Message -> Message -> option str.

Abbreviation post_loop := (post_loop clock send).
Abbreviation _post_issues := (_post_issues clock channel_found send).
Abbreviation persist_new := (persist_new clock channel_found send).




Lemma str_eqb_refl (a : str) : str_eqb a a = true.
Proof. by apply str_eqb_eq. Qed.

(** C2 (the code at the failing input). A batch that holds the same
    finding twice, for a workspace with no open finding of that file and
    title, passes the dedup filter whole, because the filter asks the store
    as it is before the batch is persisted; when the channel is there and
    the posts succeed both copies are stored, and the table then holds two
    unresolved findings with the same workspace, file and title. *)
Theorem persist_new_duplicate_batch (game : Game) (grow : GameRow)
    (i : Review.Issue) (w : World) :
  channel_found = true ->
  (forall posted m, send posted m <> None) ->
  games (db w) !! game_key game = Some grow ->
  final_dedup (db w) (game_key game) (Review.file i) (Review.title i) = false ->
  let r := persist_new game [i; i] w in
  fst r = Ok tt
  /\ exists k1 k2 r1 r2,
      k1 <> k2
      /\ Db.issues (db (snd r)) !! k1 = Some r1
      /\ Db.issues (db (snd r)) !! k2 = Some r2
      /\ open_duplicate (game_key game) (Review.file i) (Review.title i) r1 = true
      /\ open_duplicate (game_key game) (Review.file i) (Review.title i) r2 = true.
Proof.
  intros Hch Hsend Hgame Hdedup. cbv zeta.
  unfold Daemon.persist_new. cbn [List.filter]. rewrite Hdedup. cbn [negb].
  unfold Daemon._post_issues. rewrite Hch. cbn [negb].
  cbn [Daemon.post_loop]. unfold channel_send, now, add_issue.
  cbn [db sent with_db games tick]. rewrite Hgame.
  destruct (send (sent w) _) as [m0|] eqn:E0; [|by apply Hsend in E0].
  destruct (send (sent w ++ [_]) _) as [m1|] eqn:E1; [|by apply Hsend in E1].
  cbn [db with_db Db.update_issue_message_id Db.with_issues games issues_seq].
  rewrite Hgame.
  destruct (send ((sent w ++ [_]) ++ [_]) _) as [m2|] eqn:E2;
    [|by apply Hsend in E2].
  cbn [fst snd db with_db Db.update_issue_message_id Db.with_issues Db.issues
       issues_seq].
  split; [done|].
  set (k1 := (issues_seq (db w) + 1)%Z). set (k2 := (k1 + 1)%Z).
  assert (Hne : k1 <> k2) by (subst k2; lia).
  eexists k1, k2, _, _. split; [done|].
  split; [|split].
  - rewrite lookup_alter_ne, lookup_insert_ne, lookup_alter_eq,
      lookup_insert_eq by done. reflexivity.
  - rewrite lookup_alter_eq, lookup_insert_eq. reflexivity.
  - unfold open_duplicate. cbn. by rewrite Z.eqb_refl, !str_eqb_refl.
Qed.

(** *** The open-finding invariant outside that case

    As long as no batch holds two findings with one file and title, every
    operation of the loop keeps open findings unique per workspace, file
    and title. *)

Definition open_unique (d : Database) : Prop :=
  forall k1 k2 r1 r2,
    Db.issues d !! k1 = Some r1 -> Db.issues d !! k2 = Some r2 ->
    resolved r1 = false -> resolved r2 = false ->
    game_id r1 = game_id r2 -> file_path r1 = file_path r2 ->
    title r1 = title r2 ->
    k1 = k2.

(** Every key in use was issued by the sequence. *)
Definition keys_issued (d : Database) : Prop :=
  forall k r, Db.issues d !! k = Some r -> (k <= issues_seq d)%Z.

Definition store_ok (d : Database) : Prop := open_unique d /\ keys_issued d.

Lemma open_duplicate_true (g : Z) (f t : str) (r : IssueRow) :
  open_duplicate g f t r = true
  <-> game_id r = g /\ file_path r = f /\ title r = t /\ resolved r = false.
Proof.
  unfold open_duplicate.
  rewrite !andb_true_iff, Z.eqb_eq, !str_eqb_eq, negb_true_iff. tauto.
Qed.

Lemma final_dedup_false (d : Database) (g : Z) (f t : str) :
  final_dedup d g f t = false
  <-> forall k r, Db.issues d !! k = Some r -> open_duplicate g f t r = false.
Proof.
  unfold final_dedup. split.
  - intros H k r Hr. destruct (open_duplicate g f t r) eqn:E; [|done].
    rewrite <- H. symmetry. apply existsb_exists. exists (k, r).
    split; [|done]. by apply list_elem_of_In, elem_of_map_to_list.
  - intros H. destruct (existsb _ _) eqn:E; [|done].
    apply existsb_exists in E as ([k r] & Hin & Hd).
    apply list_elem_of_In, elem_of_map_to_list in Hin.
    cbn in Hd. by rewrite (H k r Hin) in Hd.
Qed.

(** An [UPDATE] that leaves the identifying columns alone and never
    reopens a finding. *)
Lemma alter_store_ok (d : Database) (k : Z) (f : IssueRow -> IssueRow) :
  (forall r, game_id (f r) = game_id r /\ file_path (f r) = file_path r
             /\ title (f r) = title r
             /\ (resolved (f r) = false -> resolved r = false)) ->
  store_ok d -> store_ok (with_issues d (alter f k (Db.issues d))).
Proof.
  intros Hf [Hu Hk]. split.
  - intros k1 k2 r1 r2. cbn.
    rewrite !lookup_alter. intros H1 H2.
    assert (Hpre : forall k' r', (if decide (k = k') then f <$> Db.issues d !! k
                                 else Db.issues d !! k') = Some r' ->
              exists r0, Db.issues d !! k' = Some r0
                         /\ game_id r' = game_id r0 /\ file_path r' = file_path r0
                         /\ title r' = title r0
                         /\ (resolved r' = false -> resolved r0 = false)).
    { intros k' r' H. destruct (decide (k = k')) as [<-|].
      - destruct (Db.issues d !! k) as [r0|]; [|done]. injection H as <-.
        exists r0. split; [done|]. apply Hf.
      - exists r'. by repeat split. }
    apply Hpre in H1 as (a & Ha & Ga & Fa & Ta & Ra).
    apply Hpre in H2 as (b & Hb & Gb & Fb & Tb & Rb).
    intros. apply (Hu k1 k2 a b); auto; congruence.
  - intros k' r'. cbn. rewrite lookup_alter.
    destruct (decide (k = k')) as [<-|].
    + destruct (Db.issues d !! k) as [r0|] eqn:E; [|done]. intros _.
      by apply (Hk k r0).
    + apply Hk.
Qed.

Lemma resolve_issue_store_ok (d : Database) (k : Z) (by_ reason t : str) :
  store_ok d -> store_ok (resolve_issue d k by_ reason t).
Proof. apply alter_store_ok. intros r. by repeat split. Qed.

Lemma update_issue_message_id_store_ok (d : Database) (k : Z) (m : str) :
  store_ok d -> store_ok (update_issue_message_id d k m).
Proof. apply alter_store_ok. intros r. by repeat split. Qed.

(** Adding a finding that has no open duplicate. *)
Lemma add_issue_store_ok (d d' : Database) (g key : Z) (m : option str)
    (f : str) (ls le : option Z) (sev t : str) (ex su : option str)
    (now_ : str) :
  store_ok d -> final_dedup d g f t = false ->
  add_issue d g m f ls le sev t ex su now_ = Ok (d', key) ->
  store_ok d'
  /\ (forall f' t', (f', t') <> (f, t) ->
        final_dedup d' g f' t' = final_dedup d g f' t').
Proof.
  intros [Hu Hk] Hdedup. unfold add_issue.
  destruct (games d !! g); [|done]. intros [= <- <-].
  set (key := (issues_seq d + 1)%Z). set (row := Build_IssueRow _ _ _ _ _ _ _ _ _ _ _ _ _ _).
  assert (Hfresh : Db.issues d !! key = None).
  { destruct (Db.issues d !! key) as [r|] eqn:E; [|done].
    apply Hk in E. subst key. lia. }
  rewrite final_dedup_false in Hdedup.
  assert (Hrow : forall k r, Db.issues d !! k = Some r -> resolved r = false ->
             game_id r = g -> file_path r = f -> title r = t -> False).
  { intros k r Hr ? ? ? ?. specialize (Hdedup k r Hr).
    assert (open_duplicate g f t r = true) by (by apply open_duplicate_true).
    congruence. }
  split; [split|].
  - intros k1 k2 r1 r2. cbn. rewrite !lookup_insert.
    destruct (decide (key = k1)) as [<-|], (decide (key = k2)) as [<-|];
      try done.
    + intros [= <-] H2 ? ? ? ? ?. cbn in *. exfalso. by eapply (Hrow k2 r2).
    + intros H1 [= <-] ? ? ? ? ?. cbn in *. exfalso. by eapply (Hrow k1 r1).
    + apply Hu.
  - intros k r. cbn. rewrite lookup_insert. destruct (decide (key = k)) as [<-|].
    + intros _. lia.
    + intros H. apply Hk in H. subst key. lia.
  - intros f' t' Hne.
    destruct (final_dedup d g f' t') eqn:E.
    + unfold final_dedup in *. apply existsb_exists in E as ([k r] & Hin & Hd).
      apply existsb_exists. exists (k, r). split; [|done].
      apply list_elem_of_In, elem_of_map_to_list.
      apply list_elem_of_In, elem_of_map_to_list in Hin. cbn.
      rewrite lookup_insert_ne; [done|]. intros <-. congruence.
    + rewrite final_dedup_false in *. intros k r. cbn.
      rewrite lookup_insert. destruct (decide (key = k)) as [<-|]; [|apply E].
      intros [= <-]. destruct (open_duplicate g f' t' row) eqn:Hd; [|done].
      apply open_duplicate_true in Hd as (_ & <- & <- & _). by destruct Hne.
Qed.

Lemma final_dedup_update_issue_message_id (d : Database) (k : Z) (m : str)
    (g : Z) (f t : str) :
  final_dedup (update_issue_message_id d k m) g f t = final_dedup d g f t.
Proof.
  assert (H : final_dedup (update_issue_message_id d k m) g f t = false
              <-> final_dedup d g f t = false).
  { rewrite !final_dedup_false. cbn. split.
    - intros H k' r Hr. destruct (decide (k = k')) as [<-|Hne].
      + specialize (H k (set_message_id m r)).
        rewrite lookup_alter_eq, Hr in H. by apply H.
      + apply (H k'). by rewrite lookup_alter_ne.
    - intros H k' r'. rewrite lookup_alter.
      destruct (decide (k = k')) as [<-|Hne]; [|apply H].
      destruct (Db.issues d !! k) as [r|] eqn:Hr; [|done].
      intros [= <-]. by apply (H k r). }
  destruct (final_dedup _ g f t), (final_dedup d g f t); try done;
    [by apply H | symmetry; by apply H].
Qed.

(** The pair a finding is deduplicated by. *)
Definition dedup_key (i : Review.Issue) : str * str :=
  (Review.file i, Review.title i).

Lemma post_loop_store_ok (game : Game) (issues : list Review.Issue) (w : World) :
  store_ok (db w) ->
  NoDup (List.map dedup_key issues) ->
  Forall (fun i => final_dedup (db w) (game_key game) (Review.file i)
                     (Review.title i) = false) issues ->
  store_ok (db (snd (post_loop game issues w))).
Proof.
  revert w. induction issues as [|i rest IH]; intros w Hok Hnd Hnew; [done|].
  cbn [List.map] in Hnd. apply NoDup_cons in Hnd as [Hi Hnd].
  inversion Hnew as [|? ? Hdi Hrest]; subst.
  cbn [Daemon.post_loop now db].
  destruct (add_issue (db w) _ _ _ _ _ _ _ _ _ _) as [[d key]|e] eqn:E;
    [|done].
  destruct (add_issue_store_ok _ _ _ _ _ _ _ _ _ _ _ _ _ Hok Hdi E)
    as [Hd Hother].
  unfold channel_send. cbn [db sent with_db].
  destruct (send _ _) as [msg_id|]; [|done].
  apply IH; cbn [db with_db]; [by apply update_issue_message_id_store_ok|done|].
  rewrite List.Forall_forall in *. intros j Hj.
  rewrite final_dedup_update_issue_message_id, Hother; [by apply Hrest|].
  intros Heq. apply Hi. rewrite list_elem_of_In, in_map_iff. by exists j.
Qed.

(** A batch with no two findings of one file and title keeps the store in
    order. *)
Lemma persist_new_store_ok (game : Game) (issues : list Review.Issue)
    (w : World) :
  store_ok (db w) -> NoDup (List.map dedup_key issues) ->
  store_ok (db (snd (persist_new game issues w))).
Proof.
  intros Hok Hnd. unfold Daemon.persist_new.
  set (keep := fun i => negb (final_dedup (db w) (game_key game)
                                (Review.file i) (Review.title i))).
  assert (Hnd' : NoDup (List.map dedup_key (List.filter keep issues)))
    by (by apply NoDup_map_filter).
  assert (Hnew : Forall (fun i => final_dedup (db w) (game_key game)
                     (Review.file i) (Review.title i) = false)
                   (List.filter keep issues)).
  { apply List.Forall_forall. intros i [_ Hi]%filter_In.
    by apply negb_true_iff in Hi. }
  destruct (List.filter keep issues) as [|i0 more] eqn:E; [done|].
  rewrite <- E in *. unfold Daemon._post_issues.
  destruct channel_found; [|done]. cbn [negb]. unfold channel_send.
  destruct (send (sent w) _); [|done].
  by apply post_loop_store_ok.
Qed.

Lemma auto_resolve_loop_store_ok (us : list DBIssue) (changed : list str)
    (acc : list Z) (w : World) :
  store_ok (db w) ->
  store_ok (db (snd (Daemon.auto_resolve_loop clock us changed acc w))).
Proof.
  revert acc w. induction us as [|u us IH]; intros acc w Hok; [done|].
  cbn [Daemon.auto_resolve_loop].
  destruct (str_in _ changed); [|by apply IH].
  cbn [now]. apply IH. cbn [db with_db]. by apply resolve_issue_store_ok.
Qed.

(** X25: the operations of the orchestrator keep open findings unique,
    provided no batch repeats a file and title. *)
Lemma store_ok_preserved (game : Game) (w : World) :
  store_ok (db w) ->
  (forall changed,
      store_ok (db (snd (Daemon._auto_resolve clock (game_key game) changed w))))
  /\ (forall k user, store_ok (db (mark_fixed clock k user w)))
  /\ (forall issues, NoDup (List.map dedup_key issues) ->
        store_ok (db (snd (persist_new game issues w)))).
Proof.
  intros Hok. split; [|split].
  - intros changed. by apply auto_resolve_loop_store_ok.
  - intros k user. unfold mark_fixed. cbn. by apply resolve_issue_store_ok.
  - intros issues Hnd. by apply persist_new_store_ok.
Qed.





End Persist.

(** *** Concrete runs *)

Definition fixed_clock : nat -> str := fun _ => py "2026-01-02T00:00:00+00:00".

(** A channel in which every post succeeds; the n-th message gets id n. *)
Definition send_ok : list Message -> Message -> option str :=
  fun posted _ => Some (str_of_Z (Z.of_nat (length posted))).

Definition no_message : pyexc -> str := fun _ => [].

Definition game1 : Game :=
  {| game_key := 1;
     game_row :=
       {| discord_server_id := py "900"; place_id := 42;
          channel_id := py "77"; api_key_encrypted := [];
          added_by := py "5"; working_dir := py "data/900/42";
          last_sync_at := Some (py "2026-01-01T00:00:00+00:00");
          last_error := None; last_error_at := None;
          error_count := Some 0%Z;
          game_created_at := py "2026-01-01 00:00:00" |} |}.

(** The store holds [game1] and no finding. *)
Definition world0 : World :=
  {| db := DbFacts.one_game; tick := 0; requests := []; sent := [] |}.

Definition unsafe_call : Review.Issue :=
  {| Review.file := py "x.lua"; Review.line_start := 5; Review.line_end := 5;
     Review.severity := py "High"; Review.title := py "Unsafe call";
     Review.explanation := py "..."; Review.suggestion := py "..." |}.

Lemma persist_new_duplicate_batch_witness :
  let r := persist_new fixed_clock true send_ok game1
             [unsafe_call; unsafe_call] world0 in
  fst r = Ok tt
  /\ exists k1 k2 r1 r2,
      k1 <> k2
      /\ Db.issues (db (snd r)) !! k1 = Some r1
      /\ Db.issues (db (snd r)) !! k2 = Some r2
      /\ open_duplicate 1 (py "x.lua") (py "Unsafe call") r1 = true
      /\ open_duplicate 1 (py "x.lua") (py "Unsafe call") r2 = true.
Proof.
  apply (persist_new_duplicate_batch fixed_clock true send_ok game1
           (game_row game1) unsafe_call world0); try done.
Defined.

(** The same run, counted: two open findings with one file and title. *)
Lemma duplicate_batch_count :
  length
    (List.filter
       (fun kv => open_duplicate 1 (py "x.lua") (py "Unsafe call") (snd kv))
       (map_to_list
          (Db.issues
             (db (snd (persist_new fixed_clock true send_ok game1
                         [unsafe_call; unsafe_call] world0))))))
  = 2%nat.
Proof. by vm_compute. Qed.










End DaemonFacts.

(** ** Facts about the credential codec *)

Module SecurityFacts.
Import Security.

(** SHA-256 of the empty message and of a two-block message, as
    [hashlib] gives them. *)
Example sha256_empty :
  sha256 []
  = [227; 176; 196; 66; 152; 252; 28; 20; 154; 251; 244; 200; 153; 111; 185;
     36; 39; 174; 65; 228; 100; 155; 147; 76; 164; 149; 153; 27; 120; 82;
     184; 85].
Proof. by vm_compute. Qed.

Example sha256_two_blocks :
  sha256 (repeat 97 100)
  = [40; 22; 89; 120; 136; 228; 160; 211; 163; 107; 130; 184; 51; 22; 171;
     50; 104; 14; 184; 240; 15; 140; 211; 185; 4; 214; 129; 36; 109; 40; 90;
     14].
Proof. by vm_compute. Qed.

Definition octets (b : bytes) : Prop := Forall (fun x => x < 256) b.

Lemma be_bytes_length (n : nat) (x : N) : length (be_bytes n x) = n.
Proof. induction n; cbn; congruence. Qed.

Lemma be_bytes_octets (n : nat) (x : N) : octets (be_bytes n x).
Proof.
  induction n; cbn [be_bytes]; constructor; [|done]. by apply N.mod_lt.
Qed.

Lemma sha256_length (m : bytes) : length (sha256 m) = 32%nat.
Proof.
  unfold sha256, digest_of. by rewrite !length_app, !be_bytes_length.
Qed.

Lemma sha256_octets (m : bytes) : octets (sha256 m).
Proof.
  unfold sha256, digest_of, octets.
  rewrite !Forall_app. repeat split; apply be_bytes_octets.
Qed.

(** *** Base64 round trip *)

(** A check of every number below [n]. *)
Definition all_below (n : nat) (P : N -> bool) : bool :=
  forallb P (List.map N.of_nat (seq 0 n)).

Lemma all_below_spec (n : nat) (P : N -> bool) :
  all_below n P = true -> forall v, v < N.of_nat n -> P v = true.
Proof.
  unfold all_below. rewrite forallb_forall. intros H v Hv. apply H.
  apply in_map_iff. exists (N.to_nat v). split; [lia|].
  apply in_seq. lia.
Qed.

Lemma b64_value_char (v : N) :
  v < 64 -> b64_value (b64_char v) = Some v /\ (b64_char v =? PAD) = false.
Proof.
  intros Hv.
  assert (H : all_below 64
                (fun v => match b64_value (b64_char v) with
                          | Some v' => (v' =? v) && negb (b64_char v =? PAD)
                          | None => false
                          end) = true) by (by vm_compute).
  apply all_below_spec with (v := v) in H; [|done].
  destruct (b64_value (b64_char v)) as [v'|]; [|done].
  apply andb_prop in H as [->%N.eqb_eq H]. by destruct (b64_char v =? PAD).
Qed.

(** One alphabet character in front of the data. *)
Lemma a2b_base64_char (v : N) (rest : bytes) (quad_pos leftchar pads : N) :
  v < 64 ->
  a2b_base64 (b64_char v :: rest) quad_pos leftchar pads
  = if quad_pos =? 0 then a2b_base64 rest 1 v 0
    else if quad_pos =? 1 then
      cons (leftchar * 4 + v / 16) <$> a2b_base64 rest 2 (v mod 16) 0
    else if quad_pos =? 2 then
      cons (leftchar * 16 + v / 4) <$> a2b_base64 rest 3 (v mod 4) 0
    else cons (leftchar * 64 + v) <$> a2b_base64 rest 0 0 0.
Proof.
  intros Hv. destruct (b64_value_char v Hv) as [Hval Hpad].
  cbn [a2b_base64]. by rewrite Hpad, Hval.
Qed.

Lemma sextets (a b c : N) :
  a < 256 -> b < 256 -> c < 256 ->
  a / 4 < 64 /\ a mod 4 * 16 + b / 16 < 64
  /\ b mod 16 * 4 + c / 64 < 64 /\ c mod 64 < 64
  /\ a mod 4 * 16 < 64 /\ b mod 16 * 4 < 64.
Proof.
  intros Ha Hb Hc.
  pose proof (N.mod_lt a 4). pose proof (N.mod_lt b 16).
  pose proof (N.mod_lt c 64).
  assert (a / 4 < 64) by (apply N.Div0.div_lt_upper_bound; lia).
  assert (b / 16 < 16) by (apply N.Div0.div_lt_upper_bound; lia).
  assert (c / 64 < 4) by (apply N.Div0.div_lt_upper_bound; lia).
  lia.
Qed.

Lemma octet_pair_facts (a b : N) :
  a < 256 -> b < 256 ->
  a / 4 * 4 + (a mod 4 * 16 + b / 16) / 16 = a
  /\ (a mod 4 * 16 + b / 16) mod 16 = b / 16
  /\ (a mod 4 * 16) / 16 = a mod 4
  /\ (a mod 16 * 4 + b / 64) / 4 = a mod 16
  /\ (a mod 16 * 4 + b / 64) mod 4 = b / 64
  /\ a / 16 * 16 + a mod 16 = a
  /\ a / 64 * 64 + a mod 64 = a
  /\ (a mod 16 * 4) / 4 = a mod 16.
Proof.
  intros Ha Hb.
  assert (H : all_below 256 (fun a => all_below 256 (fun b =>
     (a / 4 * 4 + (a mod 4 * 16 + b / 16) / 16 =? a)
     && ((a mod 4 * 16 + b / 16) mod 16 =? b / 16)
     && ((a mod 4 * 16) / 16 =? a mod 4)
     && ((a mod 16 * 4 + b / 64) / 4 =? a mod 16)
     && ((a mod 16 * 4 + b / 64) mod 4 =? b / 64)
     && (a / 16 * 16 + a mod 16 =? a)
     && (a / 64 * 64 + a mod 64 =? a)
     && ((a mod 16 * 4) / 4 =? a mod 16))) = true) by (by vm_compute).
  apply all_below_spec with (v := a) in H; [|done].
  apply all_below_spec with (v := b) in H; [|done].
  repeat (apply andb_prop in H as [H ?%N.eqb_eq]). apply N.eqb_eq in H.
  done.
Qed.

Lemma a2b_base64_encode (d : bytes) :
  octets d -> a2b_base64 (urlsafe_b64encode d) 0 0 0 = Some d.
Proof.
  remember (length d) as n eqn:Hn. revert d Hn.
  induction n as [n IH] using lt_wf_ind. intros d Hn Hd.
  destruct d as [|a [|b [|c rest]]].
  - reflexivity.
  - inversion Hd as [|? ? Ha _]; subst.
    destruct (sextets a 0 0) as (H1 & _ & _ & _ & H2 & _); [done..|].
    destruct (octet_pair_facts a 0) as (_ & _ & E & _); [done..|].
    cbn [urlsafe_b64encode].
    rewrite !a2b_base64_char by done. cbn [N.eqb Pos.eqb fmap option_fmap option_map].
    change (a2b_base64 [PAD; PAD] 2 (a mod 4 * 16 mod 16) 0) with (Some (@nil N)).
    cbn. f_equal. f_equal. rewrite E.
    pose proof (N.div_mod a 4). lia.
  - inversion Hd as [|? ? Ha Hd']; subst. inversion Hd' as [|? ? Hb _]; subst.
    destruct (sextets a b 0) as (H1 & H2 & _ & _ & _ & H3); [done..|].
    destruct (octet_pair_facts a b) as (E1 & E2 & _); [done..|].
    destruct (octet_pair_facts b 0) as (_ & _ & _ & _ & _ & E3 & _ & E4); [done..|].
    cbn [urlsafe_b64encode].
    rewrite !a2b_base64_char by done. cbn [N.eqb Pos.eqb fmap option_fmap option_map].
    change (a2b_base64 [PAD] 3 (b mod 16 * 4 mod 4) 0) with (Some (@nil N)).
    cbn. rewrite E1, E2, E4, E3. done.
  - inversion Hd as [|? ? Ha Hd']; subst. inversion Hd' as [|? ? Hb Hd'']; subst.
    inversion Hd'' as [|? ? Hc Hrest]; subst.
    destruct (sextets a b c) as (H1 & H2 & H3 & H4 & _); [done..|].
    destruct (octet_pair_facts a b) as (E1 & E2 & _); [done..|].
    destruct (octet_pair_facts b c) as (_ & _ & _ & E3 & E4 & E5 & _); [done..|].
    destruct (octet_pair_facts c 0) as (_ & _ & _ & _ & _ & _ & E6 & _); [done..|].
    cbn [urlsafe_b64encode].
    rewrite !a2b_base64_char by done. cbn [N.eqb Pos.eqb].
    rewrite (IH (length rest)) by (cbn in *; first [lia | done]).
    cbn. rewrite E1, E2, E3, E5, E4, E6. done.
Qed.

(** A key made of 32 octets is accepted, and split in halves. *)
Lemma Fernet_new_encoded (d : bytes) :
  octets d -> length d = 32%nat ->
  Fernet_new (urlsafe_b64encode d)
  = Ok {| signing_key := firstn 16 d; encryption_key := skipn 16 d |}.
Proof.
  intros Hd Hlen. unfold Fernet_new, urlsafe_b64decode.
  rewrite a2b_base64_encode by done. by rewrite Hlen.
Qed.

(** The key object a secret is hashed to. *)
Definition derived_fernet (secret : bytes) : Fernet :=
  {| signing_key := firstn 16 (sha256 secret);
     encryption_key := skipn 16 (sha256 secret) |}.

(** Outside the ready-made-key form, the key is the hash of the secret. *)
Lemma init_encryption_hashed (key : str) (kb entropy : bytes) :
  key <> [] -> looks_like_key key = false -> utf8_encode key = Ok kb ->
  init_encryption key entropy = Ok (derived_fernet kb).
Proof.
  intros Hne Hform Henc. unfold init_encryption.
  destruct key as [|c key]; [done|]. rewrite Hform, Henc.
  change (Fernet_new (urlsafe_b64encode (sha256 kb)) = Ok (derived_fernet kb)).
  apply Fernet_new_encoded; [apply sha256_octets | apply sha256_length].
Qed.

(** In the ready-made-key form the secret itself is handed to [Fernet]. *)
Lemma init_encryption_verbatim (key : str) (kb entropy : bytes) :
  looks_like_key key = true -> utf8_encode key = Ok kb ->
  init_encryption key entropy = Fernet_new kb.
Proof.
  intros Hform Henc. unfold init_encryption.
  destruct key as [|c key]; [done|]. by rewrite Hform, Henc.
Qed.

Section Cipher.

Variable fernet_encrypt : Fernet -> bytes -> bytes -> bytes.
Variable fernet_decrypt : Fernet -> bytes -> option bytes.
Variable utf8_decode : bytes -> option str.

(** C8 (amended). For every non-empty secret that encodes as UTF-8 and is
    not a 44-character string ending in [=], initialization binds the key
    derived from the SHA-256 hash of the secret, whatever the random source
    holds; two initializations bind the same key, and given a cipher whose
    [decrypt] inverts [encrypt] under one key, a credential encrypted after
    one initialization is decrypted to itself after the other. *)
Theorem init_encryption_deterministic
    (key : str) (kb entropy1 entropy2 : bytes)
    (plaintext : str) (pb random : bytes) :
  (forall f r p, fernet_decrypt f (fernet_encrypt f r p) = Some p) ->
  key <> [] -> looks_like_key key = false -> utf8_encode key = Ok kb ->
  utf8_encode plaintext = Ok pb -> utf8_decode pb = Some plaintext ->
  init_encryption key entropy1 = Ok (derived_fernet kb)
  /\ init_encryption key entropy2 = init_encryption key entropy1
  /\ forall f1 f2,
      init_encryption key entropy1 = Ok f1 ->
      init_encryption key entropy2 = Ok f2 ->
      (blob ← encrypt_api_key fernet_encrypt (Some f1) random plaintext;
       decrypt_api_key fernet_decrypt utf8_decode (Some f2) blob)
      = Ok plaintext.
Proof.
  intros Hcipher Hne Hform Hkey Hp Hdec.
  rewrite !(init_encryption_hashed key kb) by done.
  split; [done|]. split; [done|]. intros f1 f2 [= <-] [= <-].
  unfold encrypt_api_key, decrypt_api_key. rewrite Hp.
  cbn [mbind result_bind]. by rewrite Hcipher, Hdec.
Qed.

End Cipher.

(** A cipher for the concrete run: the identity, which [decrypt] inverts. *)
Definition plain_encrypt : Fernet -> bytes -> bytes -> bytes := fun _ _ p => p.
Definition plain_decrypt : Fernet -> bytes -> option bytes := fun _ c => Some c.
Definition ascii_decode : bytes -> option str := Some.

Lemma init_encryption_deterministic_witness :
  init_encryption (py "hunter2") [1; 2; 3] = Ok (derived_fernet (py "hunter2"))
  /\ init_encryption (py "hunter2") [] = init_encryption (py "hunter2") [1; 2; 3]
  /\ forall f1 f2,
      init_encryption (py "hunter2") [1; 2; 3] = Ok f1 ->
      init_encryption (py "hunter2") [] = Ok f2 ->
      (blob ← encrypt_api_key plain_encrypt (Some f1) [] (py "api-key");
       decrypt_api_key plain_decrypt ascii_decode (Some f2) blob)
      = Ok (py "api-key").
Proof.
  apply (init_encryption_deterministic plain_encrypt plain_decrypt ascii_decode
           (py "hunter2") (py "hunter2") [1; 2; 3] [] (py "api-key")
           (py "api-key") []); by vm_compute.
Defined.

(** Forty-four equals signs: a non-empty secret in the ready-made-key
    form. *)
Definition padding_only : str := repeat 61 44.

(** A string of the same form that is a valid key: 32 zero octets. *)
Definition zero_key : str := repeat 65 43 ++ [61].

(** C8 (counterexample). The secret [padding_only] is not hashed: it is
    handed to [Fernet] as it stands, decodes to no octet at all, and
    initialization raises [ValueError], so no key is bound. The secret
    [zero_key] is not hashed either: its key is the 32 zero octets it
    spells, not the digest of the secret. *)
Lemma init_encryption_ready_made_key :
  init_encryption padding_only [] = Raise ValueError
  /\ init_encryption zero_key []
     = Ok {| signing_key := repeat 0 16; encryption_key := repeat 0 16 |}
  /\ derived_fernet zero_key
     = {| signing_key :=
            [81; 100; 62; 172; 151; 119; 182; 58; 123; 38; 129; 116; 209;
             253; 66; 118];
          encryption_key :=
            [218; 237; 236; 155; 201; 234; 11; 198; 229; 171; 246; 144; 71;
             188; 84; 246] |}.
Proof. by vm_compute. Qed.

End SecurityFacts.

(** ** The tables of db.py *)

Module StoreFacts.
Import Db Store.

(** What the schema promises: foreign keys resolve, a server holds a place
    once, and no key is beyond its sequence. *)
Definition fk_ok (t : Tables) : Prop :=
  (forall k r, games (core t) !! k = Some r ->
     is_Some (allowed_servers t !! discord_server_id r))
  /\ (forall k r, issues (core t) !! k = Some r ->
        is_Some (games (core t) !! game_id r)).

Definition unique_ok (t : Tables) : Prop :=
  forall k1 k2 r1 r2,
    games (core t) !! k1 = Some r1 -> games (core t) !! k2 = Some r2 ->
    discord_server_id r1 = discord_server_id r2 -> place_id r1 = place_id r2 ->
    k1 = k2.

Definition seq_ok (t : Tables) : Prop :=
  (forall k r, games (core t) !! k = Some r -> (k <= games_seq t)%Z)
  /\ (forall k r, issues (core t) !! k = Some r -> (k <= issues_seq (core t))%Z).

Definition schema_ok (t : Tables) : Prop := fk_ok t /\ unique_ok t /\ seq_ok t.

Lemma str_eqb_true (a b : str) : str_eqb a b = true <-> a = b.
Proof.
  revert b. induction a as [|x a IH]; intros [|y b]; cbn; try easy.
  rewrite andb_true_iff, N.eqb_eq, IH. split; [intros [-> ->]|intros [= -> ->]]; auto.
Qed.

Lemma str_eqb_false (a b : str) : str_eqb a b = false <-> a <> b.
Proof.
  rewrite <- not_true_iff_false, str_eqb_true. tauto.
Qed.

Lemma game_at_true (s : str) (p : Z) (kv : Z * GameRow) :
  game_at s p kv = true <-> discord_server_id kv.2 = s /\ place_id kv.2 = p.
Proof.
  unfold game_at. by rewrite andb_true_iff, str_eqb_true, Z.eqb_eq.
Qed.

Lemma find_map_to_list_None {A} (f : Z * A -> bool) (m : gmap Z A) :
  List.find f (map_to_list m) = None
  <-> forall k r, m !! k = Some r -> f (k, r) = false.
Proof.
  split.
  - intros H k r Hr. apply (find_none _ _ H (k, r)).
    apply list_elem_of_In. by apply elem_of_map_to_list.
  - intros H. destruct (List.find f (map_to_list m)) as [[k r]|] eqn:E; [|done].
    apply find_some in E as [Hin Hf].
    apply list_elem_of_In, elem_of_map_to_list in Hin.
    by rewrite (H k r Hin) in Hf.
Qed.

Lemma find_map_to_list_Some {A} (f : Z * A -> bool) (m : gmap Z A) kv :
  List.find f (map_to_list m) = Some kv -> m !! kv.1 = Some kv.2 /\ f kv = true.
Proof.
  intros [Hin Hf]%find_some. split; [|done].
  apply list_elem_of_In in Hin. destruct kv. by apply elem_of_map_to_list.
Qed.


Lemma existsb_find_None {A} (f : A -> bool) (l : list A) :
  existsb f l = false <-> List.find f l = None.
Proof.
  induction l as [|x l IH]; cbn; [done|]. destruct (f x); cbn; [done|apply IH].
Qed.

Lemma get_game_None (t : Tables) (s : str) (p : Z) :
  get_game t s p = None
  <-> forall k r, games (core t) !! k = Some r -> game_at s p (k, r) = false.
Proof.
  unfold get_game. rewrite fmap_None. apply find_map_to_list_None.
Qed.

Lemma get_game_Some (t : Tables) (s : str) (p : Z) (g : Game) :
  get_game t s p = Some g ->
  games (core t) !! game_key g = Some (game_row g)
  /\ discord_server_id g = s /\ place_id g = p.
Proof.
  unfold get_game. intros (kv & E & ->)%fmap_Some.
  apply find_map_to_list_Some in E as [Hkv Hf].
  apply game_at_true in Hf. by destruct kv.
Qed.

(** The row [add_game] inserts. *)
Definition new_game (s : str) (p : Z) (ch : str) (key : list N)
    (by_ dir now : str) : GameRow :=
  {| discord_server_id := s; place_id := p; channel_id := ch;
     api_key_encrypted := key; added_by := by_; working_dir := dir;
     last_sync_at := None; last_error := None; last_error_at := None;
     error_count := Some 0%Z; game_created_at := now |}.


Lemma delete_games_games (dead : Z * GameRow -> bool) (db : Database) k r :
  games (delete_games dead db) !! k = Some r
  <-> games db !! k = Some r /\ dead (k, r) = false.
Proof.
  cbn. rewrite map_lookup_filter_Some. cbn.
  by rewrite negb_True, <- Is_true_false.
Qed.

Lemma delete_games_issues (dead : Z * GameRow -> bool) (db : Database) k r :
  issues (delete_games dead db) !! k = Some r
  <-> issues db !! k = Some r
      /\ (forall g, games db !! game_id r = Some g -> dead (game_id r, g) = false).
Proof.
  cbn. rewrite map_lookup_filter_Some, map_lookup_filter_None. cbn.
  split; intros [Hr H]; (split; [done|]).
  - intros g Hg. destruct H as [H|H]; [congruence|].
    apply Is_true_false. by apply H.
  - destruct (games db !! game_id r) as [g|] eqn:Hg; [right|by left].
    intros g' [= <-]. apply Is_true_false. by apply H.
Qed.

Lemma get_games_for_server_nil (t : Tables) (s : str) :
  get_games_for_server t s = []
  <-> forall k r, games (core t) !! k = Some r -> discord_server_id r <> s.
Proof.
  unfold get_games_for_server. split.
  - intros H k r Hr Hs. apply map_eq_nil in H.
    assert (Hin : In (k, r) (List.filter (of_server s) (map_to_list (games (core t))))).
    { apply filter_In. split.
      - by apply list_elem_of_In, elem_of_map_to_list.
      - unfold of_server. by apply str_eqb_true. }
    by rewrite H in Hin.
  - intros H.
    destruct (List.filter _ _) as [|[k r] l] eqn:E; [done|].
    assert (Hin : In (k, r) (List.filter (of_server s) (map_to_list (games (core t)))))
      by (rewrite E; by left).
    apply filter_In in Hin as [Hin Hs].
    apply list_elem_of_In, elem_of_map_to_list in Hin.
    apply str_eqb_true in Hs. by destruct (H k r Hin).
Qed.

(** X2: [remove_game] reports whether the place was monitored; afterwards the
    place is not monitored, the issues of a removed game are gone with it,
    and every other game and issue is as before. *)
Theorem remove_game_cascade (t : Tables) (s : str) (p : Z) :
  ((remove_game t s p).2 = true <-> is_Some (get_game t s p))
  /\ get_game (remove_game t s p).1 s p = None
  /\ (forall g k r, get_game t s p = Some g ->
        issues (core (remove_game t s p).1) !! k = Some r ->
        game_id r <> game_key g)
  /\ (forall k r, games (core (remove_game t s p).1) !! k = Some r
        <-> games (core t) !! k = Some r /\ game_at s p (k, r) = false)
  /\ (forall k r, issues (core (remove_game t s p).1) !! k = Some r
        <-> issues (core t) !! k = Some r
            /\ (forall g, games (core t) !! game_id r = Some g ->
                  game_at s p (game_id r, g) = false))
  /\ allowed_servers (remove_game t s p).1 = allowed_servers t
  /\ admins (remove_game t s p).1 = admins t.
Proof.
  unfold remove_game. cbn [fst snd].
  split; [|split; [|split; [|split; [|split; [|done]]]]].
  - unfold get_game. rewrite fmap_is_Some.
    destruct (existsb _ _) eqn:E.
    + split; [intros _|done].
      destruct (List.find _ _) eqn:F; [done|].
      apply existsb_find_None in F. congruence.
    + split; [done|]. apply existsb_find_None in E. rewrite E. by intros [? [=]].
  - apply get_game_None. intros k r Hr.
    change (games (core (with_core t ?d))) with (games d) in Hr.
    by apply delete_games_games in Hr as [_ Hr].
  - intros g k r Hg Hr Heq.
    change (issues (core (with_core t ?d))) with (issues d) in Hr.
    apply delete_games_issues in Hr as [_ Hr].
    apply get_game_Some in Hg as (Hg & Hs & Hp).
    rewrite Heq in Hr. specialize (Hr _ Hg).
    apply not_true_iff_false in Hr. apply Hr. by apply game_at_true.
  - intros k r. apply delete_games_games.
  - intros k r. apply delete_games_issues.
Qed.

(** X3: [revoke_server] takes the server off the whitelist and, with it, every
    game of the server and every issue of those games; games of other
    servers and their issues stay; revoking a server that is not on the list
    changes nothing. *)
Theorem revoke_server_cascade (t : Tables) (s : str) :
  is_server_allowed (revoke_server t s) s = false
  /\ (is_server_allowed t s = false -> revoke_server t s = t)
  /\ (is_server_allowed t s = true ->
        get_games_for_server (revoke_server t s) s = []
        /\ (forall k r, games (core (revoke_server t s)) !! k = Some r
              <-> games (core t) !! k = Some r /\ discord_server_id r <> s)
        /\ (forall k r, issues (core (revoke_server t s)) !! k = Some r
              <-> issues (core t) !! k = Some r
                  /\ (forall g, games (core t) !! game_id r = Some g ->
                        discord_server_id g <> s)))
  /\ (forall s', s' <> s ->
        is_server_allowed (revoke_server t s) s' = is_server_allowed t s').
Proof.
  unfold revoke_server, is_server_allowed.
  destruct (allowed_servers t !! s) as [srv|] eqn:Hs.
  - cbn [allowed_servers with_servers core].
    assert (Hg : forall k r,
               games (delete_games (of_server s) (core t)) !! k = Some r
               <-> games (core t) !! k = Some r /\ discord_server_id r <> s).
    { intros k r. rewrite delete_games_games. unfold of_server. cbn.
      by rewrite str_eqb_false. }
    split; [|split; [|split]].
    + apply bool_decide_eq_false. rewrite lookup_delete_eq. by intros [? [=]].
    + rewrite bool_decide_eq_false. intros H. by destruct H.
    + intros _. split; [|split; [done|]].
      * apply get_games_for_server_nil. intros k r Hr. by apply Hg in Hr as [_ ?].
      * intros k r. rewrite delete_games_issues. unfold of_server. cbn.
        split; intros [Hr H]; (split; [done|]); intros g Hgr;
          specialize (H g Hgr); by apply str_eqb_false.
    + intros s' Hne. by rewrite lookup_delete_ne.
  - split; [|split; [done|split]].
    + apply bool_decide_eq_false. rewrite ?Hs. by intros [? [=]].
    + rewrite bool_decide_eq_true, ?Hs. by intros [? [=]].
    + done.
Qed.

(** X4: [approve_server] of a server that is already on the whitelist replaces
    its row, and the replaced row takes the server's games and their issues
    with it; a server approved for the first time leaves games and issues
    alone. Either way the server is on the list afterwards, with the new
    name and approver. *)
Theorem approve_server_replaces (t : Tables) (s : str) (name : option str)
    (by_ now : str) :
  allowed_servers (approve_server t s name by_ now) !! s
  = Some {| server_name := name; approved_by := by_; approved_at := now |}
  /\ (is_server_allowed t s = false ->
        core (approve_server t s name by_ now) = core t)
  /\ (is_server_allowed t s = true ->
        get_games_for_server (approve_server t s name by_ now) s = []
        /\ (forall k r,
              games (core (approve_server t s name by_ now)) !! k = Some r
              <-> games (core t) !! k = Some r /\ discord_server_id r <> s)
        /\ (forall k r,
              issues (core (approve_server t s name by_ now)) !! k = Some r
              <-> issues (core t) !! k = Some r
                  /\ (forall g, games (core t) !! game_id r = Some g ->
                        discord_server_id g <> s))).
Proof.
  unfold approve_server, is_server_allowed.
  destruct (allowed_servers t !! s) as [srv|] eqn:Hs;
    cbn [allowed_servers with_servers core].
  - assert (Hg : forall k r,
               games (delete_games (of_server s) (core t)) !! k = Some r
               <-> games (core t) !! k = Some r /\ discord_server_id r <> s).
    { intros k r. rewrite delete_games_games. unfold of_server. cbn.
      by rewrite str_eqb_false. }
    split; [by rewrite lookup_insert_eq|split].
    + rewrite bool_decide_eq_false. intros H. by destruct H.
    + intros _. split; [|split; [done|]].
      * apply get_games_for_server_nil. intros k r Hr. by apply Hg in Hr as [_ ?].
      * intros k r. rewrite delete_games_issues. unfold of_server. cbn.
        split; intros [Hr H]; (split; [done|]); intros g Hgr;
          specialize (H g Hgr); by apply str_eqb_false.
  - split; [by rewrite lookup_insert_eq|split; [done|]].
    rewrite bool_decide_eq_true, ?Hs. by intros [? [=]].
Qed.

(** *** The constraints of the schema hold in every reachable state *)

Lemma delete_games_schema_ok (t : Tables) (dead : Z * GameRow -> bool) :
  schema_ok t -> schema_ok (with_core t (delete_games dead (core t))).
Proof.
  intros ((Hg & Hi) & Hu & (Hsg & Hsi)).
  split; [split|split; [|split]]; cbn [core with_core allowed_servers games_seq].
  - intros k r [Hr _]%delete_games_games. by apply (Hg k r).
  - intros k r [Hr Hd]%delete_games_issues.
    destruct (Hi k r Hr) as [g Hgr]. exists g.
    apply delete_games_games. split; [done|by apply Hd].
  - intros k1 k2 r1 r2 [H1 _]%delete_games_games [H2 _]%delete_games_games.
    by apply Hu.
  - intros k r [Hr _]%delete_games_games. by apply (Hsg k r).
  - intros k r [Hr _]%delete_games_issues. by apply (Hsi k r).
Qed.

Lemma alter_games_schema_ok (t : Tables) (f : GameRow -> GameRow) (g : Z) :
  (forall r, discord_server_id (f r) = discord_server_id r
             /\ place_id (f r) = place_id r) ->
  schema_ok t ->
  schema_ok (with_core t (with_games (core t) (alter f g (games (core t))))).
Proof.
  intros Hf ((Hg & Hi) & Hu & (Hsg & Hsi)).
  assert (Hpre : forall k r, alter f g (games (core t)) !! k = Some r ->
            exists r0, games (core t) !! k = Some r0
                       /\ discord_server_id r = discord_server_id r0
                       /\ place_id r = place_id r0).
  { intros k r. destruct (decide (g = k)) as [<-|Hne].
    - rewrite lookup_alter_eq. intros (r0 & Hr0 & ->)%fmap_Some.
      exists r0. split; [done|]. apply Hf.
    - rewrite lookup_alter_ne by done. intros Hr. by exists r. }
  split; [split|split; [|split]];
    cbn [core with_core with_games allowed_servers games_seq games issues issues_seq].
  - intros k r (r0 & Hr0 & -> & _)%Hpre. by apply (Hg k r0).
  - intros k r Hr. destruct (Hi k r Hr) as [g0 Hg0].
    destruct (decide (g = game_id r)) as [E|Hne].
    + rewrite E, lookup_alter_eq, Hg0. by eexists.
    + rewrite lookup_alter_ne by done. by eexists.
  - intros k1 k2 r1 r2 (a1 & H1 & -> & ->)%Hpre (a2 & H2 & -> & ->)%Hpre.
    by apply Hu.
  - intros k r (r0 & Hr0 & _)%Hpre. by apply (Hsg k r0).
  - done.
Qed.

Lemma alter_issues_schema_ok (t : Tables) (f : IssueRow -> IssueRow) (i : Z) :
  (forall r, game_id (f r) = game_id r) ->
  schema_ok t ->
  schema_ok (with_core t (with_issues (core t) (alter f i (issues (core t))))).
Proof.
  intros Hf ((Hg & Hi) & Hu & (Hsg & Hsi)).
  assert (Hpre : forall k r, alter f i (issues (core t)) !! k = Some r ->
            exists r0, issues (core t) !! k = Some r0 /\ game_id r = game_id r0).
  { intros k r. destruct (decide (i = k)) as [<-|Hne].
    - rewrite lookup_alter_eq. intros (r0 & Hr0 & ->)%fmap_Some.
      exists r0. split; [done|]. apply Hf.
    - rewrite lookup_alter_ne by done. intros Hr. by exists r. }
  split; [split|split; [|split]];
    cbn [core with_core with_issues allowed_servers games_seq games issues issues_seq];
    try done.
  - intros k r (r0 & Hr0 & ->)%Hpre. by apply (Hi k r0).
  - intros k r (r0 & Hr0 & _)%Hpre. by apply (Hsi k r0).
Qed.

Lemma approve_server_schema_ok (t : Tables) s name by_ now :
  schema_ok t -> schema_ok (approve_server t s name by_ now).
Proof.
  intros H. unfold approve_server.
  assert (Hins : forall d, schema_ok (with_core t d) ->
            schema_ok (with_servers t d
              (<[s := {| server_name := name; approved_by := by_;
                         approved_at := now |}]> (allowed_servers t)))).
  { intros d ((Hg & Hi) & Hu & Hs). split; [split|split]; try done.
    intros k r Hr. cbn. destruct (decide (s = discord_server_id r)) as [->|Hne].
    - rewrite lookup_insert_eq. by eexists.
    - rewrite lookup_insert_ne by done. by apply (Hg k r). }
  destruct (allowed_servers t !! s).
  - apply Hins. by apply delete_games_schema_ok.
  - apply Hins. by destruct t.
Qed.

Lemma revoke_server_schema_ok (t : Tables) s :
  schema_ok t -> schema_ok (revoke_server t s).
Proof.
  intros H. unfold revoke_server. destruct (allowed_servers t !! s); [|done].
  pose proof (delete_games_schema_ok t (of_server s) H)
    as ((Hg & Hi) & Hu & Hs).
  split; [split|split]; try done.
  intros k r Hr. cbn in Hr |- *. 
  pose proof Hr as [Hr0 Hd]%delete_games_games.
  unfold of_server in Hd. cbn in Hd. apply str_eqb_false in Hd.
  rewrite lookup_delete_ne by done. by apply (Hg k r).
Qed.

Lemma add_game_schema_ok (t t' : Tables) s p ch key by_ dir now k :
  schema_ok t -> add_game t s p ch key by_ dir now = Ok (t', k) ->
  schema_ok t'.
Proof.
  intros ((Hg & Hi) & Hu & (Hsg & Hsi)). unfold add_game.
  destruct (allowed_servers t !! s) as [srv|] eqn:Hsrv; [|done].
  destruct (existsb _ _) eqn:Hex; [done|]. intros [= <- <-].
  apply existsb_find_None in Hex. rewrite find_map_to_list_None in Hex.
  assert (Hfresh : games (core t) !! (games_seq t + 1)%Z = None).
  { destruct (games (core t) !! (games_seq t + 1)%Z) as [r|] eqn:E; [|done].
    specialize (Hsg _ _ E). lia. }
  split; [split|split; [|split]];
    cbn [core with_core with_games allowed_servers games_seq games issues issues_seq].
  - intros k r. destruct (decide (k = (games_seq t + 1)%Z)) as [->|Hne].
    + rewrite lookup_insert_eq. intros [= <-]. cbn. by eexists.
    + rewrite lookup_insert_ne by done. apply Hg.
  - intros k r Hr. destruct (Hi k r Hr) as [g0 Hg0].
    destruct (decide (game_id r = (games_seq t + 1)%Z)) as [E|Hne].
    + rewrite E in Hg0. congruence.
    + rewrite lookup_insert_ne by done. by eexists.
  - intros k1 k2 r1 r2. cbn [games core with_games].
    destruct (decide (k1 = (games_seq t + 1)%Z)) as [->|H1];
      destruct (decide (k2 = (games_seq t + 1)%Z)) as [->|H2];
      rewrite ?lookup_insert_eq, ?lookup_insert_ne by done; try done.
    + intros [= E1] Hr2 Hs' Hp'. subst r1. cbn in Hs', Hp'.
      specialize (Hex _ _ Hr2). apply not_true_iff_false in Hex.
      destruct Hex. by apply game_at_true.
    + intros Hr1 [= E2] Hs' Hp'. subst r2. cbn in Hs', Hp'.
      specialize (Hex _ _ Hr1). apply not_true_iff_false in Hex.
      destruct Hex. by apply game_at_true.
    + apply Hu.
  - intros k r. destruct (decide (k = (games_seq t + 1)%Z)) as [->|Hne].
    + lia.
    + rewrite lookup_insert_ne by done. intros Hr. specialize (Hsg _ _ Hr). lia.
  - done.
Qed.

Lemma add_issue_schema_ok (t : Tables) (d : Database) g m f ls le sev ttl ex su now k :
  schema_ok t ->
  add_issue (core t) g m f ls le sev ttl ex su now = Ok (d, k) ->
  schema_ok (with_core t d).
Proof.
  intros ((Hg & Hi) & Hu & (Hsg & Hsi)). unfold add_issue.
  destruct (games (core t) !! g) as [gr|] eqn:Hgr; [|done]. intros [= <- <-].
  split; [split|split; [|split]];
    cbn [core with_core allowed_servers games_seq games issues issues_seq];
    try done.
  - intros k r. destruct (decide (k = (issues_seq (core t) + 1)%Z)) as [->|Hne].
    + rewrite lookup_insert_eq. intros [= <-]. cbn. by eexists.
    + rewrite lookup_insert_ne by done. apply Hi.
  - intros k r. destruct (decide (k = (issues_seq (core t) + 1)%Z)) as [->|Hne].
    + lia.
    + rewrite lookup_insert_ne by done. intros Hr. specialize (Hsi _ _ Hr). lia.
Qed.

Lemma run_schema_ok (c : Call) (t : Tables) : schema_ok t -> schema_ok (run c t).
Proof.
  intros H. destruct c; cbn [run].
  - by destruct t.
  - by apply approve_server_schema_ok.
  - by apply revoke_server_schema_ok.
  - destruct (add_game _ _ _ _ _ _ _ _) as [[t' k]|] eqn:E; [|done].
    by eapply add_game_schema_ok.
  - by apply delete_games_schema_ok.
  - by apply alter_games_schema_ok.
  - unfold update_last_error.
    destruct (games (core t) !! game) as [row|]; [destruct (same_error _ _)|];
      by apply alter_games_schema_ok.
  - destruct (add_issue _ _ _ _ _ _ _ _ _ _ _) as [[d k]|] eqn:E; [|done].
    by eapply add_issue_schema_ok.
  - by apply alter_issues_schema_ok.
  - by apply alter_issues_schema_ok.
Qed.

Lemma connect_empty_schema_ok (now : str) : schema_ok (connect empty now).
Proof.
  split; [split|split; [|split]]; cbn; intros *; by rewrite ?lookup_empty.
Qed.

(** A run of calls, in order. *)
Definition run_all (calls : list Call) (t : Tables) : Tables :=
  foldl (fun t c => run c t) t calls.

Lemma run_all_schema_ok (calls : list Call) (t : Tables) :
  schema_ok t -> schema_ok (run_all calls t).
Proof.
  revert t. induction calls as [|c calls IH]; intros t Ht; [done|].
  apply IH. by apply run_schema_ok.
Qed.

(** X5: whatever calls of the writing methods follow the creation of the
    database file, every game's server is on the whitelist, every issue's
    game exists, no server holds a place twice, and no key is beyond the
    sequence of its table. *)
Theorem reachable_schema_ok (calls : list Call) (now : str) :
  schema_ok (run_all calls (connect empty now)).
Proof. apply run_all_schema_ok, connect_empty_schema_ok. Qed.

(** *** Keys are not handed out twice *)

(** A key the table has passed and does not hold. *)
Definition retired {A} (seq : Z) (m : gmap Z A) (k : Z) : Prop :=
  (k <= seq)%Z /\ m !! k = None.

Lemma filter_retired {A} (P : Z * A -> Prop) `{!forall x, Decision (P x)}
    (seq : Z) (m : gmap Z A) (k : Z) :
  retired seq m k -> retired seq (filter P m) k.
Proof.
  intros [Hk Hm]. split; [done|]. apply map_lookup_filter_None. by left.
Qed.

Lemma alter_retired {A} (f : A -> A) (i : Z) (seq : Z) (m : gmap Z A) (k : Z) :
  retired seq m k -> retired seq (alter f i m) k.
Proof.
  intros [Hk Hm]. split; [done|]. rewrite lookup_alter.
  destruct (decide (i = k)) as [->|]; by rewrite ?Hm.
Qed.

Lemma insert_retired {A} (x : A) (seq : Z) (m : gmap Z A) (k : Z) :
  retired seq m k -> retired (seq + 1) (<[(seq + 1)%Z := x]> m) k.
Proof.
  intros [Hk Hm]. split; [lia|]. rewrite lookup_insert_ne by lia. done.
Qed.

Lemma run_retired (c : Call) (t : Tables) (k : Z) :
  (retired (games_seq t) (games (core t)) k ->
   retired (games_seq (run c t)) (games (core (run c t))) k)
  /\ (retired (issues_seq (core t)) (issues (core t)) k ->
      retired (issues_seq (core (run c t))) (issues (core (run c t))) k).
Proof.
  destruct c; cbn [run]; try done.
  - unfold approve_server. destruct (allowed_servers t !! server_id); [|done].
    split; apply filter_retired.
  - unfold revoke_server. destruct (allowed_servers t !! server_id); [|done].
    split; apply filter_retired.
  - unfold add_game. destruct (allowed_servers t !! server_id); [|done].
    destruct (existsb _ _); [done|]. split; [apply insert_retired|done].
  - split; apply filter_retired.
  - split; [apply alter_retired|done].
  - unfold update_last_error.
    destruct (games (core t) !! game); [destruct (same_error _ _)|];
      (split; [apply alter_retired|done]).
  - unfold add_issue. destruct (games (core t) !! game); [|done].
    split; [done|apply insert_retired].
  - split; [done|apply alter_retired].
  - split; [done|apply alter_retired].
Qed.

(** X6: a key that [games] or [issues] has passed and no longer holds (its
    row was deleted, or the insert failed) stays without a row, whatever
    calls follow: [AUTOINCREMENT] never hands a key out again, so a key kept
    outside the database cannot come to name another row. *)
Theorem keys_never_reused (calls : list Call) (t : Tables) (k : Z) :
  (retired (games_seq t) (games (core t)) k ->
   games (core (run_all calls t)) !! k = None)
  /\ (retired (issues_seq (core t)) (issues (core t)) k ->
      issues (core (run_all calls t)) !! k = None).
Proof.
  assert (H : (retired (games_seq t) (games (core t)) k ->
               retired (games_seq (run_all calls t))
                 (games (core (run_all calls t))) k)
              /\ (retired (issues_seq (core t)) (issues (core t)) k ->
                  retired (issues_seq (core (run_all calls t)))
                    (issues (core (run_all calls t))) k)).
  { revert t. induction calls as [|c calls IH]; intros t; [done|].
    destruct (run_retired c t k) as [Hg Hi].
    destruct (IH (run c t)) as [Hg' Hi']. split; auto. }
  destruct H as [Hg Hi]. split; intros Hr; [by apply Hg|by apply Hi].
Qed.

(** *** Finding an issue by its message *)

Lemma has_message_true (m : str) (kv : Z * IssueRow) :
  has_message m kv = true <-> discord_message_id kv.2 = Some m.
Proof.
  unfold has_message. destruct (discord_message_id kv.2) as [x|]; [|done].
  rewrite str_eqb_true. split; [by intros ->|by intros [= ->]].
Qed.

(** X7: [get_issue_by_message_id] answers [None] exactly when no issue carries
    the message id, and otherwise an issue of the table that carries it;
    once [update_issue_message_id] has given an issue a message id that no
    other issue carries, the lookup by that id gives this issue back. *)
Theorem get_issue_by_message_id_spec (db : Database) (m : str) :
  (get_issue_by_message_id db m = None
   <-> forall k r, issues db !! k = Some r -> discord_message_id r <> Some m)
  /\ (forall i, get_issue_by_message_id db m = Some i ->
        issues db !! id i = Some (issue_row i)
        /\ discord_message_id (issue_row i) = Some m)
  /\ (forall k r,
        issues db !! k = Some r ->
        (forall k' r', issues db !! k' = Some r' -> k' <> k ->
           discord_message_id r' <> Some m) ->
        get_issue_by_message_id (update_issue_message_id db k m) m
        = Some {| id := k; issue_row := set_message_id m r |}).
Proof.
  assert (Hnone : forall d, get_issue_by_message_id d m = None
            <-> forall k r, issues d !! k = Some r -> discord_message_id r <> Some m).
  { intros d. unfold get_issue_by_message_id.
    rewrite fmap_None, find_map_to_list_None. split; intros H k r Hr.
    - specialize (H k r Hr). rewrite <- not_true_iff_false, has_message_true in H.
      done.
    - rewrite <- not_true_iff_false, has_message_true. by apply (H k r). }
  assert (Hsome : forall d i, get_issue_by_message_id d m = Some i ->
            issues d !! id i = Some (issue_row i)
            /\ discord_message_id (issue_row i) = Some m).
  { intros d i. unfold get_issue_by_message_id.
    intros (kv & E & ->)%fmap_Some.
    apply find_map_to_list_Some in E as [Hkv Hf].
    by apply has_message_true in Hf. }
  split; [apply Hnone|split; [apply Hsome|]].
  intros k r Hr Hother.
  destruct (get_issue_by_message_id _ m) as [i|] eqn:E.
  - apply Hsome in E as [Hi Hm]. cbn in Hi.
    destruct (decide (k = id i)) as [Hk|Hk].
    + rewrite Hk, lookup_alter_eq in Hi. rewrite <- Hk, Hr in Hi.
      destruct i as [ik ir]. cbn in *. by simplify_eq.
    + rewrite lookup_alter_ne in Hi by done.
      by destruct (Hother _ _ Hi (not_eq_sym Hk)).
  - rewrite Hnone in E. specialize (E k (set_message_id m r)). cbn in E.
    rewrite lookup_alter_eq, Hr in E. by destruct (E eq_refl).
Qed.

End StoreFacts.

(** ** What is rendered *)

Module RenderFacts.
Import Review Render PyStrFacts.

Lemma len_app (a b : str) : len (a ++ b) = (len a + len b)%Z.
Proof. unfold len. rewrite length_app. lia. Qed.

Lemma len_upto (n : nat) (s : str) : (len (upto n s) <= Z.of_nat n)%Z.
Proof. unfold len, upto. rewrite length_firstn. lia. Qed.

(** The pattern of every truncation in the module: a text longer than
    [limit] is cut to [limit - 3] characters and three dots. *)
Lemma clipped (limit : Z) (n : nat) (s : str) :
  limit = (Z.of_nat n + 3)%Z ->
  (len (if (len s >? limit)%Z then upto n s ++ ELLIPSIS else s) <= limit)%Z.
Proof.
  intros ->. destruct (len s >? Z.of_nat n + 3)%Z eqn:E.
  - rewrite len_app. pose proof (len_upto n s).
    change (len ELLIPSIS) with 3%Z. lia.
  - lia.
Qed.

(** X8: the texts handed to Discord stay within its limits: an issue embed
    has a title of at most 256 and a description of at most 4096
    characters, an error embed a description of at most 1508, and the reply
    of the [Copy Context] button at most 1908, whatever the finding, the
    error text and the stored issue are. *)
Theorem rendered_lengths_bounded :
  (forall issue,
      (len (embed_title (make_issue_embed issue)) <= 256)%Z
      /\ (len (embed_description (make_issue_embed issue)) <= 4096)%Z)
  /\ (forall place_id error error_type last_sync,
        (len (embed_description
                (make_error_embed place_id error error_type last_sync))
         <= 1508)%Z)
  /\ (forall db message_id, (len (copy_context db message_id) <= 1908)%Z).
Proof.
  split; [|split].
  - intros issue. split.
    + by apply (clipped 256 253).
    + by apply (clipped 4096 4093).
  - intros place_id error error_type last_sync.
    cbn [make_error_embed embed_description]. rewrite !len_app.
    change (len (py "```")) with 3%Z. change (len NL) with 1%Z.
    lazymatch goal with
    | |- (3 + (1 + (?x + _)) <= _)%Z =>
        assert (Hx : (x <= 1500)%Z) by exact (clipped 1500 1497 error eq_refl);
        revert Hx; generalize x
    end.
    lia.
  - intros db message_id. unfold copy_context.
    destruct db as [d|]; [|by vm_compute].
    destruct (match message_id with
              | Some m => Store.get_issue_by_message_id d m
              | None => None
              end) as [issue|]; [|by vm_compute].
    cbv zeta. rewrite !(len_app (py "```")), !(len_app NL), len_app.
    change (len (py "```")) with 3%Z. change (len NL) with 1%Z.
    lazymatch goal with
    | |- (3 + (1 + (len (if (len ?s >? _)%Z then _ else _) + _)) <= _)%Z =>
        pose proof (clipped 1900 1897 s eq_refl) as Hx
    end.
    lazymatch goal with
    | |- (3 + (1 + (?x + _)) <= _)%Z =>
        change (x <= 1900)%Z in Hx; revert Hx; generalize x
    end.
    change (len (NL ++ py "```")) with 4%Z. lia.
Qed.

(** *** The tally of the summary *)

Definition total (xs : list Z) : Z := fold_right Z.add 0%Z xs.

(** How many of the issues have the severity [sev]. *)
Definition with_severity (sev : str) (issues : list Issue) : Z :=
  Z.of_nat
    (length (List.filter (fun i => str_eqb (Review.severity i) sev) issues)).

Lemma str_eqb_diag (a : str) : str_eqb a a = true.
Proof. by apply str_eqb_eq. Qed.

Lemma str_eqb_sym (a b : str) : str_eqb a b = str_eqb b a.
Proof.
  destruct (str_eqb a b) eqn:E1, (str_eqb b a) eqn:E2; try done.
  - apply str_eqb_eq in E1. subst. by rewrite str_eqb_diag in E2.
  - apply str_eqb_eq in E2. subst. by rewrite str_eqb_diag in E1.
Qed.

Lemma dict_get_set (d : list (str * Z)) (k k' : str) (v default : Z) :
  dict_get_int (dict_set d k v) k' default
  = if str_eqb k k' then v else dict_get_int d k' default.
Proof.
  unfold dict_get_int. induction d as [|[k0 v0] d IH]; cbn [dict_set List.find fst snd].
  - by destruct (str_eqb k k').
  - destruct (str_eqb k0 k) eqn:E0; cbn [List.find fst snd].
    + apply str_eqb_eq in E0. subst k0. by destruct (str_eqb k k').
    + destruct (str_eqb k0 k') eqn:E1; [|exact IH].
      apply str_eqb_eq in E1. subst k0. by rewrite str_eqb_sym, E0.
Qed.

Lemma dict_set_keys (d : list (str * Z)) (k : str) (v : Z) :
  List.map fst (dict_set d k v)
  = List.map fst d ++ (if str_in k (List.map fst d) then [] else [k]).
Proof.
  unfold str_in. induction d as [|[k0 v0] d IH]; cbn [dict_set List.map fst existsb]; [done|].
  rewrite (str_eqb_sym k k0). destruct (str_eqb k0 k); cbn [List.map fst orb].
  - by rewrite app_nil_r.
  - by rewrite IH.
Qed.

Lemma dict_set_total (d : list (str * Z)) (k : str) (v : Z) :
  total (List.map snd (dict_set d k v))
  = (total (List.map snd d) - dict_get_int d k 0 + v)%Z.
Proof.
  unfold dict_get_int.
  induction d as [|[k0 v0] d IH]; cbn [dict_set List.map snd fst total fold_right List.find].
  - lia.
  - destruct (str_eqb k0 k); cbn [List.map snd total fold_right]; [lia|].
    fold (total (List.map snd (dict_set d k v))). rewrite IH.
    fold (total (List.map snd d)). lia.
Qed.

Lemma str_in_spec (k : str) (ks : list str) : str_in k ks = true <-> In k ks.
Proof.
  unfold str_in. rewrite existsb_exists. split.
  - intros (x & Hx & E). apply str_eqb_eq in E. by subst.
  - intros H. exists k. split; [done|apply str_eqb_diag].
Qed.

(** The loop from any dictionary: the invariant of [severity_counts]. *)
Lemma tally_from (issues : list Issue) (d : list (str * Z)) :
  let d' :=
    fold_left
      (fun counts issue =>
         dict_set counts (Review.severity issue)
           (dict_get_int counts (Review.severity issue) 0 + 1)%Z)
      issues d in
  (forall sev, dict_get_int d' sev 0
               = (dict_get_int d sev 0 + with_severity sev issues)%Z)
  /\ (exists more, List.map fst d' = List.map fst d ++ more)
  /\ (NoDup (List.map fst d) -> NoDup (List.map fst d'))
  /\ total (List.map snd d') = (total (List.map snd d) + Z.of_nat (length issues))%Z.
Proof.
  revert d. induction issues as [|i issues IH]; intros d; cbn [fold_left].
  - cbn. split; [|split; [|split]]; try done.
    + intros sev. unfold with_severity. cbn. lia.
    + exists []. by rewrite app_nil_r.
    + cbn. lia.
  - specialize (IH (dict_set d (Review.severity i)
                      (dict_get_int d (Review.severity i) 0 + 1)%Z)).
    cbv zeta in IH. destruct IH as (Hget & [more Hkeys] & Hnd & Htot).
    split; [|split; [|split]].
    + intros sev. rewrite Hget, dict_get_set. unfold with_severity.
      cbn [List.filter]. destruct (str_eqb (Review.severity i) sev) eqn:E.
      * apply str_eqb_eq in E. subst sev. cbn [length]. lia.
      * lia.
    + rewrite Hkeys, dict_set_keys, <- List.app_assoc. by eexists.
    + intros Hd. apply Hnd. rewrite dict_set_keys.
      destruct (str_in _ _) eqn:E; [by rewrite app_nil_r|].
      apply NoDup_app. split; [done|split; [|apply NoDup_singleton]].
      intros x Hx ->%list_elem_of_singleton.
      apply list_elem_of_In, str_in_spec in Hx. congruence.
    + rewrite Htot, dict_set_total. cbn [length]. lia.
Qed.

(** X9: the tally in the summary: for every severity string, the count
    listed is the number of new issues with exactly that severity; the four
    known severities come first, in the order Critical, High, Medium, Low,
    each severity is listed once, and the counts add up to the number of
    new issues. *)
Theorem severity_counts_tally (issues : list Issue) :
  (forall sev,
      dict_get_int (severity_counts issues) sev 0 = with_severity sev issues)
  /\ firstn 4 (List.map fst (severity_counts issues))
     = [py "Critical"; py "High"; py "Medium"; py "Low"]
  /\ NoDup (List.map fst (severity_counts issues))
  /\ total (List.map snd (severity_counts issues)) = Z.of_nat (length issues).
Proof.
  pose proof (tally_from issues
                [(py "Critical", 0%Z); (py "High", 0%Z); (py "Medium", 0%Z);
                 (py "Low", 0%Z)]) as H.
  cbv zeta in H. fold (severity_counts issues) in H.
  destruct H as (Hget & [more Hkeys] & Hnd & Htot).
  split; [|split; [|split]].
  - intros sev. rewrite Hget.
    assert (E : dict_get_int
                  [(py "Critical", 0%Z); (py "High", 0%Z); (py "Medium", 0%Z);
                   (py "Low", 0%Z)] sev 0 = 0%Z).
    { unfold dict_get_int. cbn [List.find fst snd].
      repeat (destruct (str_eqb _ sev); [done|]). done. }
    rewrite E. lia.
  - by rewrite Hkeys.
  - apply Hnd. apply (bool_decide_unpack _). by vm_compute.
  - rewrite Htot. cbn. lia.
Qed.

(** *** Counting the changed lines *)

Lemma count_loop_from (lines : list str) (a r : Z) :
  count_loop lines a r
  = ((a + (count_loop lines 0 0).1)%Z, (r + (count_loop lines 0 0).2)%Z).
Proof.
  revert a r. induction lines as [|l lines IH]; intros a r; cbn [count_loop].
  - cbn. f_equal; lia.
  - destruct (_ && _).
    + rewrite (IH (a + 1)%Z r), (IH (0 + 1)%Z 0%Z). cbn [fst snd]. f_equal; lia.
    + destruct (_ && _).
      * rewrite (IH a (r + 1)%Z), (IH 0%Z (0 + 1)%Z). cbn [fst snd]. f_equal; lia.
      * apply IH.
Qed.

Lemma count_loop_app (l1 l2 : list str) :
  count_loop (l1 ++ l2) 0 0
  = (((count_loop l1 0 0).1 + (count_loop l2 0 0).1)%Z,
     ((count_loop l1 0 0).2 + (count_loop l2 0 0).2)%Z).
Proof.
  induction l1 as [|l l1 IH]; cbn [app count_loop].
  - by destruct (count_loop l2 0 0).
  - destruct (_ && _).
    + rewrite (count_loop_from (l1 ++ l2)), (count_loop_from l1), IH.
      cbn [fst snd]. f_equal; lia.
    + destruct (_ && _); [|exact IH].
      rewrite (count_loop_from (l1 ++ l2)), (count_loop_from l1), IH.
      cbn [fst snd]. f_equal; lia.
Qed.

Lemma count_loop_bound (lines : list str) :
  (0 <= (count_loop lines 0 0).1)%Z /\ (0 <= (count_loop lines 0 0).2)%Z
  /\ ((count_loop lines 0 0).1 + (count_loop lines 0 0).2
      <= Z.of_nat (length lines))%Z.
Proof.
  induction lines as [|l lines IH]; cbn [count_loop length]; [cbn; lia|].
  destruct (_ && _); [|destruct (_ && _)];
    rewrite ?(count_loop_from lines (0 + 1)%Z), ?(count_loop_from lines 0%Z (0 + 1)%Z);
    cbn [fst snd]; lia.
Qed.

(** The lines of the chunks, one chunk after the other, are the lines of
    the diff. *)
Lemma split_loop_lines (lines cur : list (str * str)) :
  raw_wf (cur ++ lines) ->
  List.concat
    (List.map split_raw (split_loop (List.map glue lines) [] (List.map glue cur)))
  = cur ++ lines.
Proof.
  assert (Hflush : forall c, raw_wf c ->
            List.concat (List.map split_raw (flush [] (List.map glue c))) = c).
  { intros c Hc. destruct c as [|l c'] eqn:Ec; [done|]. rewrite <- Ec in *.
    assert (E : flush [] (List.map glue c) = [List.concat (List.map glue c)])
      by (by rewrite Ec).
    rewrite E. cbn [List.map List.concat]. rewrite app_nil_r.
    by apply split_raw_resplit. }
  revert cur. induction lines as [|l lines IH]; intros cur Hwf.
  - cbn [List.map split_loop]. rewrite app_nil_r in *. by apply Hflush.
  - cbn [List.map split_loop]. destruct (startswith DIFF_GIT (glue l)).
    + rewrite SplitFacts.split_loop_chunks, List.map_app, List.concat_app.
      rewrite Hflush by (by apply raw_wf_app_l in Hwf). f_equal.
      apply (IH [l]). by apply raw_wf_app_r in Hwf.
    + change [glue l] with (List.map glue [l]).
      rewrite <- List.map_app, IH, <- List.app_assoc; [done|].
      by rewrite <- List.app_assoc.
Qed.

Lemma count_loop_concat (groups : list (list str)) :
  count_loop (List.concat groups) 0 0
  = (total (List.map (fun g => (count_loop g 0 0).1) groups),
     total (List.map (fun g => (count_loop g 0 0).2) groups)).
Proof.
  induction groups as [|g groups IH]; [done|].
  cbn [List.concat List.map total fold_right]. rewrite count_loop_app, IH. done.
Qed.

(** X10: [count_diff_lines] counts file by file: the added and the removed
    lines of a diff are the sums of those of the chunks [split_diff_by_file]
    cuts it into; neither count is negative, and together they do not
    exceed the number of lines. *)
Theorem count_diff_lines_by_file (d : str) :
  count_diff_lines d
  = (total (List.map (fun c => (count_diff_lines c).1) (split_diff_by_file d)),
     total (List.map (fun c => (count_diff_lines c).2) (split_diff_by_file d)))
  /\ (0 <= (count_diff_lines d).1)%Z /\ (0 <= (count_diff_lines d).2)%Z
  /\ ((count_diff_lines d).1 + (count_diff_lines d).2
      <= Z.of_nat (length (splitlines d)))%Z.
Proof.
  split; [|apply count_loop_bound].
  unfold count_diff_lines, splitlines, split_diff_by_file, splitlines_keepends.
  pose proof (split_loop_lines (split_raw d) [] (split_raw_wf d)) as H.
  cbn [app List.map] in H.
  change (List.map (fun l : str * str => l.1 ++ l.2) (split_raw d))
    with (List.map glue (split_raw d)).
  rewrite <- H at 1.
  rewrite List.concat_map, List.map_map, count_loop_concat, !List.map_map.
  done.
Qed.


End RenderFacts.

(** ** Stripped strings *)

Module StripFacts.

(** No whitespace at either end. *)
Definition trimmed (s : str) : Prop :=
  (forall c t, s = c :: t -> is_space c = false)
  /\ (forall c t, s = t ++ [c] -> is_space c = false).

Lemma lstrip_head (s : str) (c : char) (t : str) :
  lstrip s = c :: t -> is_space c = false.
Proof.
  induction s as [|x s IH]; cbn; [done|].
  destruct (is_space x) eqn:E; [exact IH|]. by intros [= <- <-].
Qed.

Lemma lstrip_fixed (s : str) :
  (forall c t, s = c :: t -> is_space c = false) -> lstrip s = s.
Proof.
  destruct s as [|x s]; [done|]. intros H. cbn. by rewrite (H x s eq_refl).
Qed.

Lemma lstrip_idem (s : str) : lstrip (lstrip s) = lstrip s.
Proof. apply lstrip_fixed. intros c t. apply lstrip_head. Qed.

(** [lstrip] drops a prefix: what is left is a suffix of the string. *)
Lemma lstrip_suffix (s : str) : exists ws, s = ws ++ lstrip s.
Proof.
  induction s as [|x s [ws IH]]; cbn; [by exists []|].
  destruct (is_space x); [|by exists []].
  exists (x :: ws). cbn. by f_equal.
Qed.

Lemma rstrip_prefix (s : str) : exists ws, s = rstrip s ++ ws.
Proof.
  unfold rstrip. destruct (lstrip_suffix (rev s)) as [ws E].
  exists (rev ws). rewrite <- rev_app_distr, <- E. by rewrite rev_involutive.
Qed.

Lemma rstrip_last (s : str) (c : char) (t : str) :
  rstrip s = t ++ [c] -> is_space c = false.
Proof.
  unfold rstrip. intros E. apply (f_equal (@rev _)) in E.
  rewrite rev_involutive, rev_app_distr in E. cbn in E.
  by apply lstrip_head in E.
Qed.

Lemma rstrip_idem (s : str) : rstrip (rstrip s) = rstrip s.
Proof. unfold rstrip. by rewrite rev_involutive, lstrip_idem. Qed.

Lemma strip_trimmed (s : str) : trimmed (strip s).
Proof.
  unfold strip. split.
  - intros c t E. destruct (rstrip_prefix (lstrip s)) as [ws Hws].
    rewrite E in Hws. cbn in Hws. by apply lstrip_head in Hws.
  - intros c t. apply rstrip_last.
Qed.

Lemma trimmed_strip (s : str) : trimmed s -> strip s = s.
Proof.
  intros [Hh Hl]. unfold strip. rewrite (lstrip_fixed s Hh).
  unfold rstrip. rewrite lstrip_fixed; [apply rev_involutive|].
  intros c t E. apply (Hl c (rev t)).
  apply (f_equal (@rev _)) in E. by rewrite rev_involutive in E.
Qed.

Lemma strip_idem (s : str) : strip (strip s) = strip s.
Proof. apply trimmed_strip, strip_trimmed. Qed.

Lemma strip_fixed_trimmed (s : str) : strip s = s -> trimmed s.
Proof. intros <-. apply strip_trimmed. Qed.

End StripFacts.

(** ** The commands of atlas_cli.py *)

Module AtlasCliFacts.
Import AtlasCli StripFacts PyStrFacts.

Section Processes.

Variable exec : list Command -> Command -> Exit.

(** X11: the changed paths [git_diff_name_only] returns are never empty and
    carry no whitespace at either end; when the git command exits with an
    error, [git_diff] answers the empty diff and [git_diff_name_only] no
    path at all, so that the failure reads as "nothing changed". *)
Theorem git_diff_name_only_names (dir : str) (ran : list Command) :
  (forall names,
      (git_diff_name_only exec dir ran).1 = Done names ->
      Forall (fun n => n <> [] /\ trimmed n) names)
  /\ (forall rc out err,
        exec ran {| argv := [py "git"; py "diff"; py "HEAD"; py "--name-only"];
                    cwd := Some dir |} = Exited rc out err ->
        rc <> 0%Z -> (git_diff_name_only exec dir ran).1 = Done [])
  /\ (forall rc out err,
        exec ran {| argv := [py "git"; py "diff"; py "HEAD"];
                    cwd := Some dir |} = Exited rc out err ->
        rc <> 0%Z -> (git_diff exec dir ran).1 = Done []).
Proof.
  split; [|split].
  - intros names. unfold git_diff_name_only, _run. cbn [fst].
    destruct (exec ran _) as [rc out err|m]; [|done].
    destruct (rc =? 0)%Z; [|by intros [= <-]]. intros [= <-].
    unfold names_of. apply List.Forall_forall. intros n Hn.
    apply in_map_iff in Hn as (line & <- & Hline).
    apply filter_In in Hline as [_ Hne]. split; [|apply strip_trimmed].
    intros E. by rewrite E in Hne.
  - intros rc out err E Hrc. unfold git_diff_name_only, _run. cbn [fst].
    rewrite E. apply Z.eqb_neq in Hrc. by rewrite Hrc.
  - intros rc out err E Hrc. unfold git_diff, _run. cbn [fst].
    rewrite E. apply Z.eqb_neq in Hrc. by rewrite Hrc.
Qed.

End Processes.

End AtlasCliFacts.

(** ** More about review.py *)

Module ParseFacts.
Import Review StripFacts PyStrFacts.

(** *** The path of a chunk *)

Lemma extract_loop_trimmed (lines : list str) : trimmed (extract_loop lines).
Proof.
  induction lines as [|l lines IH]; cbn [extract_loop].
  - split; intros c t E; [done|by destruct t].
  - destruct (startswith _ l); [apply strip_trimmed|].
    destruct (startswith _ l); [apply strip_trimmed|exact IH].
Qed.

Lemma extract_loop_no_header (lines : list str) :
  Forall (fun l => startswith (py "+++ ") l = false) lines ->
  extract_loop lines = [].
Proof.
  induction 1 as [|l lines Hl _ IH]; [done|]. cbn [extract_loop].
  destruct (startswith (py "+++ b/") l) eqn:E.
  - destruct l as [|c1 [|c2 [|c3 [|c4 l]]]]; try done.
    change (py "+++ b/") with (43 :: 43 :: 43 :: 32 :: py "b/") in E.
    change (py "+++ ") with [43; 43; 43; 32] in Hl.
    cbn [startswith] in E, Hl.
    repeat (apply andb_prop in E as [? E]).
    destruct (43 =? c1), (43 =? c2), (43 =? c3), (32 =? c4); done.
  - by rewrite Hl.
Qed.

(** X12: the path [extract_file_path] reads off a chunk carries no whitespace
    at either end; a chunk without a line that starts with "+++ " (a
    binary file, a mode change) has the empty path and is never
    reviewable. *)
Theorem extract_file_path_trimmed (chunk : str) :
  trimmed (extract_file_path chunk)
  /\ (Forall (fun l => startswith (py "+++ ") l = false) (splitlines chunk) ->
      extract_file_path chunk = [] /\ reviewable_chunk chunk = false).
Proof.
  split; [apply extract_loop_trimmed|].
  intros H. unfold reviewable_chunk, extract_file_path.
  by rewrite (extract_loop_no_header _ H).
Qed.

Section Runtime.

Variable json_loads : str -> option pyobj.
Variable re_word : char -> bool.
Variable int_of_str : str -> option Z.
Variable py_repr : pyobj -> str.

Abbreviation parse_issues :=
  (parse_issues json_loads re_word int_of_str py_repr).
Abbreviation make_issue := (make_issue int_of_str py_repr).
Abbreviation collect_issues := (collect_issues int_of_str py_repr).
Abbreviation issues_of_data := (issues_of_data int_of_str py_repr).

(** *** Elements that are skipped *)









(** *** A fenced response *)

Lemma drop_word_tag (tag rest : str) :
  Forall (fun c => re_word c = true) tag -> re_word 10 = false ->
  drop_word re_word (tag ++ 10 :: rest) = 10 :: rest.
Proof.
  intros Htag Hnl. induction Htag as [|c tag Hc _ IH]; cbn.
  - by rewrite Hnl.
  - by rewrite Hc.
Qed.

Lemma lstrip_spaces (ws s : str) :
  Forall (fun c => is_space c = true) ws -> lstrip (ws ++ s) = lstrip s.
Proof. induction 1 as [|c ws Hc _ IH]; [done|]. cbn. by rewrite Hc. Qed.

Lemma rstrip_spaces (ws s : str) :
  Forall (fun c => is_space c = true) ws -> rstrip (s ++ ws) = rstrip s.
Proof.
  intros H. unfold rstrip. rewrite rev_app_distr, lstrip_spaces; [done|].
  by apply Forall_rev.
Qed.

Lemma strip_spaces (ws1 ws2 s : str) :
  Forall (fun c => is_space c = true) ws1 ->
  Forall (fun c => is_space c = true) ws2 ->
  trimmed s -> s <> [] -> strip (ws1 ++ s ++ ws2) = s.
Proof.
  intros H1 H2 [Hh Hl] Hne. unfold strip.
  rewrite lstrip_spaces by done.
  destruct s as [|c s]; [done|].
  rewrite lstrip_fixed.
  - rewrite rstrip_spaces by done. unfold rstrip.
    rewrite lstrip_fixed; [apply rev_involutive|].
    intros x t E. apply (Hl x (rev t)).
    apply (f_equal (@rev _)) in E. by rewrite rev_involutive in E.
  - intros x t [= <- _]. by apply (Hh c s).
Qed.

(** X14: a response wrapped in a code fence parses as its body does: for a
    fence opened by three backquotes and a word (such as json), closed by
    three backquotes on a line of their own, with any whitespace around the
    whole, [parse_issues] gives what it gives for the body alone, provided
    the body has no whitespace at its ends and does not itself begin with a
    fence. *)
Theorem parse_issues_fenced (ws1 ws2 tag body : str) :
  re_word 10 = false ->
  Forall (fun c => re_word c = true) tag ->
  Forall (fun c => is_space c = true) ws1 ->
  Forall (fun c => is_space c = true) ws2 ->
  trimmed body -> startswith FENCE body = false ->
  parse_issues (ws1 ++ (FENCE ++ tag ++ NL ++ body ++ NL ++ FENCE) ++ ws2)
  = parse_issues body.
Proof.
  intros Hnl Htag H1 H2 Hbody Hfence.
  unfold Review.parse_issues. f_equal.
  unfold unfenced.
  rewrite (trimmed_strip body Hbody), Hfence.
  rewrite strip_spaces; try done.
  2:{ split.
      - by intros c t [= <- _].
      - intros c t E. apply (f_equal (@rev _)) in E.
        rewrite !rev_app_distr in E. by injection E as <-. }
  change (startswith FENCE (FENCE ++ tag ++ NL ++ body ++ NL ++ FENCE))
    with true. cbv iota.
  unfold sub_fence_open.
  change (startswith FENCE (FENCE ++ tag ++ NL ++ body ++ NL ++ FENCE))
    with true. cbv iota.
  change (skipn 3 (FENCE ++ tag ++ NL ++ body ++ NL ++ FENCE))
    with (tag ++ 10 :: body ++ NL ++ FENCE).
  rewrite drop_word_tag by done. cbn [drop_one_nl N.eqb Pos.eqb].
  unfold sub_fence_close. rewrite !rev_app_distr.
  change (rev FENCE) with [96; 96; 96]. cbn [app startswith N.eqb Pos.eqb andb skipn].
  change (rev NL) with [10]. cbn [app drop_one_nl N.eqb Pos.eqb].
  cbn [drop drop_one_nl N.eqb Pos.eqb].
  by rewrite rev_involutive, (trimmed_strip body Hbody).
Qed.

End Runtime.

End ParseFacts.

(** ** More about the steps of the loop *)

Module LoopFacts.
Import Db Daemon PyStrFacts DaemonFacts.

Section Clock.

Variable clock : nat -> str.

Abbreviation auto_resolve_loop := (auto_resolve_loop clock).
Abbreviation _auto_resolve := (_auto_resolve clock).

Lemma auto_resolve_loop_miss (changed : list str) (us : list DBIssue)
    (acc : list Z) (w : World) :
  Forall (fun u => str_in (file_path (issue_row u)) changed = false) us ->
  auto_resolve_loop us changed acc w = (acc, w).
Proof.
  induction 1 as [|u us Hu _ IH]; [done|].
  cbn [Daemon.auto_resolve_loop]. by rewrite Hu.
Qed.

(** After the step no unresolved finding of the workspace is on a changed
    path. *)
Lemma auto_resolve_leaves_none (game : Z) (changed : list str) (w : World)
    (k : Z) (row : IssueRow) :
  issues (db (_auto_resolve game changed w).2) !! k = Some row ->
  auto_resolvable game changed row = false.
Proof.
  unfold Daemon._auto_resolve.
  destruct (auto_resolve_loop_spec clock changed
              (get_unresolved_issues (db w) game)
              (get_unresolved_issues_NoDup _ _) [] w)
    as (stamps & Hk & _). cbn zeta in Hk. rewrite Hk.
  destruct (bool_decide _) eqn:B.
  - intros (r0 & _ & ->)%fmap_Some. unfold auto_resolvable. cbn.
    by rewrite andb_false_r.
  - intros Hrow. apply bool_decide_eq_false_1 in B.
    destruct (auto_resolvable game changed row) eqn:E; [|done].
    destruct B. apply list_elem_of_In, hit_ids_unresolved. by exists row.
Qed.

(** X15: [_auto_resolve] is idempotent: run again with the same changed paths
    right after itself it resolves nothing, returns no id and leaves the
    state, clock included, as it is. *)
Theorem auto_resolve_twice (game : Z) (changed : list str) (w : World) :
  _auto_resolve game changed (_auto_resolve game changed w).2
  = ([], (_auto_resolve game changed w).2).
Proof.
  set (w1 := (_auto_resolve game changed w).2).
  unfold Daemon._auto_resolve at 1. apply auto_resolve_loop_miss.
  apply List.Forall_forall. intros u Hu.
  unfold get_unresolved_issues in Hu.
  apply in_map_iff in Hu as ([k row] & <- & [Hin Hc]%filter_In).
  apply list_elem_of_In, elem_of_map_to_list in Hin. cbn in Hc |- *.
  pose proof (auto_resolve_leaves_none game changed w k row Hin) as H.
  unfold auto_resolvable in H. rewrite Hc in H. exact H.
Qed.

(** X16: once [_auto_resolve] has run, no finding of a changed file counts as
    a duplicate any more: [final_dedup] answers [False] for every title
    under a changed path, so that the review of the new diff may report the
    finding again. *)
Theorem auto_resolve_reopens (game : Z) (changed : list str) (w : World)
    (file ttl : str) :
  str_in file changed = true ->
  final_dedup (db (_auto_resolve game changed w).2) game file ttl = false.
Proof.
  intros Hin. apply final_dedup_false. intros k r Hr.
  pose proof (auto_resolve_leaves_none game changed w k r Hr) as H.
  destruct (open_duplicate game file ttl r) eqn:E; [|done].
  apply open_duplicate_true in E as (Hg & Hf & _ & Hres).
  unfold auto_resolvable in H.
  by rewrite Hg, Z.eqb_refl, Hres, Hf, Hin in H.
Qed.

End Clock.

Section Posting.

Variable clock : nat -> str.
Variable channel_found : bool.
Variable send : list Message -> Message -> option str.

Abbreviation post_loop := (post_loop clock send).
Abbreviation _post_issues := (_post_issues clock channel_found send).




End Posting.

End LoopFacts.

(** ** One turn of the loop *)

Module SyncLoopFacts.
Import Db Daemon AtlasCli SyncLoop PyStrFacts DaemonFacts.

Lemma contains_here (needle post : str) : contains needle (needle ++ post) = true.
Proof.
  assert (H : startswith needle (needle ++ post) = true).
  { induction needle as [|c n IH]; [done|]. cbn. by rewrite N.eqb_refl. }
  remember (needle ++ post) as hay eqn:E. clear E.
  destruct hay; cbn [contains]; by rewrite H.
Qed.

Lemma contains_inside (needle pre post : str) :
  contains needle (pre ++ needle ++ post) = true.
Proof.
  induction pre as [|c pre IH]; [exact (contains_here needle post)|].
  cbn [app contains]. fold contains. rewrite IH. apply orb_true_r.
Qed.

Lemma contains_after (needle pre text : str) :
  contains needle text = true -> contains needle (pre ++ text) = true.
Proof.
  intros H. induction pre as [|c pre IH]; [done|].
  cbn [app contains]. fold contains. rewrite IH. apply orb_true_r.
Qed.

Section Iteration.

Variable json_loads : str -> option pyobj.
Variable re_word : char -> bool.
Variable int_of_str : str -> option Z.
Variable py_repr : pyobj -> str.
Variable oracle : list str -> str -> option str.
Variable clock : nat -> str.
Variable channel_found : bool.
Variable send : list Message -> Message -> option str.
Variable exc_message : pyexc -> str.
Variable fernet_decrypt : Security.Fernet -> Security.bytes -> option Security.bytes.
Variable utf8_decode : Security.bytes -> option str.
Variable _fernet : option Security.Fernet.
Variable exec : list Command -> Command -> Exit.
Variable atlas_binary : str.
Variable path_str : str -> str.
Variable stamp : nat -> str.
Variable lower : str -> str.

Abbreviation try_block :=
  (try_block json_loads re_word int_of_str py_repr oracle clock channel_found
     send exc_message fernet_decrypt utf8_decode _fernet exec atlas_binary
     path_str stamp).
Abbreviation handler :=
  (handler clock channel_found send exc_message lower).
Abbreviation turn :=
  (turn json_loads re_word int_of_str py_repr oracle clock channel_found
     send exc_message fernet_decrypt utf8_decode _fernet exec atlas_binary
     path_str stamp lower).
Abbreviation decrypt :=
  (Security.decrypt_api_key fernet_decrypt utf8_decode _fernet).
Abbreviation review_step :=
  (review_step json_loads re_word int_of_str py_repr oracle clock
     channel_found send exc_message).

(** The command line of the syncback. *)
Definition syncback_cmd (game : Game) (api_key : str) : Command :=
  {| argv := [atlas_binary; py "--opencloud"; api_key; py "syncback";
              py "--download"; str_of_Z (place_id game); py "--working-dir";
              path_str (working_dir game); py "--incremental"; py "--list"];
     cwd := None |}.

Definition git_cmd (game : Game) (args : list str) : Command :=
  {| argv := py "git" :: args; cwd := Some (path_str (working_dir game)) |}.

(** X18: a turn that finds nothing changed leaves everything but the log of
    commands as it is: when the syncback succeeds and [git diff] prints
    nothing, or exits with an error, the store is untouched (a recorded
    error stays recorded, the time of the last sync is not advanced), no
    review is asked for, nothing is posted, and the loop goes to sleep. *)
Theorem turn_without_changes (game : Game) (st : Loop) (api_key : str)
    (out err : str) (rc : Z) (out' err' : str) :
  decrypt (api_key_encrypted game) = Ok api_key ->
  exec (ran st) (syncback_cmd game api_key) = Exited 0 out err ->
  exec (ran st ++ [syncback_cmd game api_key])
    (git_cmd game [py "diff"; py "HEAD"]) = Exited rc out' err' ->
  rc <> 0%Z \/ out' = [] ->
  turn game st
  = Sleeps {| world := world st;
              ran := ran st ++ [syncback_cmd game api_key]
                     ++ [git_cmd game [py "diff"; py "HEAD"]];
              embed_updates := embed_updates st |}.
Proof.
  intros Hkey Hsync Hdiff Hquiet.
  unfold SyncLoop.turn, SyncLoop.try_block. rewrite Hkey.
  unfold atlas_syncback, _run. fold (syncback_cmd game api_key).
  rewrite Hsync. cbn [Z.eqb].
  unfold git_diff, _run.
  change {| argv := [py "git"; py "diff"; py "HEAD"];
            cwd := Some (path_str (working_dir game)) |}
    with (git_cmd game [py "diff"; py "HEAD"]).
  rewrite Hdiff. unfold with_ran. cbn [world embed_updates].
  rewrite <- List.app_assoc.
  destruct (rc =? 0)%Z eqn:Erc; [|done].
  apply Z.eqb_eq in Erc. destruct Hquiet as [? | ->]; done.
Qed.

(** *** The rows of [games] through a turn *)

(** The same keys, and under each key a row with the same place and
    settings: only the columns of sync and error may differ. *)
Definition same_game (a b : GameRow) : Prop :=
  discord_server_id a = discord_server_id b /\ place_id a = place_id b
  /\ channel_id a = channel_id b /\ api_key_encrypted a = api_key_encrypted b
  /\ added_by a = added_by b /\ working_dir a = working_dir b
  /\ game_created_at a = game_created_at b.

Definition same_games (m1 m2 : gmap Z GameRow) : Prop :=
  forall k, match m1 !! k, m2 !! k with
            | Some a, Some b => same_game a b
            | None, None => True
            | _, _ => False
            end.

Lemma same_games_refl (m : gmap Z GameRow) : same_games m m.
Proof. intros k. destruct (m !! k); [by repeat split|done]. Qed.

Lemma same_games_trans (m1 m2 m3 : gmap Z GameRow) :
  same_games m1 m2 -> same_games m2 m3 -> same_games m1 m3.
Proof.
  intros H1 H2 k. specialize (H1 k). specialize (H2 k).
  destruct (m1 !! k), (m2 !! k), (m3 !! k); try done.
  unfold same_game in *. intuition congruence.
Qed.

Lemma same_games_alter (m : gmap Z GameRow) (f : GameRow -> GameRow) (g : Z) :
  (forall r, same_game r (f r)) -> same_games m (alter f g m).
Proof.
  intros Hf k. rewrite lookup_alter.
  destruct (decide (g = k)) as [->|]; destruct (m !! k); cbn;
    try done; by repeat split.
Qed.

Lemma update_last_error_same_games (d : Database) (g : Z) (e t : str) :
  same_games (games d) (games (update_last_error d g e t).1).
Proof.
  unfold update_last_error.
  destruct (games d !! g) as [row|]; [destruct (same_error _ _)|]; cbn;
    apply same_games_alter; intros r; by repeat split.
Qed.

Lemma handle_error_same_games (game : Game) (e ty : str) (w : World) :
  same_games (games (db w))
    (games (db (_handle_error clock channel_found send game e ty w))).
Proof.
  unfold _handle_error. cbn [now db].
  pose proof (update_last_error_same_games (db w) (game_key game) e
                (clock (tick w))) as H.
  destruct (update_last_error _ _ _ _) as [d r]. cbn in H.
  by destruct (r && channel_found).
Qed.

Lemma post_loop_games (game : Game) (batch : list Review.Issue) (w : World) :
  games (db (post_loop clock send game batch w).2) = games (db w).
Proof.
  revert w. induction batch as [|i rest IH]; intros w; [done|].
  cbn [Daemon.post_loop now]. unfold add_issue. cbn [db].
  destruct (games (db w) !! game_key game); [|done].
  unfold channel_send. cbn [db sent with_db].
  destruct (send _ _); [|done]. by rewrite IH.
Qed.

Lemma persist_new_games (game : Game) (batch : list Review.Issue) (w : World) :
  games (db (persist_new clock channel_found send game batch w).2)
  = games (db w).
Proof.
  unfold persist_new. destruct (List.filter _ _) as [|i0 more]; [done|].
  unfold _post_issues. destruct channel_found; [|done]. cbn [negb].
  unfold channel_send. destruct (send _ _); [|done].
  by rewrite post_loop_games.
Qed.

Lemma review_step_same_games (game : Game) (diff : str) (changed : list str)
    (w : World) :
  same_games (games (db w)) (games (db (review_step game diff changed w).2)).
Proof.
  unfold Daemon.review_step.
  destruct (List.filter _ changed); [apply same_games_refl|].
  destruct (Review.review_diff _ _ _ _ _ _ _ _) as [[issues|e] reqs].
  - rewrite persist_new_games. apply same_games_refl.
  - rewrite persist_new_games.
    exact (handle_error_same_games game _ _ (with_requests w reqs)).
Qed.

Lemma auto_resolve_games (game : Z) (changed : list str) (w : World) :
  games (db (_auto_resolve clock game changed w).2) = games (db w).
Proof.
  unfold _auto_resolve.
  destruct (auto_resolve_loop_spec clock changed
              (get_unresolved_issues (db w) game)
              (get_unresolved_issues_NoDup _ _) [] w)
    as (stamps & _ & _ & Hg & _). exact Hg.
Qed.

(** X19: a turn that finds changes and gets to its end clears the error state
    of the game: when the syncback succeeds, [git diff] prints something
    and no exception leaves the [try] block (the review itself may have
    failed and been reported), the row of the game ends with no error, an
    error count of 0 and the time of this sync, its other columns as they
    were; whatever error comes next is therefore treated as new and
    reported. *)
Theorem turn_with_changes_clears_error (game : Game) (st st' : Loop)
    (api_key out err : str) (c : char) (diff err' : str) (row : GameRow) :
  decrypt (api_key_encrypted game) = Ok api_key ->
  exec (ran st) (syncback_cmd game api_key) = Exited 0 out err ->
  exec (ran st ++ [syncback_cmd game api_key])
    (git_cmd game [py "diff"; py "HEAD"]) = Exited 0 (c :: diff) err' ->
  try_block game st = (None, st') ->
  games (db (world st)) !! game_key game = Some row ->
  exists row' t,
    games (db (world st')) !! game_key game = Some row'
    /\ same_game row row'
    /\ last_error row' = None /\ last_error_at row' = None
    /\ error_count row' = Some 0%Z /\ last_sync_at row' = Some t
    /\ (forall e now_,
          (update_last_error (db (world st')) (game_key game) e now_).2 = true).
Proof.
  intros Hkey Hsync Hdiff Htry Hrow.
  unfold SyncLoop.try_block in Htry. rewrite Hkey in Htry.
  unfold atlas_syncback, _run in Htry. fold (syncback_cmd game api_key) in Htry.
  rewrite Hsync in Htry. cbn [Z.eqb] in Htry.
  unfold git_diff, _run in Htry.
  change {| argv := [py "git"; py "diff"; py "HEAD"];
            cwd := Some (path_str (working_dir game)) |}
    with (git_cmd game [py "diff"; py "HEAD"]) in Htry.
  rewrite Hdiff in Htry. cbn [Z.eqb] in Htry.
  destruct (git_diff_name_only _ _ _) as [[changed|e3] ran3]; [|done].
  pose proof (auto_resolve_games (game_key game) changed (world st)) as Hg1.
  destruct (_auto_resolve clock (game_key game) changed (world st))
    as [ids w1]. cbn [snd] in Hg1.
  pose proof (review_step_same_games game (c :: diff) changed w1) as Hg2.
  destruct (review_step game (c :: diff) changed w1) as [[[]|e4] w2]; [|done].
  cbn [snd] in Hg2.
  destruct (git_add_all _ _ _) as [[[]|e5] ran5]; [|done].
  destruct (git_commit _ _ _ _) as [[[]|e6] ran6]; [|done].
  injection Htry as <-. cbn [world db with_db now snd fst update_last_sync
                             with_games games].
  rewrite Hg1 in Hg2. specialize (Hg2 (game_key game)). rewrite Hrow in Hg2.
  destruct (games (db w2) !! game_key game) as [row2|] eqn:E2; [|done].
  exists (set_synced (clock (S (tick w2))) row2), (clock (S (tick w2))).
  split; [by rewrite lookup_alter_eq, E2|].
  split; [|split; [done|split; [done|split; [done|split; [done|]]]]].
  - exact Hg2.
  - intros e now_. unfold update_last_error.
    cbn [world db with_db now snd fst update_last_sync with_games games].
    rewrite lookup_alter_eq, E2. cbn. done.
Qed.

Lemma same_error_stored (stored : option str) (e : str) :
  same_error stored e = true <-> stored = Some e.
Proof.
  unfold same_error. destruct stored as [x|]; [|done].
  rewrite str_eqb_eq. split; [by intros ->|by intros [= ->]].
Qed.

(** The handler records the text as the error of the game and posts it
    when it is not the error already recorded. *)
Lemma handler_records (game : Game) (f : Failure) (st : Loop) (row : GameRow) :
  games (db (world st)) !! game_key game = Some row ->
  exists st' row',
    (handler game f st = Sleeps st' \/ handler game f st = Ends st')
    /\ games (db (world st')) !! game_key game = Some row'
    /\ last_error row' = Some (failure_message exc_message f)
    /\ (channel_found = true ->
        last_error row <> Some (failure_message exc_message f) ->
        sent (world st')
        = sent (world st)
          ++ [ErrorEmbed (failure_message exc_message f)
                (error_type lower (failure_message exc_message f))]).
Proof.
  intros Hrow. unfold SyncLoop.handler.
  set (text := failure_message exc_message f).
  cbn [now world db tick]. unfold update_last_error. cbn [db]. rewrite Hrow.
  destruct (same_error (last_error row) text) eqn:Esame.
  - apply same_error_stored in Esame.
    set (d := with_games _ _).
    assert (Hd : exists row', games d !! game_key game = Some row'
                              /\ last_error row' = Some text).
    { eexists. subst d. cbn. rewrite lookup_alter_eq, Hrow. cbn.
      split; [done|]. cbn. done. }
    destruct Hd as (row' & Hrow' & Herr).
    destruct (_ && channel_found).
    + unfold channel_send. cbn [db sent with_db].
      destruct (send _ _).
      * eexists _, row'. split; [by left|]. by repeat split.
      * eexists _, row'. split; [by right|]. by repeat split.
    + eexists _, row'. split; [by left|]. by repeat split.
  - set (d := with_games _ _).
    assert (Hd : exists row', games d !! game_key game = Some row'
                              /\ last_error row' = Some text).
    { eexists. subst d. cbn. rewrite lookup_alter_eq, Hrow. cbn.
      split; [done|]. cbn. done. }
    destruct Hd as (row' & Hrow' & Herr).
    cbn [andb]. destruct channel_found.
    + unfold channel_send. cbn [db sent with_db].
      destruct (send _ _).
      * eexists _, row'. split; [by left|]. by repeat split.
      * eexists _, row'. split; [by right|]. by repeat split.
    + eexists _, row'. split; [by left|]. by repeat split.
Qed.

(** X20: the error text of a syncback that exits with an error contains the
    OpenCloud key in clear, since [_run] puts the whole command line into
    its [RuntimeError]; the handler records that text as the error of the
    game and, when the channel is there and the text is not the error
    already recorded, posts it. *)
Theorem failed_syncback_shows_key (game : Game) (st : Loop) (api_key : str)
    (rc : Z) (out err : str) :
  decrypt (api_key_encrypted game) = Ok api_key ->
  exec (ran st) (syncback_cmd game api_key) = Exited rc out err ->
  rc <> 0%Z ->
  exists text,
    (try_block game st).1 = Some (Cmd (CommandFailed text))
    /\ contains api_key text = true
    /\ (forall row,
          games (db (world st)) !! game_key game = Some row ->
          exists st' row',
            (turn game st = Sleeps st' \/ turn game st = Ends st')
            /\ games (db (world st')) !! game_key game = Some row'
            /\ last_error row' = Some text
            /\ (channel_found = true -> last_error row <> Some text ->
                sent (world st')
                = sent (world st) ++ [ErrorEmbed text (error_type lower text)])).
Proof.
  intros Hkey Hsync Hrc.
  set (text := py "Command failed (exit " ++ str_of_Z rc ++ py "): "
               ++ join (py " ") (argv (syncback_cmd game api_key))
               ++ Review.NL ++ err).
  assert (Htry : try_block game st
                 = (Some (Cmd (CommandFailed text)),
                    with_ran st (ran st ++ [syncback_cmd game api_key]))).
  { unfold SyncLoop.try_block. rewrite Hkey.
    unfold atlas_syncback, _run. fold (syncback_cmd game api_key).
    rewrite Hsync. apply Z.eqb_neq in Hrc. by rewrite Hrc. }
  exists text. split; [by rewrite Htry|split].
  - subst text. cbn [argv syncback_cmd join].
    repeat rewrite <- List.app_assoc.
    do 7 apply contains_after. apply contains_here.
  - intros row Hrow. unfold SyncLoop.turn. rewrite Htry.
    exact (handler_records game (Cmd (CommandFailed text))
             (with_ran st (ran st ++ [syncback_cmd game api_key])) row Hrow).
Qed.

End Iteration.

End SyncLoopFacts.

(** ** The table of loops *)

Module TasksFacts.
Import Db Tasks.

(** A loop of the game is running: it is not done and has not been told to
    stop. *)
Definition running (r : Registry) (h : nat) (game_id : Z) : Prop :=
  exists t, tasks r !! h = Some t /\ task_state t = Running
            /\ game_key (task_game t) = game_id.

Definition at_most_one_running (r : Registry) : Prop :=
  forall g h1 h2, running r h1 g -> running r h2 g -> h1 = h2.

(** The table names every running loop, and names no loop that has been
    told to stop. *)
Definition loops_ok (r : Registry) : Prop :=
  (forall g h, running r h g -> _sync_tasks r !! g = Some h)
  /\ (forall g h, _sync_tasks r !! g = Some h ->
        exists t, tasks r !! h = Some t /\ game_key (task_game t) = g
                  /\ task_state t <> Cancelling).

Lemma done_true (r : Registry) (h : nat) :
  done r h = true
  <-> exists t, tasks r !! h = Some t /\ task_state t = Finished.
Proof.
  unfold done. destruct (tasks r !! h) as [[g []]|]; split; try done;
    try (intros (t & [= <-] & ?); done); try (by intros (t & ? & ?)).
  intros _. by eexists.
Qed.

Lemma start_sync_loop_ok (game : Game) (r : Registry) :
  loops_ok r ->
  loops_ok (start_sync_loop game r)
  /\ exists h, running (start_sync_loop game r) h (game_key game).
Proof.
  intros [Hrun Hreg]. unfold start_sync_loop.
  assert (Hcreate :
    (forall h, ~ running r h (game_key game)) ->
    let r' := {| tasks := tasks r ++ [{| task_game := game; task_state := Running |}];
                 _sync_tasks := <[game_key game := length (tasks r)]> (_sync_tasks r) |} in
    loops_ok r' /\ exists h, running r' h (game_key game)).
  { intros Hnone r'. split; [split|].
    - intros g h (t & Ht & Hst & Hg). cbn in Ht |- *.
      destruct (decide (h < length (tasks r))%nat) as [Hlt|Hge].
      + rewrite lookup_app_l in Ht by done.
        assert (Hr : running r h g) by (by exists t).
        destruct (decide (g = game_key game)) as [->|Hne];
          [by destruct (Hnone h)|].
        rewrite lookup_insert_ne by done. by apply Hrun.
      + rewrite lookup_app_r in Ht by lia.
        destruct (h - length (tasks r))%nat as [|n] eqn:E; [|done].
        injection Ht as <-. cbn in Hg. subst g.
        rewrite lookup_insert_eq. f_equal. lia.
    - intros g h. cbn. destruct (decide (g = game_key game)) as [->|Hne].
      + rewrite lookup_insert_eq. intros [= <-].
        exists {| task_game := game; task_state := Running |}.
        rewrite lookup_app_r, Nat.sub_diag by lia. by repeat split.
      + rewrite lookup_insert_ne by done. intros Hh.
        destruct (Hreg g h Hh) as (t & Ht & Hg & Hst). exists t.
        split; [|done]. apply lookup_app_l_Some. done.
    - exists (length (tasks r)),
        {| task_game := game; task_state := Running |}. cbn.
      rewrite lookup_app_r, Nat.sub_diag by lia. by repeat split. }
  destruct (_sync_tasks r !! game_key game) as [h0|] eqn:E0.
  - destruct (done r h0) eqn:Ed; cbn [negb].
    + apply Hcreate. intros h Hh. pose proof (Hrun _ _ Hh) as Hreg0.
      rewrite E0 in Hreg0. injection Hreg0 as <-.
      apply done_true in Ed as (t & Ht & Hst).
      destruct Hh as (t' & Ht' & Hst' & _). congruence.
    + split; [done|]. exists h0.
      destruct (Hreg _ _ E0) as (t & Ht & Hg & Hst). exists t.
      split; [done|split; [|done]].
      destruct (task_state t) eqn:Est; try done.
      assert (done r h0 = true) by (apply done_true; by exists t). congruence.
  - apply Hcreate. intros h Hh. apply Hrun in Hh. congruence.
Qed.

Lemma alter_running (f : Task -> Task) (h0 : nat) (r : Registry)
    (reg : gmap Z nat) (h : nat) (g : Z) :
  (forall t, task_state (f t) <> Running) ->
  running {| tasks := alter f h0 (tasks r); _sync_tasks := reg |} h g ->
  h <> h0 /\ running r h g.
Proof.
  intros Hf (t & Ht & Hst & Hg). cbn in Ht.
  destruct (decide (h0 = h)) as [->|Hne].
  - rewrite list_lookup_alter_eq in Ht.
    apply fmap_Some in Ht as (t0 & _ & ->). by destruct (Hf t0).
  - rewrite list_lookup_alter_ne in Ht by done. split; [done|]. by exists t.
Qed.

Lemma stop_sync_loop_ok (game_id : Z) (r : Registry) :
  loops_ok r ->
  loops_ok (stop_sync_loop game_id r)
  /\ forall h, ~ running (stop_sync_loop game_id r) h game_id.
Proof.
  intros [Hrun Hreg]. unfold stop_sync_loop.
  destruct (_sync_tasks r !! game_id) as [h0|] eqn:E0.
  2:{ split; [done|]. intros h Hh. apply Hrun in Hh. congruence. }
  set (r' := Build_Registry _ _).
  assert (Hrun' : forall g h, running r' h g ->
                    h <> h0 /\ running r h g).
  { intros g h Hh. subst r'. destruct (done r h0) eqn:Ed; cbn [negb] in Hh.
    - destruct Hh as (t & Ht & Hst & Hg). cbn in Ht. split; [|by exists t].
      intros ->. apply done_true in Ed as (t' & Ht' & Hst'). congruence.
    - apply alter_running in Hh; [done|]. intros t. unfold cancel. cbn.
      by destruct (task_state t). }
  assert (Hkeep : forall g h, h <> h0 -> running r h g ->
                    _sync_tasks r' !! g = Some h).
  { intros g h Hne Hh. apply Hrun in Hh. subst r'. cbn.
    rewrite lookup_delete_ne; [done|]. intros <-. congruence. }
  split; [split|].
  - intros g h Hh. apply Hrun' in Hh as [Hne Hh]. by apply Hkeep.
  - intros g h. subst r'. cbn.
    destruct (decide (game_id = g)) as [<-|Hne];
      [by rewrite lookup_delete_eq|].
    rewrite lookup_delete_ne by done. intros Hh.
    destruct (Hreg g h Hh) as (t & Ht & Hg & Hst).
    assert (Hh0 : h <> h0).
    { intros ->. destruct (Hreg _ _ E0) as (t0 & Ht0 & Hg0 & _). congruence. }
    exists t. split; [|done].
    destruct (negb (done r h0)); [|done].
    by rewrite list_lookup_alter_ne.
  - intros h Hh. pose proof Hh as [Hne Hh']%Hrun'.
    pose proof (Hkeep _ _ Hne Hh') as Hk. subst r'. cbn in Hk.
    by rewrite lookup_delete_eq in Hk.
Qed.

Lemma finish_ok (h0 : nat) (r : Registry) : loops_ok r -> loops_ok (finish h0 r).
Proof.
  intros [Hrun Hreg]. unfold finish. split.
  - intros g h Hh. apply alter_running in Hh as [_ Hh]; [|done].
    cbn. by apply Hrun.
  - intros g h Hh. cbn in Hh |- *. destruct (Hreg g h Hh) as (t & Ht & Hg & Hst).
    destruct (decide (h0 = h)) as [->|Hne].
    + rewrite list_lookup_alter_eq, Ht. cbn. eexists. by repeat split.
    + rewrite list_lookup_alter_ne by done. by exists t.
Qed.

Lemma stop_all_for_server_ok (t : Store.Tables) (server_id : str)
    (r : Registry) :
  loops_ok r -> loops_ok (stop_all_for_server t server_id r).
Proof.
  unfold stop_all_for_server. generalize (Store.get_games_for_server t server_id).
  intros games. revert r. induction games as [|g games IH]; intros r Hr; [done|].
  cbn [foldl]. apply IH. by apply stop_sync_loop_ok.
Qed.

Lemma apply_ok (r : Registry) (e : Event) : loops_ok r -> loops_ok (apply r e).
Proof.
  intros H. destruct e; cbn [apply].
  - by apply start_sync_loop_ok.
  - by apply stop_sync_loop_ok.
  - by apply stop_all_for_server_ok.
  - by apply finish_ok.
Qed.

Lemma reachable_ok (events : list Event) : loops_ok (foldl apply no_tasks events).
Proof.
  assert (H : loops_ok no_tasks).
  { split.
    - by intros g h (t & Ht & _).
    - intros g h Hh. cbn in Hh. by rewrite lookup_empty in Hh. }
  revert H. generalize no_tasks.
  induction events as [|e events IH]; intros r Hr; [done|].
  cbn [foldl]. by apply IH, apply_ok.
Qed.

(** X21: however [start_sync_loop], [stop_sync_loop] and
    [stop_all_for_server] are called and tasks end, a game never has two
    loops running: every task that is not done and has not been cancelled
    is the one [_sync_tasks] holds for its game. Right after
    [start_sync_loop] the game has a running loop, and right after
    [stop_sync_loop] it has none. *)
Theorem one_loop_per_game (events : list Event) :
  let r := foldl apply no_tasks events in
  at_most_one_running r
  /\ (forall game, exists h, running (start_sync_loop game r) h (game_key game))
  /\ (forall game_id h, ~ running (stop_sync_loop game_id r) h game_id).
Proof.
  cbv zeta. pose proof (reachable_ok events) as Hok.
  split; [|split].
  - destruct Hok as [Hrun _]. intros g h1 h2 H1 H2.
    apply Hrun in H1, H2. congruence.
  - intros game. by apply start_sync_loop_ok.
  - intros game_id. by apply stop_sync_loop_ok.
Qed.

End TasksFacts.

(** ** The commands *)

Module BotFacts.
Import Db Store Tasks Bot StoreFacts.

Section Commands.

Variable max_games_per_server : Z.
Variable sync_interval : Z.
Variable fernet_encrypt : Security.Fernet -> Security.bytes -> Security.bytes -> Security.bytes.
Variable fernet_decrypt : Security.Fernet -> Security.bytes -> option Security.bytes.
Variable utf8_decode : Security.bytes -> option str.
Variable _fernet : option Security.Fernet.
Variable exc_message : pyexc -> str.

Abbreviation step :=
  (step max_games_per_server sync_interval fernet_encrypt fernet_decrypt
     utf8_decode _fernet exc_message).

(** *** A database without games stays without games *)

(** No game, no loop, and no handler on its way to [db.add_game]. *)
Definition idle (s : State) : Prop :=
  games (core (tables s)) = ∅ /\ loops s = no_tasks
  /\ forall n i place target key,
       pending s !! n <> Some (Some (AddGameInit i place target key)).

Lemma no_games_list (t : Tables) :
  games (core t) = ∅ -> map_to_list (games (core t)) = [].
Proof. intros ->. apply map_to_list_empty. Qed.

Lemma no_games_get_game (t : Tables) (s : str) (p : Z) :
  games (core t) = ∅ -> get_game t s p = None.
Proof. intros H. unfold get_game. by rewrite (no_games_list t H). Qed.

Lemma no_games_for_server (t : Tables) (s : str) :
  games (core t) = ∅ -> get_games_for_server t s = [].
Proof. intros H. unfold get_games_for_server. by rewrite (no_games_list t H). Qed.

Lemma delete_games_empty (dead : Z * GameRow -> bool) (d : Database) :
  games d = ∅ -> games (delete_games dead d) = ∅.
Proof. intros H. cbn. rewrite H. apply map_filter_empty. Qed.

Lemma alter_empty {A} (f : A -> A) (k : Z) (m : gmap Z A) :
  m = ∅ -> alter f k m = ∅.
Proof.
  intros ->. apply map_eq. intros j. rewrite lookup_alter, !lookup_empty.
  by destruct (decide (k = j)).
Qed.

Lemma run_loop_call_no_games (c : LoopCall) (t : Tables) :
  games (core t) = ∅ -> games (core (run (loop_call c) t)) = ∅.
Proof.
  intros H. destruct c; cbn [loop_call run].
  - cbn. by apply alter_empty.
  - unfold update_last_error. rewrite H, lookup_empty. cbn. by apply alter_empty.
  - unfold add_issue. by rewrite H, lookup_empty.
  - done.
  - done.
Qed.

Lemma pending_snoc (s : State) (p : Pending) (n : nat) (q : Pending) :
  (pending s ++ [Some p]) !! n = Some (Some q) ->
  pending s !! n = Some (Some q) \/ q = p.
Proof.
  intros H. apply lookup_app_Some in H as [H|[_ H]]; [by left|].
  right. destruct (n - length (pending s))%nat; [|done]. by injection H.
Qed.

Lemma step_idle (s : State) (e : Event) : idle s -> idle (step s e).
Proof.
  intros (Hg & Hl & Hp). destruct e; cbn [Bot.step].
  - (* approve-server *)
    unfold Bot.approve_server. destruct (negb _); [done|].
    split; [|done]. cbn [reply with_tables tables].
    unfold Store.approve_server. destruct (allowed_servers _ !! _); [|done].
    cbn. rewrite Hg. apply map_filter_empty.
  - (* revoke-server *)
    unfold Bot.revoke_server. destruct (negb _); [done|].
    split; [|split; [|done]]; cbn [reply with_tables with_loops tables loops].
    + unfold Store.revoke_server. destruct (allowed_servers _ !! _); [|done].
      cbn. rewrite Hg. apply map_filter_empty.
    + unfold stop_all_for_server. by rewrite no_games_for_server.
  - (* set-api-key *)
    unfold Bot.set_api_key. destruct (_ || _); [done|].
    destruct (Security.encrypt_api_key _ _ _ _); [|done].
    split; [|done]. cbn [reply with_tables tables core with_core].
    by rewrite no_games_for_server.
  - (* add-game *)
    unfold Bot.add_game. destruct (check_server_async _ _); [done|].
    destruct (_ >=? _)%Z; [done|]. rewrite no_games_get_game by done.
    split; [done|split; [done|]]. cbn [wait pending].
    intros n i0 p0 t0 k0 H. apply pending_snoc in H as [H|H]; [|done].
    by eapply Hp.
  - (* remove-game *)
    unfold Bot.remove_game, owned_game.
    destruct (check_server_async _ _); [done|].
    by rewrite no_games_get_game.
  - (* reset-game *)
    unfold Bot.reset_game, owned_game.
    destruct (check_server_async _ _); [done|].
    by rewrite no_games_get_game.
  - (* a handler goes on *)
    unfold resume. destruct (pending s !! n) as [[p|]|] eqn:En; try done.
    set (s0 := Build_State _ _ _ _).
    assert (H0 : idle s0).
    { split; [done|split; [done|]]. intros m i0 p0 t0 k0. subst s0. cbn.
      destruct (decide (n = m)) as [->|Hne].
      - rewrite list_lookup_insert_eq; [done|]. by eapply lookup_lt_Some.
      - rewrite list_lookup_insert_ne by done. apply Hp. }
    destruct H0 as (Hg0 & Hl0 & Hp0).
    destruct p as [i place chan|i place target key|i place game|i place game].
    + destruct a; [|done]. unfold add_game_deferred.
      destruct (match chan with Some c => Some c | None => channel i end)
        as [[ck []]|]; try done.
      by rewrite no_games_for_server.
    + by destruct (Hp n i place target key).
    + destruct a; [|done]. unfold reset_game_deferred.
      assert (Hstop : stop_sync_loop (game_key game) (loops s0) = no_tasks)
        by (by rewrite Hl0).
      destruct (Security.decrypt_api_key _ _ _ _).
      * split; [done|split; [exact Hstop|]].
        cbn [wait pending with_loops].
        intros m i0 p0 t0 k0 H. apply pending_snoc in H as [H|H]; [|done].
        by eapply Hp0.
      * split; [done|split; [exact Hstop|done]].
    + unfold reset_game_init. destruct a; [|done].
      assert (Hd : games (core (with_core (tables s0)
                (with_games (delete_issues_of (game_key game) (core (tables s0)))
                   (alter set_reset (game_key game)
                      (games (delete_issues_of (game_key game)
                                (core (tables s0)))))))) = ∅).
      { cbn. by apply alter_empty. }
      rewrite no_games_get_game by exact Hd. by split.
  - (* on_ready *)
    unfold on_ready. split; [done|split; [|done]]. cbn [with_loops loops].
    unfold get_all_games. by rewrite no_games_list.
  - (* a loop writes *)
    split; [|done]. cbn [with_tables tables]. by apply run_loop_call_no_games.
  - (* a task ends *)
    split; [done|split; [|done]]. cbn [with_loops loops]. by rewrite Hl.
Qed.

(** X22: a bot that starts on a database file that does not exist never
    comes to monitor a game: whatever commands arrive and however the
    handlers are resumed, the table [games] stays empty and no loop is
    started. [add-game] takes the API key from a game the same user already
    has in the server and refuses ("No API key found") when there is none,
    and [set-api-key] only updates rows that exist. *)
Theorem no_first_game (events : list Event) (now : str) :
  games (core (tables (foldl step (fresh now) events))) = ∅
  /\ loops (foldl step (fresh now) events) = no_tasks.
Proof.
  assert (H : idle (foldl step (fresh now) events)).
  { assert (H0 : idle (fresh now)) by (by repeat split).
    revert H0. generalize (fresh now).
    induction events as [|e events IH]; intros s Hs; [done|].
    cbn [foldl]. by apply IH, step_idle. }
  destruct H as (Hg & Hl & _). by split.
Qed.

(** *** The games of other users *)

(** The user a command comes from. *)
Definition by_user (u : str) (e : Event) : Prop :=
  match e with
  | CmdApproveServer i _ _ | CmdRevokeServer i _ | CmdSetApiKey i _ _
  | CmdAddGame i _ _ | CmdRemoveGame i _ | CmdResetGame i _ => user i = u
  | Resume _ _ _ | Ready | LoopWrites _ | TaskEnds _ => True
  end.

Definition pending_user (p : Pending) : str :=
  match p with
  | AddGameDeferred i _ _ | AddGameInit i _ _ _ | ResetDeferred i _ _
  | ResetInit i _ _ => user i
  end.

(** The game a waiting [reset-game] is about. *)
Definition pending_game (p : Pending) : option Z :=
  match p with
  | ResetDeferred _ _ g | ResetInit _ _ g => Some (game_key g)
  | AddGameDeferred _ _ _ | AddGameInit _ _ _ _ => None
  end.

Abbreviation same_game := SyncLoopFacts.same_game.

(** The row under [k] belongs to someone else than [u], who is no admin,
    and every handler that waits is one of [u]'s and not about [k]. *)
Definition guarded (u : str) (k : Z) (r0 : GameRow) (s : State) : Prop :=
  schema_ok (tables s)
  /\ is_admin (tables s) u = false
  /\ (exists r, games (core (tables s)) !! k = Some r /\ same_game r0 r)
  /\ forall n p, pending s !! n = Some (Some p) ->
       pending_user p = u /\ pending_game p <> Some k.

Lemma same_game_trans (a b c : GameRow) :
  same_game a b -> same_game b c -> same_game a c.
Proof. unfold SyncLoopFacts.same_game. intuition congruence. Qed.

Lemma update_keys_spec (encrypted : list N) (who : str) (gs : list Game)
    (t : Tables) (d : Database) :
  (forall g r, In g gs -> games d !! game_key g = Some r ->
     added_by r = added_by g) ->
  schema_ok (with_core t d) ->
  schema_ok (with_core t (update_keys encrypted who gs d))
  /\ forall k r, games d !! k = Some r -> added_by r <> who ->
       games (update_keys encrypted who gs d) !! k = Some r.
Proof.
  revert d. induction gs as [|g gs IH]; intros d Hgs Hd; [done|].
  cbn [update_keys foldl]. fold (update_keys encrypted who gs).
  destruct (str_eqb (added_by g) who) eqn:E.
  2:{ apply IH; [|done]. intros g' r Hin. apply Hgs. by right. }
  apply PyStrFacts.str_eqb_eq in E.
  set (d1 := with_games d _).
  assert (H1 : schema_ok (with_core t d1)).
  { apply (alter_games_schema_ok (with_core t d)); [|done]. by intros r. }
  assert (Hgs1 : forall g' r, In g' gs -> games d1 !! game_key g' = Some r ->
                   added_by r = added_by g').
  { intros g' r Hin. subst d1. cbn. rewrite lookup_alter.
    destruct (decide (game_key g = game_key g')) as [Ek|].
    - intros (r1 & Hr1 & ->)%fmap_Some. cbn. rewrite Ek in Hr1.
      apply (Hgs g' r1); [by right|done].
    - apply Hgs. by right. }
  destruct (IH d1 Hgs1 H1) as (Hs & Hk). split; [done|].
  intros k r Hr Hwho. apply Hk; [|done]. subst d1. cbn.
  rewrite lookup_alter. destruct (decide (game_key g = k)) as [<-|]; [|done].
  destruct Hwho. rewrite <- E. apply (Hgs g r); [by left|done].
Qed.

Lemma get_games_for_server_rows (t : Tables) (s : str) (g : Game) (r : GameRow) :
  In g (get_games_for_server t s) ->
  games (core t) !! game_key g = Some r -> r = game_row g.
Proof.
  unfold get_games_for_server. intros Hin Hr.
  apply in_map_iff in Hin as ([k r'] & <- & [Hin _]%filter_In).
  apply list_elem_of_In, elem_of_map_to_list in Hin. cbn in *. congruence.
Qed.

Lemma delete_issues_of_schema_ok (t : Tables) (g : Z) :
  schema_ok t -> schema_ok (with_core t (delete_issues_of g (core t))).
Proof.
  intros ((Hg & Hi) & Hu & (Hsg & Hsi)).
  split; [split|split; [|split]]; try done.
  - intros k r. cbn. intros [Hr _]%map_lookup_filter_Some. by apply (Hi k r).
  - intros k r. cbn. intros [Hr _]%map_lookup_filter_Some. by apply (Hsi k r).
Qed.

Lemma owned_game_mine (u : str) (i : Interaction) (place : Z) (verb : str)
    (s : State) (g : Game) :
  user i = u -> is_admin (tables s) u = false ->
  owned_game i place verb s = inr g ->
  games (core (tables s)) !! game_key g = Some (game_row g)
  /\ discord_server_id g = guild_str i /\ place_id g = place
  /\ added_by g = u.
Proof.
  intros Hu Hadm. unfold owned_game.
  destruct (check_server_async _ _); [done|].
  destruct (get_game _ _ _) as [g'|] eqn:Eg; [|done].
  rewrite Hu, Hadm. cbn [negb]. rewrite andb_true_r.
  destruct (str_eqb (added_by g') u) eqn:E; cbn [negb]; [|done].
  intros [= <-]. apply get_game_Some in Eg as (H1 & H2 & H3).
  apply PyStrFacts.str_eqb_eq in E. done.
Qed.

Lemma guarded_reply (u : str) (k : Z) (r0 : GameRow) (text : str) (s : State) :
  guarded u k r0 s -> guarded u k r0 (reply text s).
Proof. done. Qed.

Lemma guarded_wait (u : str) (k : Z) (r0 : GameRow) (p : Pending) (s : State) :
  pending_user p = u -> pending_game p <> Some k ->
  guarded u k r0 s -> guarded u k r0 (wait p s).
Proof.
  intros Hu Hk (Hs & Ha & Hr & Hp). split; [done|split; [done|split; [done|]]].
  intros n q Hq. cbn in Hq. apply pending_snoc in Hq as [Hq| ->]; [|done].
  by apply (Hp n).
Qed.

Lemma guarded_loops (u : str) (k : Z) (r0 : GameRow) (r : Registry) (s : State) :
  guarded u k r0 s -> guarded u k r0 (with_loops s r).
Proof. done. Qed.

Lemma run_loop_call_admins (c : LoopCall) (t : Tables) :
  admins (run (loop_call c) t) = admins t.
Proof.
  destruct c; cbn [loop_call run]; try done.
  by destruct (add_issue _ _ _ _ _ _ _ _ _ _ _) as [[]|].
Qed.

Lemma run_loop_call_same_game (c : LoopCall) (t : Tables) (k : Z) (r : GameRow) :
  games (core t) !! k = Some r ->
  exists r', games (core (run (loop_call c) t)) !! k = Some r' /\ same_game r r'.
Proof.
  intros Hr. destruct c; cbn [loop_call run].
  - cbn. rewrite lookup_alter. destruct (decide (game = k)) as [->|].
    + rewrite Hr. cbn. eexists. split; [done|]. by repeat split.
    + exists r. split; [done|]. by repeat split.
  - pose proof (SyncLoopFacts.update_last_error_same_games (core t) game error now k)
      as H. cbn [with_core core]. rewrite Hr in H.
    destruct (games (update_last_error (core t) game error now).1 !! k) as [r'|];
      [|done]. by exists r'.
  - destruct (add_issue _ _ _ _ _ _ _ _ _ _ _) as [[d key]|] eqn:E.
    + unfold add_issue in E. destruct (games (core t) !! game); [|done].
      injection E as <- <-. cbn. exists r. split; [done|]. by repeat split.
    + exists r. split; [done|]. by repeat split.
  - exists r. split; [done|]. by repeat split.
  - exists r. split; [done|]. by repeat split.
Qed.

Lemma step_guarded (u : str) (k : Z) (r0 : GameRow) (s : State) (e : Event) :
  added_by r0 <> u -> by_user u e -> guarded u k r0 s ->
  guarded u k r0 (step s e).
Proof.
  intros Hother He Hguard.
  pose proof Hguard as (Hs & Ha & (r & Hr & Hsame) & Hp).
  assert (Hmine : added_by r <> u).
  { destruct Hsame as (_ & _ & _ & _ & <- & _). done. }
  destruct e; cbn [Bot.step]; cbn [by_user] in He.
  - (* approve-server *)
    unfold Bot.approve_server. by rewrite He, Ha.
  - (* revoke-server *)
    unfold Bot.revoke_server. by rewrite He, Ha.
  - (* set-api-key *)
    unfold Bot.set_api_key. destruct (_ || _); [done|].
    destruct (Security.encrypt_api_key _ _ _ _) as [enc|]; [|done].
    apply guarded_reply.
    destruct (update_keys_spec enc (user i)
                (get_games_for_server (tables s) (guild_str i)) (tables s)
                (core (tables s))) as (Hs' & Hk').
    { intros g r' Hin Hr'.
      by rewrite (get_games_for_server_rows _ _ _ _ Hin Hr'). }
    { by destruct (tables s). }
    split; [|split; [done|split; [|done]]].
    + cbn [with_tables tables]. by destruct (tables s).
    + exists r. split; [|done]. cbn [with_tables tables with_core core].
      apply Hk'; [done|]. by rewrite He.
  - (* add-game *)
    unfold Bot.add_game. destruct (check_server_async _ _); [done|].
    destruct (_ >=? _)%Z; [done|]. destruct (get_game _ _ _); [done|].
    by apply guarded_wait.
  - (* remove-game *)
    unfold Bot.remove_game.
    destruct (owned_game i place (py "remove") s) as [text|g] eqn:Eo; [done|].
    apply (owned_game_mine u) in Eo as (Hg & Hgs & Hgp & Hgu); [|done..].
    apply guarded_reply, guarded_loops.
    split; [|split; [done|split; [|done]]].
    + cbn [with_tables tables]. unfold Store.remove_game. cbn [fst].
      by apply delete_games_schema_ok.
    + exists r. split; [|done]. cbn [with_tables tables].
      unfold Store.remove_game. cbn [fst with_core core].
      apply delete_games_games. split; [done|].
      destruct (game_at (guild_str i) place (k, r)) eqn:E; [|done].
      apply game_at_true in E as [E1 E2]. cbn in E1, E2.
      destruct Hs as (_ & Hu & _).
      assert (k = game_key g) by (apply (Hu k (game_key g) r (game_row g));
                                  congruence).
      subst k. rewrite Hg in Hr. injection Hr as <-. by destruct Hmine.
  - (* reset-game *)
    unfold Bot.reset_game.
    destruct (owned_game i place (py "reset") s) as [text|g] eqn:Eo; [done|].
    apply (owned_game_mine u) in Eo as (Hg & Hgs & Hgp & Hgu); [|done..].
    apply guarded_wait; [done| |done]. cbn. intros [= <-].
    rewrite Hg in Hr. injection Hr as <-. by destruct Hmine.
  - (* a handler goes on *)
    unfold resume. destruct (pending s !! n) as [[p|]|] eqn:En; try done.
    destruct (Hp n p En) as [Hpu Hpk].
    set (s0 := Build_State _ _ _ _).
    assert (H0 : guarded u k r0 s0).
    { split; [done|split; [done|split; [by exists r|]]].
      intros m q. subst s0. cbn. destruct (decide (n = m)) as [->|Hne].
      - rewrite list_lookup_insert_eq; [done|]. by eapply lookup_lt_Some.
      - rewrite list_lookup_insert_ne by done. apply Hp. }
    destruct p as [i place chan|i place target key|i place game|i place game];
      cbn in Hpu, Hpk.
    + destruct a; [|done]. unfold add_game_deferred.
      destruct (match chan with Some c => Some c | None => channel i end)
        as [[ck []]|]; try done.
      destruct (List.filter _ _); [done|].
      destruct (Security.decrypt_api_key _ _ _ _); [|done].
      by apply guarded_wait.
    + unfold add_game_init. destruct a; [|done].
      destruct (Store.add_game _ _ _ _ _ _ _ _) as [[t newk]|] eqn:Eadd; [|done].
      apply guarded_reply.
      assert (Hg1 : guarded u k r0 (with_tables s0 t)).
      { split; [by eapply add_game_schema_ok|].
        unfold Store.add_game in Eadd.
        destruct (allowed_servers _ !! _); [|done].
        destruct (existsb _ _); [|]; [done|]. injection Eadd as <- <-.
        destruct H0 as (_ & Ha0 & _ & Hp0).
        split; [exact Ha0|split; [|exact Hp0]]. exists r. split; [|done]. cbn.
        rewrite lookup_insert_ne; [done|].
        destruct Hs as (_ & _ & (Hsg & _)). specialize (Hsg k r Hr).
        subst s0. cbn. lia. }
      by destruct (get_game t _ _).
    + destruct a; [|done]. unfold reset_game_deferred.
      destruct (Security.decrypt_api_key _ _ _ _); [|done].
      apply guarded_wait; [done|done|]. by apply guarded_loops.
    + unfold reset_game_init. destruct a; [|done]. apply guarded_reply.
      set (t := with_core _ _).
      assert (Hg1 : guarded u k r0 (with_tables s0 t)).
      { destruct H0 as (Hs0 & Ha0 & _ & Hp0).
        split; [|split; [exact Ha0|split; [|exact Hp0]]].
        - subst t. cbn [with_tables tables].
          apply (alter_games_schema_ok
                   (with_core (tables s0)
                      (delete_issues_of (game_key game) (core (tables s0)))));
            [by intros r'|].
          by apply delete_issues_of_schema_ok.
        - exists r. split; [|done]. subst t. cbn.
          rewrite lookup_alter_ne; [done|]. intros E. apply Hpk. by f_equal. }
      by destruct (get_game t _ _).
  - (* on_ready *)
    by apply guarded_loops.
  - (* a loop writes *)
    destruct (run_loop_call_same_game c (tables s) k r Hr) as (r' & Hr' & Hs').
    split; [by apply run_schema_ok|split; [|split; [|done]]].
    + unfold is_admin in Ha |- *. cbn [with_tables tables].
      by rewrite run_loop_call_admins.
    + exists r'. split; [done|]. by eapply same_game_trans.
  - (* a task ends *)
    by apply guarded_loops.
Qed.

(** X23: a user who is not an admin cannot remove, reset or re-key the game
    of somebody else: from a state in which no handler is waiting, whatever
    commands the user sends, however the handlers are resumed and whatever
    the loops write in between, a game that another user added is still in
    the table under its key, with its server, place, channel, API key,
    owner and directory as they were. *)
Theorem other_users_games_stay (u : str) (k : Z) (r0 : GameRow) (s : State)
    (events : list Event) :
  schema_ok (tables s) ->
  is_admin (tables s) u = false ->
  Forall (fun p => p = None) (pending s) ->
  games (core (tables s)) !! k = Some r0 ->
  added_by r0 <> u ->
  Forall (by_user u) events ->
  exists r,
    games (core (tables (foldl step s events))) !! k = Some r
    /\ same_game r0 r.
Proof.
  intros Hs Ha Hp Hr Hother Hev.
  assert (H0 : guarded u k r0 s).
  { split; [done|split; [done|split]].
    - exists r0. split; [done|]. by repeat split.
    - intros n p Hn. rewrite List.Forall_forall in Hp.
      apply list_elem_of_lookup_2, list_elem_of_In, Hp in Hn. done. }
  clear Hs Ha Hp Hr. revert s H0.
  induction Hev as [|e events He _ IH]; intros s H0.
  - by destruct H0 as (_ & _ & Hr & _).
  - cbn [foldl]. apply IH. by apply step_guarded.
Qed.

End Commands.

End BotFacts.

(** ** The outcomes of init_encryption *)

Module KeyFacts.
Import Security SecurityFacts.

Lemma utf8_encode_raise (s : str) (e : pyexc) :
  utf8_encode s = Raise e -> e = UnicodeEncodeError.
Proof.
  induction s as [|c s IH]; cbn [utf8_encode]; [done|].
  destruct (utf8_char c) as [b|e'] eqn:Ec.
  - destruct (utf8_encode s) as [bs|e'']; [done|]. intros [= <-]. by apply IH.
  - intros [= <-]. unfold utf8_char in Ec.
    repeat (destruct (_ <? _) || destruct (_ && _)); congruence.
Qed.

Lemma Fernet_new_raise (k : bytes) (e : pyexc) :
  Fernet_new k = Raise e -> e = ValueError.
Proof.
  unfold Fernet_new. destruct (urlsafe_b64decode k) as [d|]; [|by intros [= <-]].
  destruct (_ =? _)%nat; [done|by intros [= <-]].
Qed.

(** X24: how [init_encryption] can end. Without a secret it takes the key
    [Fernet.generate_key] makes of 32 fresh octets and cannot fail, so that
    each start has a key of its own. With a secret, the only failures are a
    [UnicodeEncodeError], for a secret that has no UTF-8 encoding, and a
    [ValueError], which only a secret of the ready-made form (44
    characters ending in "=") can cause, when [Fernet] rejects it. *)
Theorem init_encryption_outcomes (key : str) (entropy : bytes) :
  (octets entropy -> length entropy = 32%nat ->
   init_encryption [] entropy
   = Ok {| signing_key := firstn 16 entropy;
           encryption_key := skipn 16 entropy |})
  /\ (forall e,
        key <> [] -> init_encryption key entropy = Raise e ->
        (e = UnicodeEncodeError /\ utf8_encode key = Raise UnicodeEncodeError)
        \/ (e = ValueError /\ looks_like_key key = true
            /\ exists kb, utf8_encode key = Ok kb
                          /\ Fernet_new kb = Raise ValueError)).
Proof.
  split.
  - intros Ho Hl. cbn [init_encryption]. unfold generate_key.
    by apply Fernet_new_encoded.
  - intros e Hne. unfold init_encryption. destruct key as [|c key]; [done|].
    destruct (utf8_encode (c :: key)) as [kb|e'] eqn:Eu.
    + destruct (looks_like_key (c :: key)) eqn:El.
      * cbn [mbind result_bind]. intros H. pose proof (Fernet_new_raise _ _ H) as ->.
        right. split; [done|split; [done|]]. by exists kb.
      * intros H.
        change (Fernet_new (urlsafe_b64encode (sha256 kb)) = Raise e) in H.
        rewrite Fernet_new_encoded in H;
          [done|apply sha256_octets|apply sha256_length].
    + pose proof (utf8_encode_raise _ _ Eu) as ->.
      destruct (looks_like_key (c :: key)); cbn [mbind result_bind];
        intros [= <-]; by left.
Qed.

End KeyFacts.

(** ** Concrete runs *)

Module Runs.
Import Db Review Daemon AtlasCli SyncLoop Store Tasks Bot.
Import ReviewFacts DaemonFacts SecurityFacts StripFacts.

(** A response in a fence, with a blank before it. *)
Lemma parse_issues_fenced_witness :
  parse_issues no_json ascii_word no_int no_repr
    (py " " ++ (FENCE ++ py "json" ++ NL ++ py "[]" ++ NL ++ FENCE) ++ [])
  = parse_issues no_json ascii_word no_int no_repr (py "[]").
Proof.
  apply (ParseFacts.parse_issues_fenced no_json ascii_word no_int no_repr
           (py " ") [] (py "json") (py "[]")).
  - reflexivity.
  - repeat constructor.
  - repeat constructor.
  - constructor.
  - apply strip_fixed_trimmed. reflexivity.
  - reflexivity.
Defined.

(** A store with one open finding on [x.lua]. *)
Definition one_finding : World :=
  (persist_new fixed_clock true send_ok game1 [unsafe_call] world0).2.

Lemma auto_resolve_reopens_witness :
  final_dedup
    (db (_auto_resolve fixed_clock 1 [py "x.lua"] one_finding).2) 1
    (py "x.lua") (py "Unsafe call")
  = false.
Proof.
  apply (LoopFacts.auto_resolve_reopens fixed_clock 1 [py "x.lua"] one_finding
           (py "x.lua") (py "Unsafe call")).
  reflexivity.
Defined.

Lemma store_ok_preserved_witness :
  (forall changed,
      store_ok (db (snd (_auto_resolve fixed_clock (game_key game1) changed
                           world0))))
  /\ (forall k user_,
        store_ok (db (mark_fixed fixed_clock k user_ world0)))
  /\ (forall batch, NoDup (List.map dedup_key batch) ->
        store_ok (db (snd (persist_new fixed_clock true send_ok game1 batch
                             world0)))).
Proof.
  apply (store_ok_preserved fixed_clock true send_ok game1 world0).
  split; intros *; cbn; by rewrite ?lookup_empty.
Defined.

(** *** A turn of the loop *)

Definition null_fernet : Security.Fernet :=
  {| Security.signing_key := []; Security.encryption_key := [] |}.

(** The game of the store, with the key [KEY] as its API key. *)
Definition keyed_game : Game :=
  {| game_key := 1; game_row := Bot.set_key [75; 69; 89] (game_row game1) |}.

Definition loop0 : Loop := {| world := world0; ran := []; embed_updates := [] |}.

(** Every command succeeds and prints nothing. *)
Definition quiet_exec : list Command -> Command -> Exit :=
  fun _ _ => Exited 0 [] [].

(** Every command succeeds, and [git diff HEAD] prints a diff. *)
Definition busy_exec : list Command -> Command -> Exit :=
  fun _ c =>
    match argv c with
    | [_; sub; _] =>
        if str_eqb sub (py "diff") then Exited 0 FilterFacts.two_files []
        else Exited 0 [] []
    | _ => Exited 0 [] []
    end.

(** Every command exits with status 1. *)
Definition failing_exec : list Command -> Command -> Exit :=
  fun _ _ => Exited 1 [] (py "boom").

Definition demo_try_block (exec : list Command -> Command -> Exit) :=
  try_block no_json ascii_word no_int no_repr oracle_down fixed_clock true
    send_ok no_message plain_decrypt ascii_decode (Some null_fernet) exec
    (py "atlas") (fun p => p) (fun _ => py "2026-01-02 00:00:00 UTC").

Definition demo_turn (exec : list Command -> Command -> Exit) :=
  turn no_json ascii_word no_int no_repr oracle_down fixed_clock true
    send_ok no_message plain_decrypt ascii_decode (Some null_fernet) exec
    (py "atlas") (fun p => p) (fun _ => py "2026-01-02 00:00:00 UTC")
    (fun s => s).

Lemma turn_without_changes_witness :
  demo_turn quiet_exec keyed_game loop0
  = Sleeps
      {| world := world0;
         ran := [] ++ [SyncLoopFacts.syncback_cmd (py "atlas") (fun p => p)
                         keyed_game (py "KEY")]
                ++ [SyncLoopFacts.git_cmd (fun p => p) keyed_game
                      [py "diff"; py "HEAD"]];
         embed_updates := [] |}.
Proof.
  apply (SyncLoopFacts.turn_without_changes no_json ascii_word no_int no_repr
           oracle_down fixed_clock true send_ok no_message plain_decrypt
           ascii_decode (Some null_fernet) quiet_exec (py "atlas")
           (fun p => p) (fun _ => py "2026-01-02 00:00:00 UTC") (fun s => s)
           keyed_game loop0 (py "KEY") [] [] 0 [] []).
  - reflexivity.
  - reflexivity.
  - reflexivity.
  - right. reflexivity.
Defined.

Lemma turn_with_changes_clears_error_witness :
  exists row' t,
    games (db (world (demo_try_block busy_exec keyed_game loop0).2)) !! 1%Z
    = Some row'
    /\ SyncLoopFacts.same_game (game_row game1) row'
    /\ last_error row' = None /\ last_error_at row' = None
    /\ error_count row' = Some 0%Z /\ last_sync_at row' = Some t
    /\ (forall e now_,
          (update_last_error
             (db (world (demo_try_block busy_exec keyed_game loop0).2)) 1 e
             now_).2 = true).
Proof.
  apply (SyncLoopFacts.turn_with_changes_clears_error no_json ascii_word
           no_int no_repr oracle_down fixed_clock true send_ok no_message
           plain_decrypt ascii_decode (Some null_fernet) busy_exec (py "atlas")
           (fun p => p) (fun _ => py "2026-01-02 00:00:00 UTC")
           keyed_game loop0 (demo_try_block busy_exec keyed_game loop0).2
           (py "KEY") [] [] 100 (skipn 1 FilterFacts.two_files) []
           (game_row game1)).
  - reflexivity.
  - reflexivity.
  - reflexivity.
  - by vm_compute.
  - by vm_compute.
Defined.

Lemma failed_syncback_shows_key_witness :
  exists text,
    (demo_try_block failing_exec keyed_game loop0).1
    = Some (Cmd (CommandFailed text))
    /\ contains (py "KEY") text = true
    /\ (forall row,
          games (db (world loop0)) !! game_key keyed_game = Some row ->
          exists st' row',
            (demo_turn failing_exec keyed_game loop0 = Sleeps st'
             \/ demo_turn failing_exec keyed_game loop0 = Ends st')
            /\ games (db (world st')) !! game_key keyed_game = Some row'
            /\ last_error row' = Some text
            /\ (true = true -> last_error row <> Some text ->
                sent (world st')
                = sent (world loop0)
                  ++ [ErrorEmbed text (error_type (fun s => s) text)])).
Proof.
  apply (SyncLoopFacts.failed_syncback_shows_key no_json ascii_word no_int
           no_repr oracle_down fixed_clock true send_ok no_message
           plain_decrypt ascii_decode (Some null_fernet) failing_exec
           (py "atlas") (fun p => p) (fun _ => py "2026-01-02 00:00:00 UTC")
           (fun s => s) keyed_game loop0 (py "KEY") 1 [] (py "boom")).
  - reflexivity.
  - reflexivity.
  - done.
Defined.

(** *** A server with one game *)

Definition t0 : str := py "2026-01-01 00:00:00".

Definition one_server : Tables :=
  StoreFacts.run_all
    [ApproveServer (py "900") None (py "176643682689089545") t0;
     AddGame (py "900") 42 (py "77") [75; 69; 89] (py "5") (py "data/900/42") t0]
    (connect empty t0).

Definition bot0 : State :=
  {| tables := one_server; loops := no_tasks; pending := []; replies := [] |}.

(** Another user of the same server. *)
Definition visitor : Interaction :=
  {| user := py "7"; guild_id := Some 900%Z; guild_name := None;
     channel := Some {| channel_key := 77; is_text := true |} |}.

Definition demo_step :=
  Bot.step 5 300 plain_encrypt plain_decrypt ascii_decode (Some null_fernet)
    no_message.

Definition visit : list Event :=
  [CmdRemoveGame visitor 42; CmdSetApiKey visitor (py "mine") [];
   CmdResetGame visitor 42; CmdAddGame visitor 43 None;
   Resume 0 (Returned []) t0; LoopWrites (LoopError 1 (py "HTTP 403") t0);
   CmdRevokeServer visitor (py "900")].

Lemma other_users_games_stay_witness :
  exists r,
    games (core (tables (foldl demo_step bot0 visit))) !! 1%Z = Some r
    /\ SyncLoopFacts.same_game
         (StoreFacts.new_game (py "900") 42 (py "77") [75; 69; 89] (py "5")
            (py "data/900/42") t0) r.
Proof.
  apply (BotFacts.other_users_games_stay 5 300 plain_encrypt plain_decrypt
           ascii_decode (Some null_fernet) no_message (py "7") 1 _ bot0 visit).
  - apply StoreFacts.run_all_schema_ok, StoreFacts.connect_empty_schema_ok.
  - by vm_compute.
  - constructor.
  - by vm_compute.
  - by vm_compute.
  - repeat constructor.
Defined.

End Runs.
